(** * Path and URL utilities of kitchensink (pathman): a shallow embedding

    The functions of the path module are translated one by one.  JavaScript
    strings are sequences of code units; they are modelled by [string], each
    [ascii] standing for the code unit of the same number (the range 0..255).
    Arrays are lists whose last element is the end of the array. *)

From Stdlib Require Import Strings.String Strings.Ascii Lists.List Bool.Bool Arith.Arith ZArith.ZArith Lia.
Import ListNotations.
Open Scope list_scope.
Open Scope string_scope.

(** ** String and array primitives of the language *)

Module Js.

(** [str.split(sep)] for a separator of one code unit: the result is never
    empty, and [""] splits into one empty segment. *)
Fixpoint split (sep : ascii) (s : string) : list string :=
  match s with
  | EmptyString => [EmptyString]
  | String c s' =>
      if Ascii.eqb c sep then EmptyString :: split sep s'
      else match split sep s' with
           | seg :: segs => String c seg :: segs
           | [] => [String c EmptyString]
           end
  end.

(** [arr.join(sep)]. *)
Fixpoint join (sep : string) (arr : list string) : string :=
  match arr with
  | [] => EmptyString
  | [x] => x
  | x :: rest => x ++ sep ++ join sep rest
  end.

(** [arr.push(x)], [arr.pop()], [arr.at(-1)] and [arr.shift()], as the array
    they leave behind (or the element they read). *)
Definition push (arr : list string) (x : string) : list string := (arr ++ [x])%list.
Definition pop (arr : list string) : list string := removelast arr.
Definition at_last (arr : list string) : option string :=
  match rev arr with
  | [] => None
  | x :: _ => Some x
  end.
Definition shift (arr : list string) : list string := tl arr.

(** [v !== s] for a value that may be [undefined]. *)
Definition strict_neq (v : option string) (s : string) : bool :=
  match v with
  | Some x => negb (String.eqb x s)
  | None => true
  end.

(** [str.startsWith(p)]. *)
Fixpoint startsWith (str p : string) : bool :=
  match p with
  | EmptyString => true
  | String b p' =>
      match str with
      | String a str' => Ascii.eqb a b && startsWith str' p'
      | EmptyString => false
      end
  end.

(** [str.endsWith(p)] for a pattern of one code unit. *)
Fixpoint endsWithChar (str : string) (c : ascii) : bool :=
  match str with
  | EmptyString => false
  | String a EmptyString => Ascii.eqb a c
  | String _ rest => endsWithChar rest c
  end.

(** Whether a code unit occurs in a string. *)
Fixpoint contains (c : ascii) (s : string) : bool :=
  match s with
  | EmptyString => false
  | String a rest => Ascii.eqb a c || contains c rest
  end.

(** The first [k] code units of a string, and what follows them. *)
Fixpoint take (k : nat) (s : string) : string :=
  match k, s with
  | S k', String c s' => String c (take k' s')
  | _, _ => EmptyString
  end.

Fixpoint drop (k : nat) (s : string) : string :=
  match k, s with
  | S k', String _ s' => drop k' s'
  | _, _ => s
  end.

(** [str.substring(start)] for a start that is not negative. *)
Definition substring (str : string) (start : nat) : string := drop start str.

(** [str.slice(0, e)]: a negative end counts from the end of the string. *)
Definition slice0 (str : string) (e : Z) : string :=
  let len := Z.of_nat (String.length str) in
  let final := if (e <? 0)%Z then Z.max (len + e) 0 else Z.min e len in
  take (Z.to_nat final) str.

(** [str.lastIndexOf(c)] for a pattern of one code unit, -1 when absent. *)
Fixpoint lastIndexOf (str : string) (c : ascii) : Z :=
  match str with
  | EmptyString => (-1)%Z
  | String a rest =>
      let i := lastIndexOf rest c in
      if (i <? 0)%Z then (if Ascii.eqb a c then 0%Z else (-1)%Z) else (i + 1)%Z
  end.

(** [str.slice(start)] for a start that is not negative. *)
Definition slice_from (str : string) (start : nat) : string := drop start str.

(** [arr.map(f)]: the callback is given the element, its index and the
    array. *)
Fixpoint map_from {A B : Type} (f : A -> nat -> list A -> B) (whole : list A)
    (i : nat) (arr : list A) : list B :=
  match arr with
  | [] => []
  | x :: rest => f x i whole :: map_from f whole (S i) rest
  end.

Definition map_indexed {A B : Type} (f : A -> nat -> list A -> B) (arr : list A) : list B :=
  map_from f arr 0 arr.

End Js.

(** ** Regular expressions

    A backtracking matcher after the language's definition of pattern
    matching: a matcher takes a position, the captures and a continuation,
    and alternatives are tried in the order of the pattern.  A position is
    the index [n] reached and the input [s] that remains. *)

Module RegExp.

(** What a class may list: a code unit, or the escape for white space. *)
Inductive class_atom : Type :=
| CChar (c : ascii)
| CSpace.

(** What matches one code unit. *)
Inductive charset : Type :=
| Lit (c : ascii)
| Dot
| NegSet (atoms : list class_atom).

Definition is_line_terminator (c : ascii) : bool :=
  Ascii.eqb c "010" || Ascii.eqb c "013".

(** White space and line terminators among the code units below 256: tab,
    line feed, vertical tab, form feed, carriage return, space, no-break
    space. *)
Definition is_white_space (c : ascii) : bool :=
  Ascii.eqb c "009" || Ascii.eqb c "010" || Ascii.eqb c "011" || Ascii.eqb c "012"
  || Ascii.eqb c "013" || Ascii.eqb c " " || Ascii.eqb c "160".

Definition atom_matches (a : class_atom) (c : ascii) : bool :=
  match a with
  | CChar x => Ascii.eqb c x
  | CSpace => is_white_space c
  end.

Definition charset_matches (cs : charset) (c : ascii) : bool :=
  match cs with
  | Lit x => Ascii.eqb c x
  | Dot => negb (is_line_terminator c)
  | NegSet atoms => negb (existsb (fun a => atom_matches a c) atoms)
  end.

(** Patterns.  [Rep min max greedy r] is a quantified atom, [max = None]
    standing for no upper bound. *)
Inductive regex : Type :=
| Empty
| Chr (cs : charset)
| Seq (r1 r2 : regex)
| Alt (r1 r2 : regex)
| Rep (min : nat) (max : option nat) (greedy : bool) (r : regex)
| Group (name : string) (r : regex)
| Paren (r : regex)
| Bol
| Eol.

Definition Star (r : regex) : regex := Rep 0 None true r.
Definition Plus (r : regex) : regex := Rep 1 None true r.
Definition LazyPlus (r : regex) : regex := Rep 1 None false r.
Definition Opt (r : regex) : regex := Rep 0 (Some 1) true r.

(** A literal string. *)
Fixpoint Str (s : string) : regex :=
  match s with
  | EmptyString => Empty
  | String c EmptyString => Chr (Lit c)
  | String c rest => Seq (Chr (Lit c)) (Str rest)
  end.

(** The named captures: the latest binding of a name is the first. *)
Definition captures : Type := list (string * string).

Fixpoint lookup (name : string) (caps : captures) : option string :=
  match caps with
  | [] => None
  | (k, v) :: rest => if String.eqb k name then Some v else lookup name rest
  end.

Fixpoint group_names (r : regex) : list string :=
  match r with
  | Seq r1 r2 | Alt r1 r2 => (group_names r1 ++ group_names r2)%list
  | Rep _ _ _ r1 | Paren r1 => group_names r1
  | Group name r1 => name :: group_names r1
  | _ => []
  end.

(** At the start of each turn of a quantified atom its captures are reset. *)
Definition reset (names : list string) (caps : captures) : captures :=
  filter (fun kv => negb (existsb (String.eqb (fst kv)) names)) caps.

Definition max_is_zero (max : option nat) : bool :=
  match max with Some 0 => true | _ => false end.

Definition max_pred (max : option nat) : option nat :=
  match max with Some m => Some (pred m) | None => None end.

Section Matcher.

Context {R : Type}.

Definition cont : Type := nat -> string -> captures -> option R.

(** The language's RepeatMatcher for an atom with matcher [m] and capture
    names [names], followed by [k].  A turn that is not required and
    consumes nothing fails, so after the required turns there are at most as
    many turns as code units left: [fuel] counts the turns, and no more than
    [min] plus the length of the input can take place. *)
Fixpoint repeat_matcher (m : nat -> string -> captures -> cont -> option R)
    (names : list string) (greedy : bool) (k : cont)
    (fuel min : nat) (max : option nat) (n : nat) (s : string) (caps : captures)
    {struct fuel} : option R :=
  if max_is_zero max then k n s caps
  else match fuel with
       | 0 => k n s caps
       | S fuel' =>
           let d : cont := fun n' s' caps' =>
             if Nat.eqb min 0 && Nat.eqb n' n then None
             else repeat_matcher m names greedy k fuel' (pred min) (max_pred max) n' s' caps' in
           let xr := reset names caps in
           if negb (Nat.eqb min 0) then m n s xr d
           else if negb greedy then
             match k n s caps with
             | Some z => Some z
             | None => m n s xr d
             end
           else
             match m n s xr d with
             | Some z => Some z
             | None => k n s caps
             end
       end.

(** [matcher r n s caps k]: match [r] at index [n], where [s] is left of
    the input, then go on with [k]; [None] is failure. *)
Fixpoint matcher (r : regex) (n : nat) (s : string) (caps : captures) (k : cont) : option R :=
  match r with
  | Empty => k n s caps
  | Chr cs =>
      match s with
      | String c s' => if charset_matches cs c then k (S n) s' caps else None
      | EmptyString => None
      end
  | Seq r1 r2 => matcher r1 n s caps (fun n' s' caps' => matcher r2 n' s' caps' k)
  | Alt r1 r2 =>
      match matcher r1 n s caps k with
      | Some z => Some z
      | None => matcher r2 n s caps k
      end
  | Rep min max greedy r1 =>
      repeat_matcher (matcher r1) (group_names r1) greedy k
        (min + String.length s) min max n s caps
  | Group name r1 =>
      matcher r1 n s caps (fun n' s' caps' => k n' s' ((name, Js.take (n' - n) s) :: caps'))
  | Paren r1 => matcher r1 n s caps k
  | Bol => if Nat.eqb n 0 then k n s caps else None
  | Eol => match s with EmptyString => k n s caps | _ => None end
  end.

End Matcher.

(** A match: where it starts, what it covers, what is left, the groups. *)
Record match_result : Type := mkMatch {
  m_index : nat;
  m_text : string;
  m_rest : string;
  m_groups : captures
}.

Definition match_at (r : regex) (n : nat) (s : string) : option match_result :=
  matcher r n s [] (fun n' s' caps' => Some (mkMatch n (Js.take (n' - n) s) s' caps')).

(** [regex.exec(str)] for a pattern without flags: the first index at which
    the pattern matches. *)
Fixpoint exec_from (r : regex) (n : nat) (s : string) : option match_result :=
  match match_at r n s with
  | Some res => Some res
  | None =>
      match s with
      | EmptyString => None
      | String _ s' => exec_from r (S n) s'
      end
  end.

Definition exec (r : regex) (s : string) : option match_result := exec_from r 0 s.

(** [str.replace(regex, by)] for a pattern without flags and a replacement
    without dollar patterns: the first match is replaced. *)
Definition replace (r : regex) (str by_ : string) : string :=
  match exec r str with
  | Some res => Js.take (m_index res) str ++ by_ ++ m_rest res
  | None => str
  end.

(** [str.replaceAll(regex, by)] for a pattern with the global flag and a
    replacement without dollar patterns: matches are looked for from left to
    right, each after the end of the one before (one code unit further after
    an empty match).  [skip] counts the code units of the current match that
    are still to be passed. *)
Fixpoint replaceAll_from (r : regex) (by_ : string) (skip n : nat) (s : string) : string :=
  match skip with
  | S skip' =>
      match s with
      | EmptyString => EmptyString
      | String _ s' => replaceAll_from r by_ skip' (S n) s'
      end
  | 0 =>
      match match_at r n s with
      | Some res =>
          match s with
          | EmptyString => by_
          | String c s' =>
              match String.length (m_text res) with
              | 0 => by_ ++ String c (replaceAll_from r by_ 0 (S n) s')
              | S len => by_ ++ replaceAll_from r by_ len (S n) s'
              end
          end
      | None =>
          match s with
          | EmptyString => EmptyString
          | String c s' => String c (replaceAll_from r by_ 0 (S n) s')
          end
      end
  end.

Definition replaceAll (r : regex) (str by_ : string) : string :=
  replaceAll_from r by_ 0 0 str.

End RegExp.

(** ** A declarative reading of patterns

    [derives r n w rest c0 c1]: at index [n] the pattern [r] can consume
    the word [w], with [rest] following it in the input, turning the
    captures [c0] into [c1].  Priorities play no part in it. *)

Module RegExpSem.

Import RegExp.

Inductive derives : regex -> nat -> string -> string -> captures -> captures -> Prop :=
| D_Empty n rest c :
    derives Empty n "" rest c c
| D_Chr cs a n rest c :
    charset_matches cs a = true ->
    derives (Chr cs) n (String a "") rest c c
| D_Seq r1 r2 n w1 w2 rest c0 c1 c2 :
    derives r1 n w1 (w2 ++ rest) c0 c1 ->
    derives r2 (n + String.length w1) w2 rest c1 c2 ->
    derives (Seq r1 r2) n (w1 ++ w2) rest c0 c2
| D_AltL r1 r2 n w rest c0 c1 :
    derives r1 n w rest c0 c1 ->
    derives (Alt r1 r2) n w rest c0 c1
| D_AltR r1 r2 n w rest c0 c1 :
    derives r2 n w rest c0 c1 ->
    derives (Alt r1 r2) n w rest c0 c1
| D_RepDone min max greedy r n rest c :
    min = 0 \/ max_is_zero max = true ->
    derives (Rep min max greedy r) n "" rest c c
| D_RepTurn min max greedy r n w1 w2 rest c0 c1 c2 :
    max_is_zero max = false ->
    (min = 0 -> w1 <> "") ->
    derives r n w1 (w2 ++ rest) (reset (group_names r) c0) c1 ->
    derives (Rep (pred min) (max_pred max) greedy r) (n + String.length w1) w2 rest c1 c2 ->
    derives (Rep min max greedy r) n (w1 ++ w2) rest c0 c2
| D_Group name r n w rest c0 c1 :
    derives r n w rest c0 c1 ->
    derives (Group name r) n w rest c0 ((name, w) :: c1)
| D_Paren r n w rest c0 c1 :
    derives r n w rest c0 c1 ->
    derives (Paren r) n w rest c0 c1
| D_Bol rest c :
    derives Bol 0 "" rest c c
| D_Eol n c :
    derives Eol n "" "" c c.

(** Every code unit of [w] is matched by [cs]. *)
Fixpoint all_match (cs : charset) (w : string) : bool :=
  match w with
  | EmptyString => true
  | String a rest => charset_matches cs a && all_match cs rest
  end.

(** The first code unit of [s], if any, is not matched by [cs]. *)
Definition stops (cs : charset) (s : string) : bool :=
  match s with
  | EmptyString => true
  | String a _ => negb (charset_matches cs a)
  end.

Section Loops.

Context {R : Type}.

(** The greedy star of a class followed by [k], by recursion on the input. *)
Fixpoint star_chr (cs : charset) (k : @cont R) (n : nat) (s : string) (caps : captures)
    : option R :=
  match s with
  | String a s' =>
      if charset_matches cs a then
        match star_chr cs k (S n) s' caps with
        | Some z => Some z
        | None => k n s caps
        end
      else k n s caps
  | EmptyString => k n s caps
  end.

(** The lazy star of a class followed by [k]. *)
Fixpoint lazy_star_chr (cs : charset) (k : @cont R) (n : nat) (s : string) (caps : captures)
    : option R :=
  match k n s caps with
  | Some z => Some z
  | None =>
      match s with
      | String a s' => if charset_matches cs a then lazy_star_chr cs k (S n) s' caps else None
      | EmptyString => None
      end
  end.

(** What a success of the matcher of [r] means, for every continuation. *)
Definition sound_for (r : regex) : Prop :=
  forall n s caps (k : @cont R) z,
    matcher r n s caps k = Some z ->
    exists w rest c1,
      s = w ++ rest /\ derives r n w rest caps c1
      /\ k (n + String.length w) rest c1 = Some z.

(** [consumes r n w rest c0 c1]: on [w ++ rest] at index [n], the first
    success of [r] is to consume [w] and leave the captures [c1], whenever
    what follows succeeds there. *)
Definition consumes (r : regex) (n : nat) (w rest : string) (c0 c1 : captures) : Prop :=
  forall (k : @cont R) (z : R),
    k (n + String.length w) rest c1 = Some z ->
    matcher r n (w ++ rest) c0 k = Some z.

(** [r] fails on [s] at index [n], whatever follows. *)
Definition refuses (r : regex) (n : nat) (s : string) (c0 : captures) : Prop :=
  forall k : @cont R, matcher r n s c0 k = None.

End Loops.

End RegExpSem.

(** ** The URL class of the platform

    [new URL(url, base)] and the getters the path module reads, after the
    URL standard's basic parser.  The states that the module's package
    strings reach are written out: the scheme, a path that follows one
    slash, the query, the fragment, and a reference without a scheme read
    against a base.  What this model leaves open is left to the platform:
    special schemes, authorities (hosts), opaque paths, and the percent
    encoding of the code units that some encode set may hold. *)

Module Url.

Inductive url_path : Type :=
| Opaque (p : string)
| Segments (segs : list string).

(** A URL record; the port is kept in its serialized form. *)
Record URL : Type := mkURL {
  scheme : string;
  username : string;
  password : string;
  host : option string;
  port : option string;
  path : url_path;
  query : option string;
  fragment : option string
}.

Inductive encode_set : Type := PathSet | QuerySet | FragmentSet.

Class Platform : Type := {
  (** the parser, for the inputs whose states are not written out here *)
  parse_other : string -> option URL -> option URL;
  (** the percent encoding of a code unit outside [is_plain] *)
  encode_other : encode_set -> ascii -> string
}.

Definition code (c : ascii) : nat := nat_of_ascii c.

Definition is_c0_or_space (c : ascii) : bool := Nat.leb (code c) 32.

Definition is_tab_or_newline (c : ascii) : bool :=
  Ascii.eqb c "009" || Ascii.eqb c "010" || Ascii.eqb c "013".

Definition is_upper (c : ascii) : bool := Nat.leb 65 (code c) && Nat.leb (code c) 90.
Definition is_lower (c : ascii) : bool := Nat.leb 97 (code c) && Nat.leb (code c) 122.
Definition is_alpha (c : ascii) : bool := is_upper c || is_lower c.
Definition is_digit (c : ascii) : bool := Nat.leb 48 (code c) && Nat.leb (code c) 57.
Definition is_alnum (c : ascii) : bool := is_alpha c || is_digit c.

Definition to_lower (c : ascii) : ascii :=
  if is_upper c then ascii_of_nat (code c + 32) else c.

Fixpoint lowercase (s : string) : string :=
  match s with
  | EmptyString => EmptyString
  | String c rest => String (to_lower c) (lowercase rest)
  end.

(** Code units that no encode set holds and that end no state. *)
Definition is_plain (c : ascii) : bool :=
  is_alnum c || Js.contains c "-._~!$&()*+,;=:@".

Fixpoint strip_leading (s : string) : string :=
  match s with
  | String c rest => if is_c0_or_space c then strip_leading rest else s
  | EmptyString => EmptyString
  end.

Fixpoint strip_trailing (s : string) : string :=
  match s with
  | EmptyString => EmptyString
  | String c rest =>
      match strip_trailing rest with
      | EmptyString => if is_c0_or_space c then EmptyString else String c EmptyString
      | t => String c t
      end
  end.

Fixpoint remove_tab_or_newline (s : string) : string :=
  match s with
  | EmptyString => EmptyString
  | String c rest =>
      if is_tab_or_newline c then remove_tab_or_newline rest
      else String c (remove_tab_or_newline rest)
  end.

(** The parser first drops leading and trailing C0 controls and spaces,
    then every tab and newline. *)
Definition preprocess (input : string) : string :=
  remove_tab_or_newline (strip_trailing (strip_leading input)).

Definition is_scheme_char (c : ascii) : bool :=
  is_alnum c || Ascii.eqb c "+" || Ascii.eqb c "-" || Ascii.eqb c ".".

(** Scheme state: the scheme in lower case and what follows the colon, or
    [None] when the input has no scheme. *)
Fixpoint scheme_state (s : string) : option (string * string) :=
  match s with
  | EmptyString => None
  | String c rest =>
      if Ascii.eqb c ":" then Some (EmptyString, rest)
      else if is_scheme_char c then
        match scheme_state rest with
        | Some (sch, after) => Some (String (to_lower c) sch, after)
        | None => None
        end
      else None
  end.

(** Scheme start state. *)
Definition scheme_start_state (s : string) : option (string * string) :=
  match s with
  | String c rest =>
      if is_alpha c then
        match scheme_state rest with
        | Some (sch, after) => Some (String (to_lower c) sch, after)
        | None => None
        end
      else None
  | EmptyString => None
  end.

Definition is_special (sch : string) : bool :=
  existsb (String.eqb sch) ["ftp"; "file"; "http"; "https"; "ws"; "wss"].

Definition is_single_dot (buffer : string) : bool :=
  existsb (String.eqb (lowercase buffer)) ["."; "%2e"].

Definition is_double_dot (buffer : string) : bool :=
  existsb (String.eqb (lowercase buffer)) [".."; ".%2e"; "%2e."; "%2e%2e"].

(** Shorten a path (of a scheme other than file). *)
Definition shorten (segs : list string) : list string := removelast segs.

(** What the path state does with its buffer at a slash ([at_slash]), at a
    question mark, at a number sign or at the end of the input. *)
Definition close_segment (segs : list string) (buffer : string) (at_slash : bool) : list string :=
  if is_double_dot buffer then
    if at_slash then shorten segs else (shorten segs ++ [EmptyString])%list
  else if is_single_dot buffer then
    if at_slash then segs else (segs ++ [EmptyString])%list
  else (segs ++ [buffer])%list.

Section Parser.

Context {P : Platform}.

Definition encode (e : encode_set) (c : ascii) : string :=
  if is_plain c then String c EmptyString else encode_other e c.

(** Fragment state. *)
Fixpoint fragment_state (s : string) : string :=
  match s with
  | EmptyString => EmptyString
  | String c rest => encode FragmentSet c ++ fragment_state rest
  end.

(** Query state (of a scheme that is not special): the query, and the
    fragment when a number sign ends the query. *)
Fixpoint query_state (s : string) : string * option string :=
  match s with
  | EmptyString => (EmptyString, None)
  | String c rest =>
      if Ascii.eqb c "#" then (EmptyString, Some (fragment_state rest))
      else let (q, f) := query_state rest in (encode QuerySet c ++ q, f)
  end.

(** Path state (of a scheme that is not special): the segments, the query
    and the fragment. *)
Fixpoint path_state (segs : list string) (buffer s : string)
    : list string * option string * option string :=
  match s with
  | EmptyString => (close_segment segs buffer false, None, None)
  | String c rest =>
      if Ascii.eqb c "/" then path_state (close_segment segs buffer true) EmptyString rest
      else if Ascii.eqb c "?" then
        let (q, f) := query_state rest in (close_segment segs buffer false, Some q, f)
      else if Ascii.eqb c "#" then
        (close_segment segs buffer false, None, Some (fragment_state rest))
      else path_state segs (buffer ++ encode PathSet c) rest
  end.

(** Relative state (of a base [b] that is not special, with path [bsegs]),
    on the input [s] that has no scheme. *)
Definition relative_state (input : string) (b : URL) (bsegs : list string) (s : string)
    : option URL :=
  let with_base := mkURL (scheme b) (username b) (password b) (host b) (port b) in
  match s with
  | EmptyString => Some (with_base (Segments bsegs) (query b) None)
  | String c rest =>
      if Ascii.eqb c "/" then
        (* relative slash state *)
        if Js.startsWith rest "/" then parse_other input (Some b)
        else
          let '(segs, q, f) := path_state [] EmptyString rest in
          Some (with_base (Segments segs) q f)
      else if Ascii.eqb c "?" then
        let (q, f) := query_state rest in
        Some (with_base (Segments bsegs) (Some q) f)
      else if Ascii.eqb c "#" then
        Some (with_base (Segments bsegs) (query b) (Some (fragment_state rest)))
      else
        let '(segs, q, f) := path_state (shorten bsegs) EmptyString s in
        Some (with_base (Segments segs) q f)
  end.

(** The basic URL parser on [input] with the parsed [base]. *)
Definition basic_parse (input : string) (base : option URL) : option URL :=
  let s := preprocess input in
  match scheme_start_state s with
  | Some (sch, after) =>
      if is_special sch then parse_other input base
      else if Js.startsWith after "//" then parse_other input base
      else
        match after with
        | String c rest =>
            if Ascii.eqb c "/" then
              (* path or authority state, then path state *)
              let '(segs, q, f) := path_state [] EmptyString rest in
              Some (mkURL sch EmptyString EmptyString None None (Segments segs) q f)
            else parse_other input base
        | EmptyString => parse_other input base
        end
  | None =>
      (* no scheme state *)
      match base with
      | None => None
      | Some b =>
          match path b with
          | Opaque _ => if Js.startsWith s "#" then parse_other input base else None
          | Segments bsegs =>
              if is_special (scheme b) then parse_other input base
              else relative_state input b bsegs s
          end
      end
  end.

(** [new URL(url, base)]: a base is parsed first, without a base of its
    own; [None] stands for the TypeError of the constructor. *)
Definition URL_new (url : string) (base : option string) : option URL :=
  match base with
  | None => basic_parse url None
  | Some b =>
      match basic_parse b None with
      | Some parsed_base => basic_parse url (Some parsed_base)
      | None => None
      end
  end.

End Parser.

(** A platform that refuses whatever this model leaves open and encodes
    nothing; it serves to run the model on the inputs that it covers. *)
Definition refusing_platform : Platform :=
  {| parse_other := fun _ _ => None;
     encode_other := fun _ c => String c EmptyString |}.

(** The getters. *)
Definition protocol (u : URL) : string := scheme u ++ ":".

Fixpoint serialize_segments (segs : list string) : string :=
  match segs with
  | [] => EmptyString
  | seg :: rest => "/" ++ seg ++ serialize_segments rest
  end.

Definition pathname (u : URL) : string :=
  match path u with
  | Opaque p => p
  | Segments segs => serialize_segments segs
  end.

Definition serialize_authority (u : URL) : string :=
  match host u with
  | Some h =>
      "//"
      ++ (if String.eqb (username u) "" && String.eqb (password u) "" then ""
          else username u
               ++ (if String.eqb (password u) "" then "" else ":" ++ password u)
               ++ "@")
      ++ h
      ++ match port u with Some p => ":" ++ p | None => "" end
  | None =>
      match path u with
      | Segments (EmptyString :: _ :: _) => "/."
      | _ => ""
      end
  end.

Definition href (u : URL) : string :=
  scheme u ++ ":" ++ serialize_authority u ++ pathname u
  ++ match query u with Some q => "?" ++ q | None => "" end
  ++ match fragment u with Some f => "#" ++ f | None => "" end.

End Url.

(** ** The path module *)

Module Pathman.

Definition sep : string := "/".
Definition sep_char : ascii := "/"%char.

(** *** The patterns of the module *)

Import RegExp.

Notation "r1 ;; r2" := (Seq r1 r2) (at level 61, right associativity).

Definition slash : regex := Chr (Lit "/").

Definition backslash : ascii := "\"%char.

(** The pattern [/\\+/g]. *)
Definition windows_directory_slash_regex : regex := Plus (Chr (Lit backslash)).

(** The pattern [/^\/+/]. *)
Definition leading_slashes_regex : regex := Bol ;; Plus slash.

(** The class [[^\/]]. *)
Definition nonslash : charset := NegSet [CChar "/"].

(** The pattern [/\/?[^\/]+$/]. *)
Definition filename_regex : regex :=
  Opt slash ;; Plus (Chr nonslash) ;; Eol.

(** The pattern [/^(?<basename>.+?)(?<ext>\.[^\.]+)?$/]. *)
Definition basename_and_extname_regex : regex :=
  Bol ;; Group "basename" (LazyPlus (Chr Dot))
      ;; Opt (Group "ext" (Chr (Lit ".") ;; Plus (Chr (NegSet [CChar "."]))))
      ;; Eol.

(** The pattern of package strings, written with blanks between its parts:
    [^ (?<protocol> npm: | jsr: )
       ( \/* ( @ (?<scope> [^\/\s]+ ) \/ )? (?<pkg> [^@\/\s]+ ) ( @ (?<version> [^\/\s]+ ) )? )?
       (?<pathname> \/ .* )? $] *)
Definition package_regex : regex :=
  Bol ;; Group "protocol" (Alt (Str "npm:") (Str "jsr:"))
      ;; Opt (Paren (Star slash
                     ;; Opt (Paren (Chr (Lit "@")
                                    ;; Group "scope" (Plus (Chr (NegSet [CChar "/"; CSpace])))
                                    ;; slash))
                     ;; Group "pkg" (Plus (Chr (NegSet [CChar "@"; CChar "/"; CSpace])))
                     ;; Opt (Paren (Chr (Lit "@")
                                    ;; Group "version" (Plus (Chr (NegSet [CChar "/"; CSpace])))))))
      ;; Opt (Group "pathname" (slash ;; Star (Chr Dot)))
      ;; Eol.

(** *** getUriScheme *)

Inductive UriScheme : Type :=
| undefined | local | relative | file | http | https | data | jsr | npm.

Definition uri_protocol_and_scheme_mapping : list (string * UriScheme) :=
  [ ("npm:", npm); ("jsr:", jsr); ("data:", data); ("http://", http);
    ("https://", https); ("file://", file); ("./", relative); ("../", relative) ].

(** The loop over the mapping, leaving at the first protocol that [path]
    starts with. *)
Fixpoint scan_mapping (mapping : list (string * UriScheme)) (path : string) : option UriScheme :=
  match mapping with
  | [] => None
  | (protocol, scheme) :: rest =>
      if Js.startsWith path protocol then Some scheme else scan_mapping rest path
  end.

Definition getUriScheme (path : string) : UriScheme :=
  if String.eqb path "" then undefined
  else match scan_mapping uri_protocol_and_scheme_mapping path with
       | Some scheme => scheme
       | None => local
       end.

(** *** Slashes *)

Definition trimStartSlashes (str : string) : string :=
  RegExp.replace leading_slashes_regex str "".

Definition pathToUnixPath (path : string) : string :=
  RegExp.replaceAll windows_directory_slash_regex path sep.

(** *** normalizeUnixPath *)

(** One turn of the loop over [segments], on the array [output_segments]. *)
Definition normalize_step (output_segments : list string) (segment : string) : list string :=
  if String.eqb segment ".." then
    if Js.strict_neq (Js.at_last output_segments) ".." then Js.pop output_segments
    else Js.push output_segments segment
  else if negb (String.eqb segment ".") then Js.push output_segments segment
  else output_segments.

Definition normalizeUnixPath (path : string) : string :=
  let segments := Js.split sep_char path in
  let output_segments := fold_left normalize_step segments [".."] in
  Js.join sep (Js.shift output_segments).

(** The algorithm in the words of the specification: a stack, its top at the
    head of the list, seeded with the sentinel [".."]. *)
Definition sentinel_stack_step (stack : list string) (segment : string) : list string :=
  if String.eqb segment "." then stack
  else if String.eqb segment ".." then
    match stack with
    | top :: below => if String.eqb top ".." then segment :: stack else below
    | [] => []
    end
  else segment :: stack.

Definition sentinel_stack_normalize (p : string) : string :=
  let stack := fold_left sentinel_stack_step (Js.split sep_char p) [".."] in
  Js.join "/" (tl (rev stack)).

(** A segment that is neither ["."] nor [".."]. *)
Definition plain_segment (s : string) : Prop := s <> "." /\ s <> "..".

(** The shape of the stack at every turn: a run of [".."] (the sentinel at
    its bottom) under segments that are neither ["."] nor [".."]. *)
Definition stack_shape (st : list string) : Prop :=
  exists k rrest, st = (rrest ++ repeat ".." (S k))%list /\ Forall plain_segment rrest.

Definition normalizePath (path : string) : string :=
  normalizeUnixPath (pathToUnixPath path).

(** *** parsePackageUrl *)

Inductive error : Type :=
| InvalidPackageUrl      (* thrown by parsePackageUrl *)
| UnsupportedBaseScheme  (* thrown by resolveAsUrl on the scheme of its base *)
| InvalidUrl.            (* the TypeError of the URL constructor *)

Inductive result (A : Type) : Type :=
| Ok (a : A)
| Throw (e : error).
Arguments Ok {A} a.
Arguments Throw {A} e.

Definition bind {A B : Type} (x : result A) (f : A -> result B) : result B :=
  match x with
  | Ok a => f a
  | Throw e => Throw e
  end.

Notation "'let*' x ':=' c 'in' k" := (bind c (fun x => k))
  (at level 10, x name, c at level 100, k at level 200).

Record PackagePseudoUrl : Type := mkPackagePseudoUrl {
  href : string;
  protocol : string;
  scope : option string;
  pkg : string;
  version : option string;
  pathname : string;
  host : string
}.

(** [v ? v : undefined]: the empty string counts as absent. *)
Definition truthy (v : option string) : option string :=
  match v with
  | Some EmptyString => None
  | _ => v
  end.

(** [package_regex.exec(url_href)?.groups ?? {}] *)
Definition package_groups (url_href : string) : captures :=
  match RegExp.exec package_regex url_href with
  | Some res => m_groups res
  | None => []
  end.

Definition parsePackageUrl (url_href : string + Url.URL) : result PackagePseudoUrl :=
  let url_href := match url_href with inl str => str | inr url => Url.href url end in
  let groups := package_groups url_href in
  match lookup "protocol" groups, lookup "pkg" groups with
  | Some protocol, Some pkg =>
      let scope := truthy (lookup "scope" groups) in
      let version := truthy (lookup "version" groups) in
      let pathname :=
        match truthy (lookup "pathname" groups) with
        | Some pathname_str => pathname_str
        | None => sep
        end in
      let host :=
        match scope with Some sc => "@" ++ sc ++ sep | None => "" end
        ++ pkg
        ++ match version with Some v => "@" ++ v | None => "" end in
      Ok (mkPackagePseudoUrl (protocol ++ "/" ++ host ++ pathname)
            protocol scope pkg version pathname host)
  | _, _ => Throw InvalidPackageUrl
  end.

(** *** resolveAsUrl *)

Section Resolve.

Context {P : Url.Platform}.

Definition new_URL (url : string) (base : option string) : result Url.URL :=
  match Url.URL_new url base with
  | Some u => Ok u
  | None => Throw InvalidUrl
  end.

Definition scheme_eqb (a b : UriScheme) : bool :=
  match a, b with
  | undefined, undefined | local, local | relative, relative | file, file
  | http, http | https, https | data, data | jsr, jsr | npm, npm => true
  | _, _ => false
  end.

(** The body of resolveAsUrl; [self] stands for the call that it makes on a
    base that is a string.  A base that is a URL object reaches the URL
    constructor through its href. *)
Definition resolveAsUrl_body (self : string -> result Url.URL)
    (path : string) (base : option (string + Url.URL)) : result Url.URL :=
  let path := pathToUnixPath path in
  let* base_url :=
    match base with
    | Some (inl base_str) =>
        let base_scheme := getUriScheme base_str in
        if scheme_eqb base_scheme data || scheme_eqb base_scheme relative
        then Throw UnsupportedBaseScheme
        else let* u := self base_str in Ok (Some u)
    | Some (inr url) => Ok (Some url)
    | None => Ok None
    end in
  let path_scheme := getUriScheme path in
  match path_scheme with
  | local => new_URL ("file://" ++ path) None
  | jsr | npm =>
      let* parsed := parsePackageUrl (inl path) in
      new_URL (href parsed) None
  | relative =>
      match base_url with
      | Some base_url =>
          let base_protocol := Url.protocol base_url in
          let base_is_jsr_or_npm :=
            String.eqb base_protocol "jsr:" || String.eqb base_protocol "npm:" in
          if negb base_is_jsr_or_npm then new_URL path (Some (Url.href base_url))
          else
            let* parsed := parsePackageUrl (inr base_url) in
            let* joined := new_URL path (Some ("x:" ++ pathname parsed)) in
            let full_pathname := Url.pathname joined in
            let href := protocol parsed ++ "/" ++ host parsed ++ full_pathname in
            new_URL href None
      | None => new_URL path None
      end
  | _ => new_URL path None
  end.

(** The call on the base passes no base of its own, so it calls no further. *)
Definition resolveAsUrl_no_base (path : string) : result Url.URL :=
  resolveAsUrl_body (fun _ => Throw InvalidUrl) path None.

Definition resolveAsUrl (path : string) (base : option (string + Url.URL)) : result Url.URL :=
  resolveAsUrl_body resolveAsUrl_no_base path base.

(** What resolveAsUrl does once the base is a URL object or absent. *)
Definition resolve_with (path : string) (base_url : option Url.URL) : result Url.URL :=
  resolveAsUrl_body (fun _ => Throw InvalidUrl) path
    (match base_url with Some u => Some (inr u) | None => None end).

End Resolve.

(** *** Common paths *)

Fixpoint common_prefix_of_two (a b : string) : string :=
  match a, b with
  | String x a', String y b' =>
      if Ascii.eqb x y then String x (common_prefix_of_two a' b') else EmptyString
  | _, _ => EmptyString
  end.

(** Modelled from the spec: commonPrefix of the string module, which is not
    among the sources; the specification has it find the longest common
    character-prefix of all paths. *)
Definition commonPrefix (inputs : list string) : string :=
  match inputs with
  | [] => EmptyString
  | first :: others => fold_left common_prefix_of_two others first
  end.

(** The loop of commonNormalizedUnixPath: [Some] is its early return. *)
Fixpoint common_dir_loop (common_prefix : string) (paths : list string) : option string :=
  match paths with
  | [] => None
  | path :: rest =>
      let remaining_substring := Js.substring path (String.length common_prefix) in
      if negb (Js.startsWith remaining_substring sep) then
        let common_dir_prefix_length := (Js.lastIndexOf common_prefix sep_char + 1)%Z in
        Some (Js.slice0 common_prefix common_dir_prefix_length)
      else common_dir_loop common_prefix rest
  end.

Definition commonNormalizedUnixPath (paths : list string) : string :=
  let common_prefix := commonPrefix paths in
  match common_dir_loop common_prefix paths with
  | Some common_dir_prefix => common_dir_prefix
  | None => common_prefix
  end.

Definition commonPath (paths : list string) : string :=
  commonNormalizedUnixPath (map normalizePath paths).

(** *** parseFilepathInfo *)

Definition parseNormalizedUnixFilename (file_path : string) : string :=
  trimStartSlashes
    match RegExp.exec filename_regex file_path with
    | Some res => m_text res
    | None => ""
    end.

Definition parseBasenameAndExtname_FromFilename (filename : string) : string * string :=
  let groups :=
    match RegExp.exec basename_and_extname_regex filename with
    | Some res => m_groups res
    | None => []
    end in
  (match lookup "basename" groups with Some b => b | None => "" end,
   match lookup "ext" groups with Some e => e | None => "" end).

Record FilepathInfo : Type := mkFilepathInfo {
  fi_path : string;
  fi_dirpath : string;
  fi_dirname : string;
  fi_filename : string;
  fi_basename : string;
  fi_extname : string
}.

Definition parseFilepathInfo (file_path : string) : FilepathInfo :=
  let path := normalizePath file_path in
  let filename := parseNormalizedUnixFilename path in
  let filename_length := String.length filename in
  let dirpath :=
    if Nat.ltb 0 filename_length then Js.slice0 path (- Z.of_nat filename_length) else path in
  let dirname := parseNormalizedUnixFilename (Js.slice0 dirpath (-1)) in
  let (basename, extname) := parseBasenameAndExtname_FromFilename filename in
  mkFilepathInfo path dirpath dirname filename basename extname.

(** *** Trimming, ensuring and joining slashes *)

(** The pattern [/\/+$/]. *)
Definition trailing_slashes_regex : regex := Plus slash ;; Eol.

(** The pattern [/^(\.?\/)+/]. *)
Definition leading_slashes_and_dot_slashes_regex : regex :=
  Bol ;; Plus (Paren (Opt (Chr (Lit ".")) ;; slash)).

Definition dquote : ascii := "034"%char.

Definition quote (str : string) : string :=
  String dquote EmptyString ++ str ++ String dquote EmptyString.

Definition trimEndSlashes (str : string) : string :=
  RegExp.replace trailing_slashes_regex str "".

Definition trimSlashes (str : string) : string :=
  trimEndSlashes (trimStartSlashes str).

Definition ensureStartSlash (str : string) : string :=
  if Js.startsWith str sep then str else sep ++ str.

Definition ensureStartDotSlash (str : string) : string :=
  if Js.startsWith str "./" then str
  else if Js.startsWith str sep then "." ++ str
  else "./" ++ str.

Definition ensureEndSlash (str : string) : string :=
  if Js.endsWithChar str sep_char then str else str ++ sep.

Definition trimDotSlashes (str : string) : string :=
  trimEndSlashes (RegExp.replace leading_slashes_and_dot_slashes_regex str "").

Definition joinSlash (segments : list string) : string :=
  trimStartSlashes
    (fold_left (fun output subpath => output ++ sep ++ subpath)
       (map trimDotSlashes segments) "").

Definition pathsToCliArg (separator : string) (paths : list string) : string :=
  quote (pathToUnixPath (Js.join separator paths)).

(** *** Transforming paths under their common directory *)

Definition commonPathTransform {T : Type}
    (paths : list string)
    (map_fn : string * string -> nat -> list (string * string) -> T) : list T :=
  let normal_paths := map normalizePath paths in
  let common_dir := commonNormalizedUnixPath normal_paths in
  let common_dir_length := String.length common_dir in
  let path_infos :=
    map (fun normal_path => (common_dir, Js.slice_from normal_path common_dir_length))
        normal_paths in
  Js.map_indexed map_fn path_infos.

Definition commonPathReplace (paths : list string) (new_common_dir : string) : list string :=
  let new_common_dir := ensureEndSlash new_common_dir in
  commonPathTransform paths
    (fun '(common_dir, subpath) _ _ => new_common_dir ++ subpath).

End Pathman.

(** ** The parts of a package string

    What the pattern of package strings reads, part by part: the protocol,
    slashes, an optional scope, the package name, an optional version and
    an optional pathname. *)

Module PackageShape.

Import RegExp RegExpSem Pathman.

Definition scope_class : charset := NegSet [CChar "/"; CSpace].
Definition pkg_class : charset := NegSet [CChar "@"; CChar "/"; CSpace].

Definition protocol_part : regex := Group "protocol" (Alt (Str "npm:") (Str "jsr:")).
Definition scope_part : regex :=
  Opt (Paren (Chr (Lit "@") ;; Group "scope" (Plus (Chr scope_class)) ;; slash)).
Definition pkg_part : regex := Group "pkg" (Plus (Chr pkg_class)).
Definition version_part : regex :=
  Opt (Paren (Chr (Lit "@") ;; Group "version" (Plus (Chr scope_class)))).
Definition body : regex := Star slash ;; scope_part ;; pkg_part ;; version_part.
Definition pathname_part : regex := Opt (Group "pathname" (slash ;; Star (Chr Dot))).

Record parts : Type := mkParts {
  p_protocol : string;
  p_slashes : string;
  p_scope : option string;
  p_pkg : string;
  p_version : option string;
  p_pathname : option string
}.

Definition scope_text (sc : option string) : string :=
  match sc with Some x => "@" ++ x ++ "/" | None => "" end.
Definition version_text (v : option string) : string :=
  match v with Some x => "@" ++ x | None => "" end.
Definition pathname_text (p : option string) : string :=
  match p with Some x => x | None => "" end.

(** The string that the parts make up. *)
Definition text (pp : parts) : string :=
  p_protocol pp ++ p_slashes pp ++ scope_text (p_scope pp) ++ p_pkg pp
  ++ version_text (p_version pp) ++ pathname_text (p_pathname pp).

Definition nonempty_of (cs : charset) (w : string) : bool :=
  negb (String.eqb w "") && all_match cs w.

Definition opt_ok (f : string -> bool) (o : option string) : bool :=
  match o with Some x => f x | None => true end.

Definition pathname_ok (p : string) : bool :=
  match p with
  | String a t => Ascii.eqb a "/" && all_match Dot t
  | EmptyString => false
  end.

Definition well_formed (pp : parts) : bool :=
  (String.eqb (p_protocol pp) "npm:" || String.eqb (p_protocol pp) "jsr:")
  && all_match (Lit "/") (p_slashes pp)
  && opt_ok (nonempty_of scope_class) (p_scope pp)
  && nonempty_of pkg_class (p_pkg pp)
  && opt_ok (nonempty_of scope_class) (p_version pp)
  && opt_ok pathname_ok (p_pathname pp).

(** The groups that the pattern leaves for the parts. *)
Definition captured (pp : parts) (groups : captures) : Prop :=
  lookup "protocol" groups = Some (p_protocol pp)
  /\ lookup "scope" groups = p_scope pp
  /\ lookup "pkg" groups = Some (p_pkg pp)
  /\ lookup "version" groups = p_version pp
  /\ lookup "pathname" groups = p_pathname pp.

(** The record that parsePackageUrl makes of the parts. *)
Definition record_of (pp : parts) : PackagePseudoUrl :=
  let pathname := match p_pathname pp with Some x => x | None => "/" end in
  let host := scope_text (p_scope pp) ++ p_pkg pp ++ version_text (p_version pp) in
  mkPackagePseudoUrl (p_protocol pp ++ "/" ++ host ++ pathname)
    (p_protocol pp) (p_scope pp) (p_pkg pp) (p_version pp) pathname host.

(** The parts that the href of the record is made of. *)
Definition canonical (pp : parts) : parts :=
  mkParts (p_protocol pp) "/" (p_scope pp) (p_pkg pp) (p_version pp)
    (Some (match p_pathname pp with Some x => x | None => "/" end)).

(** The first code unit of [s], if any, is not [x]. *)
Definition not_first (x : ascii) (s : string) : Prop :=
  match s with String a _ => Ascii.eqb a x = false | EmptyString => True end.

(** The captures after an optional group [name]. *)
Definition opt_caps (name : string) (o : option string) (c0 : captures) : captures :=
  match o with
  | Some x => (name, x) :: reset [name] c0
  | None => c0
  end.

End PackageShape.

(** ** Shapes of paths

    The strings in which the functions on slashes are described: runs of
    slashes, and the units ["/"] and ["./"] that the pattern of leading
    slashes and dot-slashes repeats. *)

Module PathShape.

(** [k] slashes. *)
Fixpoint slashes (k : nat) : string :=
  match k with
  | 0 => EmptyString
  | S k' => String "/" (slashes k')
  end.

(** Whether [s] begins with ["/"] or with ["./"]. *)
Definition starts_unit (s : string) : bool :=
  Js.startsWith s "/" || Js.startsWith s "./".

(** A unit of the leading pattern. *)
Definition is_unit (u : string) : Prop := u = "/" \/ u = "./".

(** A path with every run of backslashes turned into one slash; [in_run]
    tells that the code unit before was a backslash. *)
Fixpoint collapse (in_run : bool) (s : string) : string :=
  match s with
  | EmptyString => EmptyString
  | String a rest =>
      if Ascii.eqb a "\"
      then (if in_run then collapse true rest else String "/" (collapse true rest))
      else String a (collapse false rest)
  end.

(** What is left of [s] behind its longest prefix made of units. *)
Fixpoint strip_units (s : string) : string :=
  match s with
  | EmptyString => s
  | String a t =>
      if Ascii.eqb a "/" then strip_units t
      else if Ascii.eqb a "." then
        match t with
        | String b t' => if Ascii.eqb b "/" then strip_units t' else s
        | EmptyString => s
        end
      else s
  end.

(** A run of [k] backslashes. *)
Fixpoint backslashes (k : nat) : string :=
  match k with
  | 0 => EmptyString
  | S k' => String "\" (backslashes k')
  end.

End PathShape.

(** * Properties *)

Import Pathman.

Section SplitJoin.

Lemma split_nonempty (c : ascii) (s : string) : Js.split c s <> [].
Proof.
  destruct s as [|a s]; simpl; [discriminate|].
  destruct (Ascii.eqb a c); [discriminate|].
  destruct (Js.split c s); discriminate.
Qed.

Lemma split_no_sep (c : ascii) (s : string) :
  Forall (fun seg => Js.contains c seg = false) (Js.split c s).
Proof.
  induction s as [|a s IH]; simpl.
  - constructor; [reflexivity|constructor].
  - destruct (Ascii.eqb a c) eqn:E.
    + constructor; [reflexivity|exact IH].
    + destruct (Js.split c s) as [|seg segs]; inversion IH; subst;
        constructor; simpl; try rewrite E; auto.
Qed.

Lemma join_split (c : ascii) (s : string) :
  Js.join (String c "") (Js.split c s) = s.
Proof.
  induction s as [|a s IH]; simpl; [reflexivity|].
  destruct (Ascii.eqb a c) eqn:E.
  - apply Ascii.eqb_eq in E; subst a.
    pose proof (split_nonempty c s) as Hne.
    destruct (Js.split c s) as [|seg segs]; [contradiction|].
    simpl in *. rewrite IH. reflexivity.
  - pose proof (split_nonempty c s) as Hne.
    destruct (Js.split c s) as [|seg segs]; [contradiction|].
    destruct segs as [|seg' segs]; simpl in *; rewrite <- IH; reflexivity.
Qed.

Lemma split_app_no_sep (c : ascii) (seg rest : string) :
  Js.contains c seg = false ->
  Js.split c (seg ++ String c rest) = seg :: Js.split c rest.
Proof.
  induction seg as [|a seg IH]; simpl; intros H.
  - rewrite Ascii.eqb_refl. reflexivity.
  - apply orb_false_iff in H as [Ha Hs]. rewrite Ha, (IH Hs). reflexivity.
Qed.

Lemma split_single (c : ascii) (seg : string) :
  Js.contains c seg = false -> Js.split c seg = [seg].
Proof.
  induction seg as [|a seg IH]; simpl; intros H; [reflexivity|].
  apply orb_false_iff in H as [Ha Hs]. rewrite Ha, (IH Hs). reflexivity.
Qed.

Lemma split_join (c : ascii) (l : list string) :
  l <> [] ->
  Forall (fun seg => Js.contains c seg = false) l ->
  Js.split c (Js.join (String c "") l) = l.
Proof.
  induction l as [|x l IH]; intros Hne Hall; [contradiction|].
  inversion Hall as [|? ? Hx Hl]; subst.
  destruct l as [|y l].
  - simpl. apply split_single; assumption.
  - change (Js.join (String c "") (x :: y :: l))
      with (x ++ String c (Js.join (String c "") (y :: l))).
    rewrite split_app_no_sep by assumption.
    rewrite IH; [reflexivity|discriminate|assumption].
Qed.

End SplitJoin.

(** ** The output array of normalizeUnixPath and the sentinel stack *)

Section NormalizeStack.

Lemma at_last_rev (st : list string) :
  Js.at_last (rev st) = match st with [] => None | x :: _ => Some x end.
Proof. unfold Js.at_last. rewrite rev_involutive. reflexivity. Qed.

Lemma normalize_step_rev (st : list string) (seg : string) :
  normalize_step (rev st) seg = rev (sentinel_stack_step st seg).
Proof.
  unfold normalize_step, sentinel_stack_step, Js.push, Js.pop.
  rewrite at_last_rev.
  destruct (String.eqb seg "..") eqn:Edd.
  - apply String.eqb_eq in Edd; subst seg. simpl (String.eqb ".." ".").
    cbv iota. destruct st as [|top below]; [reflexivity|].
    simpl Js.strict_neq. destruct (String.eqb top "..") eqn:Et; simpl negb; cbv iota.
    + reflexivity.
    + simpl rev. apply removelast_last.
  - destruct (String.eqb seg "."); reflexivity.
Qed.

Lemma fold_normalize_rev (segs st : list string) :
  fold_left normalize_step segs (rev st) = rev (fold_left sentinel_stack_step segs st).
Proof.
  revert st. induction segs as [|seg segs IH]; intros st; simpl; [reflexivity|].
  rewrite normalize_step_rev. apply IH.
Qed.

Lemma sentinel_stack_step_shape (st : list string) (seg : string) :
  stack_shape st -> stack_shape (sentinel_stack_step st seg).
Proof.
  intros (k & rrest & -> & Hp). unfold sentinel_stack_step.
  destruct (String.eqb seg ".") eqn:Ed; [exists k, rrest; auto|].
  destruct (String.eqb seg "..") eqn:Edd.
  - apply String.eqb_eq in Edd; subst seg.
    destruct rrest as [|x r]; simpl.
    + exists (S k), []. split; [reflexivity|constructor].
    + inversion Hp as [|? ? [_ Hx] Hr]; subst.
      apply String.eqb_neq in Hx. rewrite Hx. exists k, r. auto.
  - exists k, (seg :: rrest). split; [reflexivity|].
    constructor; [|assumption].
    split; [apply String.eqb_neq, Ed|apply String.eqb_neq, Edd].
Qed.

Lemma fold_sentinel_shape (segs st : list string) :
  stack_shape st -> stack_shape (fold_left sentinel_stack_step segs st).
Proof.
  revert st. induction segs as [|seg segs IH]; intros st H; simpl; [assumption|].
  apply IH, sentinel_stack_step_shape, H.
Qed.

Lemma sentinel_stack_step_forall (P : string -> Prop) (st : list string) (seg : string) :
  Forall P st -> P seg -> Forall P (sentinel_stack_step st seg).
Proof.
  intros Hst Hseg. unfold sentinel_stack_step.
  destruct (String.eqb seg "."); [assumption|].
  destruct (String.eqb seg "..").
  - destruct st as [|top below]; [constructor|].
    inversion Hst; subst. destruct (String.eqb top ".."); auto.
  - constructor; assumption.
Qed.

Lemma fold_sentinel_forall (P : string -> Prop) (segs st : list string) :
  Forall P st -> Forall P segs -> Forall P (fold_left sentinel_stack_step segs st).
Proof.
  revert st. induction segs as [|seg segs IH]; intros st Hst Hsegs; simpl; [assumption|].
  inversion Hsegs; subst. apply IH; [apply sentinel_stack_step_forall|]; assumption.
Qed.

Lemma fold_sentinel_no_sep (segs st : list string) :
  Forall (fun s => Js.contains sep_char s = false) st ->
  Forall (fun s => Js.contains sep_char s = false) segs ->
  Forall (fun s => Js.contains sep_char s = false) (fold_left sentinel_stack_step segs st).
Proof. apply fold_sentinel_forall. Qed.

Lemma rev_repeat_dots (k : nat) : rev (repeat ".." k) = repeat ".." k.
Proof.
  induction k as [|k IH]; [reflexivity|].
  simpl. rewrite IH. symmetry. apply repeat_cons.
Qed.

Lemma fold_sentinel_dotdots (k j : nat) :
  fold_left sentinel_stack_step (repeat ".." k) (repeat ".." (S j)) = repeat ".." (k + S j).
Proof.
  revert j. induction k as [|k IH]; intros j; [reflexivity|].
  change (fold_left sentinel_stack_step (repeat ".." (S k)) (repeat ".." (S j)))
    with (fold_left sentinel_stack_step (repeat ".." k) (repeat ".." (S (S j)))).
  rewrite IH. f_equal. lia.
Qed.

Lemma fold_sentinel_plain (rest st : list string) :
  Forall plain_segment rest ->
  fold_left sentinel_stack_step rest st = (rev rest ++ st)%list.
Proof.
  revert st. induction rest as [|x rest IH]; intros st H; [reflexivity|].
  inversion H as [|? ? [Hd Hdd] Hr]; subst. simpl.
  unfold sentinel_stack_step at 2.
  apply String.eqb_neq in Hd, Hdd. rewrite Hd, Hdd.
  rewrite IH by assumption. rewrite <- app_assoc. reflexivity.
Qed.

(** The array left by the loop, after [shift]. *)
Lemma normalize_output_shape (p : string) :
  exists k rest,
    Js.shift (fold_left normalize_step (Js.split sep_char p) [".."])
      = (repeat ".." k ++ rest)%list
    /\ Forall plain_segment rest
    /\ Forall (fun s => Js.contains sep_char s = false) rest.
Proof.
  change [".."] with (rev [".."]). rewrite fold_normalize_rev.
  assert (Hs : stack_shape (fold_left sentinel_stack_step (Js.split sep_char p) [".."])).
  { apply fold_sentinel_shape. exists 0, []. split; [reflexivity|constructor]. }
  assert (Hn : Forall (fun s => Js.contains sep_char s = false)
                 (fold_left sentinel_stack_step (Js.split sep_char p) [".."])).
  { apply fold_sentinel_no_sep; [repeat constructor|apply split_no_sep]. }
  destruct Hs as (k & rrest & E & Hp). rewrite E in *.
  exists k, (rev rrest).
  rewrite rev_app_distr, rev_repeat_dots. simpl. repeat split.
  - apply Forall_rev, Hp.
  - apply Forall_rev. apply Forall_app in Hn. apply Hn.
Qed.

Lemma repeat_dots_no_sep (k : nat) :
  Forall (fun s => Js.contains sep_char s = false) (repeat ".." k).
Proof. induction k; simpl; constructor; auto. Qed.

Lemma normalize_segments (k : nat) (rest : list string) :
  Forall plain_segment rest ->
  Js.shift (fold_left normalize_step (repeat ".." k ++ rest)%list [".."])
    = (repeat ".." k ++ rest)%list.
Proof.
  intros Hp. change [".."] with (rev [".."]). rewrite fold_normalize_rev.
  rewrite fold_left_app.
  change [".."] with (repeat ".." 1). rewrite fold_sentinel_dotdots.
  rewrite fold_sentinel_plain by assumption.
  rewrite rev_app_distr, rev_involutive, rev_repeat_dots.
  replace (k + 1) with (S k) by lia. reflexivity.
Qed.

Lemma normalizeUnixPath_idempotent (p : string) :
  normalizeUnixPath (normalizeUnixPath p) = normalizeUnixPath p.
Proof.
  unfold normalizeUnixPath at 2 3.
  destruct (normalize_output_shape p) as (k & rest & E & Hp & Hn).
  rewrite E.
  destruct (repeat ".." k ++ rest)%list as [|x l] eqn:El; [reflexivity|].
  unfold normalizeUnixPath.
  rewrite <- El at 1.
  unfold sep. rewrite El. rewrite split_join.
  - rewrite <- El. rewrite normalize_segments by assumption. reflexivity.
  - discriminate.
  - rewrite <- El. apply Forall_app; split; [apply repeat_dots_no_sep|assumption].
Qed.

End NormalizeStack.

(** C1. For every string [p], normalizeUnixPath computes what the
    sentinel-stack algorithm of the specification computes (split on the
    slash, a stack seeded with [".."], ["."] dropped, [".."] popping the
    last segment unless the top is [".."], every other segment pushed, the
    sentinel removed, joined with the slash); and the documented example
    evaluates to ["../helloworld//hello.txt"]. *)
Theorem normalizeUnixPath_sentinel_stack :
  (forall p : string, normalizeUnixPath p = sentinel_stack_normalize p)
  /\ normalizeUnixPath "../helloworld/./temp/../././/hello.txt" = "../helloworld//hello.txt".
Proof.
  split; [|reflexivity].
  intros p. unfold normalizeUnixPath, sentinel_stack_normalize.
  change [".."] with (rev [".."]) at 1. rewrite fold_normalize_rev. reflexivity.
Qed.

(** C10. The segments of normalizeUnixPath's result, split on the slash:
    none is ["."], and they are a run of [".."] followed by segments none of
    which is [".."]. *)
Theorem normalizeUnixPath_output_shape (p : string) :
  ~ In "." (Js.split sep_char (normalizeUnixPath p))
  /\ exists k rest,
       Js.split sep_char (normalizeUnixPath p) = (repeat ".." k ++ rest)%list
       /\ ~ In ".." rest.
Proof.
  assert (H : exists k rest,
             Js.split sep_char (normalizeUnixPath p) = (repeat ".." k ++ rest)%list
             /\ Forall plain_segment rest).
  { unfold normalizeUnixPath.
    destruct (normalize_output_shape p) as (k & rest & E & Hp & Hn). rewrite E.
    destruct (repeat ".." k ++ rest)%list as [|x l] eqn:El.
    - exists 0, [""]. split; [reflexivity|].
      constructor; [split; discriminate|constructor].
    - exists k, rest. split; [|assumption].
      unfold sep. rewrite split_join; [symmetry; assumption|discriminate|].
      rewrite <- El. apply Forall_app; split; [apply repeat_dots_no_sep|assumption]. }
  destruct H as (k & rest & E & Hp). split.
  - rewrite E. intros Hin. apply in_app_or in Hin as [Hin|Hin].
    + apply repeat_spec in Hin. discriminate.
    + rewrite Forall_forall in Hp. apply (proj1 (Hp _ Hin)). reflexivity.
  - exists k, rest. split; [assumption|].
    intros Hin. rewrite Forall_forall in Hp. apply (proj2 (Hp _ Hin)). reflexivity.
Qed.

(** ** getUriScheme *)

Section UriSchemes.

Lemma scan_mapping_first (mapping l1 l2 : list (string * UriScheme))
    (prefix : string) (sch : UriScheme) (p : string) :
  mapping = (l1 ++ (prefix, sch) :: l2)%list ->
  Forall (fun e => Js.startsWith p (fst e) = false) l1 ->
  Js.startsWith p prefix = true ->
  scan_mapping mapping p = Some sch.
Proof.
  intros -> Hl1 Hp. induction l1 as [|[q t] l1 IH]; simpl.
  - rewrite Hp. reflexivity.
  - inversion Hl1 as [|? ? Hq Hrest]; subst. simpl in Hq. rewrite Hq. apply IH, Hrest.
Qed.

Lemma scan_mapping_none (mapping : list (string * UriScheme)) (p : string) :
  Forall (fun e => Js.startsWith p (fst e) = false) mapping ->
  scan_mapping mapping p = None.
Proof.
  induction mapping as [|[q t] l IH]; intros H; simpl; [reflexivity|].
  inversion H as [|? ? Hq Hrest]; subst. simpl in Hq. rewrite Hq. apply IH, Hrest.
Qed.

Lemma getUriScheme_nonempty (p : string) :
  p <> "" ->
  getUriScheme p =
    match scan_mapping uri_protocol_and_scheme_mapping p with
    | Some sch => sch
    | None => local
    end.
Proof.
  intros Hp. unfold getUriScheme.
  destruct (String.eqb p "") eqn:E; [apply String.eqb_eq in E; contradiction|reflexivity].
Qed.

Lemma getUriScheme_relative (p : string) :
  getUriScheme p = relative ->
  Js.startsWith p "./" = true \/ Js.startsWith p "../" = true.
Proof.
  unfold getUriScheme. destruct (String.eqb p ""); [discriminate|].
  unfold uri_protocol_and_scheme_mapping, scan_mapping.
  repeat match goal with
         | |- context [if Js.startsWith p ?q then _ else _] =>
             destruct (Js.startsWith p q) eqn:?; try discriminate; auto
         end.
Qed.

End UriSchemes.

(** C3. getUriScheme is total: it gives [undefined] on the empty string;
    on any other string it gives the scheme of the first entry of the
    ordered list (npm:, jsr:, data:, http://, https://, file://, ./, ../)
    whose prefix the string starts with, and [local] when none is; its
    result is one of the nine schemes. *)
Theorem getUriScheme_total :
  getUriScheme "" = undefined
  /\ map fst uri_protocol_and_scheme_mapping
     = ["npm:"; "jsr:"; "data:"; "http://"; "https://"; "file://"; "./"; "../"]
  /\ (forall (p : string) l1 prefix sch l2,
        p <> "" ->
        uri_protocol_and_scheme_mapping = (l1 ++ (prefix, sch) :: l2)%list ->
        Forall (fun e => Js.startsWith p (fst e) = false) l1 ->
        Js.startsWith p prefix = true ->
        getUriScheme p = sch)
  /\ (forall p : string,
        p <> "" ->
        Forall (fun e => Js.startsWith p (fst e) = false) uri_protocol_and_scheme_mapping ->
        getUriScheme p = local)
  /\ (forall p : string,
        In (getUriScheme p) [undefined; local; relative; file; http; https; data; jsr; npm]).
Proof.
  split; [reflexivity|]. split; [reflexivity|]. split; [|split].
  - intros p l1 prefix sch l2 Hp Hm Hl1 Hpre.
    rewrite getUriScheme_nonempty by assumption.
    rewrite (scan_mapping_first _ l1 l2 prefix sch p Hm Hl1 Hpre). reflexivity.
  - intros p Hp Hall.
    rewrite getUriScheme_nonempty by assumption.
    rewrite scan_mapping_none by assumption. reflexivity.
  - intros p. destruct (getUriScheme p); simpl; tauto.
Qed.

(** The theorem at ["https://google.com/style.css"], whose first matching
    prefix is the fifth of the list. *)
Lemma getUriScheme_total_witness :
  getUriScheme "https://google.com/style.css" = https.
Proof.
  apply (proj1 (proj2 (proj2 getUriScheme_total))
           "https://google.com/style.css"
           [("npm:", npm); ("jsr:", jsr); ("data:", data); ("http://", http)]
           "https://" https
           [("file://", file); ("./", relative); ("../", relative)]).
  - discriminate.
  - reflexivity.
  - repeat constructor.
  - reflexivity.
Defined.

(** ** Strings *)

Section Strings.

Lemma str_app_nil_r (s : string) : s ++ "" = s.
Proof. induction s as [|a s IH]; simpl; [|rewrite IH]; reflexivity. Qed.

Lemma str_app_assoc (a b c : string) : (a ++ b) ++ c = a ++ (b ++ c).
Proof. induction a as [|x a IH]; simpl; [|rewrite IH]; reflexivity. Qed.

Lemma str_length_app (a b : string) :
  String.length (a ++ b) = String.length a + String.length b.
Proof. induction a as [|x a IH]; simpl; [|rewrite IH]; reflexivity. Qed.

Lemma take_app_length (w rest : string) : Js.take (String.length w) (w ++ rest) = w.
Proof. induction w as [|a w IH]; simpl; [destruct rest|rewrite IH]; reflexivity. Qed.

Lemma drop_app_length (w rest : string) : Js.drop (String.length w) (w ++ rest) = rest.
Proof. induction w as [|a w IH]; simpl; [destruct rest; reflexivity|exact IH]. Qed.

Lemma take_all (s : string) : Js.take (String.length s) s = s.
Proof. induction s as [|a s IH]; simpl; [|rewrite IH]; reflexivity. Qed.

Lemma contains_app (c : ascii) (a b : string) :
  Js.contains c (a ++ b) = Js.contains c a || Js.contains c b.
Proof.
  induction a as [|x a IH]; simpl; [reflexivity|].
  rewrite IH. apply orb_assoc.
Qed.

Lemma startsWith_app (p s : string) : Js.startsWith (p ++ s) p = true.
Proof.
  induction p as [|a p IH]; simpl; [destruct s; reflexivity|].
  rewrite Ascii.eqb_refl. exact IH.
Qed.

Lemma startsWith_split (p s : string) :
  Js.startsWith s p = true -> exists t, s = p ++ t.
Proof.
  revert s. induction p as [|a p IH]; intros s H.
  - exists s. reflexivity.
  - destruct s as [|b s]; simpl in H; [discriminate|].
    apply andb_true_iff in H as [Hb Hs]. apply Ascii.eqb_eq in Hb. subst b.
    destruct (IH s Hs) as [t ->]. exists t. reflexivity.
Qed.

End Strings.

(** ** The matcher against the declarative reading *)

Section MatcherSound.

Import RegExp RegExpSem.

Context {R : Type}.

Local Abbreviation sound_for := (@sound_for R).

Lemma reset_nil (caps : captures) : reset [] caps = caps.
Proof.
  unfold reset. induction caps as [|kv caps IH]; simpl; [reflexivity|].
  f_equal. exact IH.
Qed.

Lemma repeat_matcher_sound (r1 : regex) (greedy : bool) (k : @cont R) :
  sound_for r1 ->
  forall fuel min max n s caps z,
    min <= fuel ->
    repeat_matcher (matcher r1) (group_names r1) greedy k fuel min max n s caps = Some z ->
    exists w rest c1,
      s = w ++ rest /\ derives (Rep min max greedy r1) n w rest caps c1
      /\ k (n + String.length w) rest c1 = Some z.
Proof.
  intros Hr1.
  assert (Hdone : forall min max n s caps z,
             min = 0 \/ max_is_zero max = true ->
             k n s caps = Some z ->
             exists w rest c1,
               s = w ++ rest /\ derives (Rep min max greedy r1) n w rest caps c1
               /\ k (n + String.length w) rest c1 = Some z).
  { intros min max n s caps z Hm Hk. exists "", s, caps.
    repeat split; [constructor; assumption|]. simpl. rewrite Nat.add_0_r. assumption. }
  induction fuel as [|fuel IH]; intros min max n s caps z Hfuel H; simpl in H.
  - destruct (max_is_zero max) eqn:Emax; apply Hdone; auto. left. lia.
  - destruct (max_is_zero max) eqn:Emax; [apply Hdone; auto|].
    assert (Hturn :
      matcher r1 n s (reset (group_names r1) caps)
        (fun n' s' caps' =>
           if Nat.eqb min 0 && Nat.eqb n' n then None
           else repeat_matcher (matcher r1) (group_names r1) greedy k fuel
                  (pred min) (max_pred max) n' s' caps') = Some z ->
      exists w rest c1,
        s = w ++ rest /\ derives (Rep min max greedy r1) n w rest caps c1
        /\ k (n + String.length w) rest c1 = Some z).
    { intros Hm. apply Hr1 in Hm as (w1 & rest1 & c1 & -> & Hd1 & Hk1).
      destruct (Nat.eqb min 0 && Nat.eqb (n + String.length w1) n) eqn:Eprog; [discriminate|].
      apply IH in Hk1 as (w2 & rest & c2 & -> & Hd2 & Hk2); [|lia].
      exists (w1 ++ w2), rest, c2. rewrite str_app_assoc. split; [reflexivity|]. split.
      - apply D_RepTurn with (c1 := c1); try assumption.
        intros -> ->. simpl in Eprog. rewrite Nat.add_0_r, Nat.eqb_refl in Eprog. discriminate.
      - rewrite str_length_app, Nat.add_assoc. assumption. }
    destruct (Nat.eqb min 0) eqn:Emin; simpl negb in H; cbv iota in H.
    + apply Nat.eqb_eq in Emin.
      destruct greedy; simpl negb in H; cbv iota in H.
      * match type of H with
        | match ?m with _ => _ end = _ => destruct m eqn:Em
        end.
        -- apply Hturn. exact H.
        -- apply Hdone; auto.
      * destruct (k n s caps) eqn:Ek.
        -- inversion H; subst. apply Hdone; auto.
        -- apply Hturn. exact H.
    + apply Hturn. exact H.
Qed.

Lemma matcher_sound (r : regex) : sound_for r.
Proof.
  induction r as [|cs|r1 IH1 r2 IH2|r1 IH1 r2 IH2|min max greedy r1 IH1|name r1 IH1|r1 IH1| |];
    intros n s caps k z H; simpl in H.
  - exists "", s, caps. repeat split; [constructor|]. simpl. rewrite Nat.add_0_r. assumption.
  - destruct s as [|a s]; [discriminate|].
    destruct (charset_matches cs a) eqn:E; [|discriminate].
    exists (String a ""), s, caps. repeat split; [constructor; assumption|].
    simpl. rewrite Nat.add_1_r. assumption.
  - apply IH1 in H as (w1 & rest1 & c1 & -> & Hd1 & H).
    apply IH2 in H as (w2 & rest & c2 & -> & Hd2 & H).
    exists (w1 ++ w2), rest, c2. rewrite str_app_assoc. repeat split.
    + econstructor; eassumption.
    + rewrite str_length_app, Nat.add_assoc. assumption.
  - destruct (matcher r1 n s caps k) eqn:E1.
    + inversion H; subst. apply IH1 in E1 as (w & rest & c1 & -> & Hd & Hk).
      exists w, rest, c1. repeat split; [apply D_AltL|]; assumption.
    + apply IH2 in H as (w & rest & c1 & -> & Hd & Hk).
      exists w, rest, c1. repeat split; [apply D_AltR|]; assumption.
  - apply (repeat_matcher_sound r1 greedy k IH1) in H; [assumption|lia].
  - apply IH1 in H as (w & rest & c1 & -> & Hd & Hk).
    exists w, rest, ((name, w) :: c1). repeat split; [constructor; assumption|].
    replace (n + String.length w - n) with (String.length w) in Hk by lia.
    rewrite take_app_length in Hk. assumption.
  - apply IH1 in H as (w & rest & c1 & -> & Hd & Hk).
    exists w, rest, c1. repeat split; [constructor|]; assumption.
  - destruct (Nat.eqb n 0) eqn:E; [|discriminate]. apply Nat.eqb_eq in E; subst n.
    exists "", s, caps. repeat split; [constructor|assumption].
  - destruct s; [|discriminate].
    exists "", "", caps. repeat split; [constructor|]. simpl. rewrite Nat.add_0_r. assumption.
Qed.

End MatcherSound.

(** ** Equations of the matcher *)

Section MatcherEquations.

Import RegExp RegExpSem.

Context {R : Type}.

Implicit Types (k : @cont R).

Lemma repeat_matcher_ext (m : nat -> string -> captures -> @cont R -> option R)
    (names : list string) (greedy : bool) k1 k2 :
  (forall n s caps ka kb,
      (forall n' s' c', ka n' s' c' = kb n' s' c') -> m n s caps ka = m n s caps kb) ->
  (forall n' s' c', k1 n' s' c' = k2 n' s' c') ->
  forall fuel min max n s caps,
    repeat_matcher m names greedy k1 fuel min max n s caps
    = repeat_matcher m names greedy k2 fuel min max n s caps.
Proof.
  intros Hm Hk. induction fuel as [|fuel IH]; intros min max n s caps; simpl.
  - rewrite Hk. reflexivity.
  - rewrite Hk.
    rewrite (Hm n s (reset names caps) _
               (fun n' s' caps' =>
                  if Nat.eqb min 0 && Nat.eqb n' n then None
                  else repeat_matcher m names greedy k2 fuel (pred min) (max_pred max)
                         n' s' caps')).
    + reflexivity.
    + intros n' s' c'. rewrite IH. reflexivity.
Qed.

Lemma matcher_ext (r : regex) :
  forall n s caps k1 k2,
    (forall n' s' c', k1 n' s' c' = k2 n' s' c') ->
    matcher r n s caps k1 = matcher r n s caps k2.
Proof.
  induction r as [|cs|r1 IH1 r2 IH2|r1 IH1 r2 IH2|min max greedy r1 IH1|name r1 IH1|r1 IH1| |];
    intros n s caps k1 k2 Hk; simpl.
  - apply Hk.
  - destruct s as [|a s]; [reflexivity|]. rewrite Hk. reflexivity.
  - apply IH1. intros n' s' c'. apply IH2, Hk.
  - rewrite (IH1 n s caps k1 k2 Hk), (IH2 n s caps k1 k2 Hk). reflexivity.
  - apply repeat_matcher_ext; assumption.
  - apply IH1. intros n' s' c'. apply Hk.
  - apply IH1, Hk.
  - rewrite Hk. reflexivity.
  - destruct s; [apply Hk|reflexivity].
Qed.

Lemma repeat_matcher_max_zero (m : nat -> string -> captures -> @cont R -> option R)
    names greedy k fuel min n s caps :
  repeat_matcher m names greedy k fuel min (Some 0) n s caps = k n s caps.
Proof. destruct fuel; reflexivity. Qed.

(** [r?] *)
Lemma matcher_opt (r : regex) n s caps k :
  matcher (Opt r) n s caps k =
    match s with
    | EmptyString => k n s caps
    | String _ _ =>
        match matcher r n s (reset (group_names r) caps)
                (fun n' s' caps' => if Nat.eqb n' n then None else k n' s' caps') with
        | Some z => Some z
        | None => k n s caps
        end
    end.
Proof.
  destruct s as [|a s]; [reflexivity|].
  change (matcher (Opt r) n (String a s) caps k)
    with (match matcher r n (String a s) (reset (group_names r) caps)
                  (fun n' s' caps' =>
                     if Nat.eqb n' n then None
                     else repeat_matcher (matcher r) (group_names r) true k
                            (String.length s) 0 (Some 0) n' s' caps') with
          | Some z => Some z
          | None => k n (String a s) caps
          end).
  erewrite matcher_ext; [reflexivity|].
  intros n' s' c'. cbv beta. rewrite repeat_matcher_max_zero. reflexivity.
Qed.

Lemma succ_neqb (n : nat) : Nat.eqb (S n) n = false.
Proof. apply Nat.eqb_neq. lia. Qed.

Lemma matcher_chr (cs : charset) n s caps k :
  matcher (Chr cs) n s caps k =
    match s with
    | String a s' => if charset_matches cs a then k (S n) s' caps else None
    | EmptyString => None
    end.
Proof. reflexivity. Qed.

Lemma repeat_star_step (m : nat -> string -> captures -> @cont R -> option R)
    names k fuel n s caps :
  repeat_matcher m names true k (S fuel) 0 None n s caps =
    match m n s (reset names caps)
            (fun n' s' caps' =>
               if Nat.eqb n' n then None
               else repeat_matcher m names true k fuel 0 None n' s' caps') with
    | Some z => Some z
    | None => k n s caps
    end.
Proof. reflexivity. Qed.

Lemma repeat_lazy_step (m : nat -> string -> captures -> @cont R -> option R)
    names k fuel n s caps :
  repeat_matcher m names false k (S fuel) 0 None n s caps =
    match k n s caps with
    | Some z => Some z
    | None =>
        m n s (reset names caps)
          (fun n' s' caps' =>
             if Nat.eqb n' n then None
             else repeat_matcher m names false k fuel 0 None n' s' caps')
    end.
Proof. reflexivity. Qed.

Lemma repeat_plus_step (m : nat -> string -> captures -> @cont R -> option R)
    names greedy k fuel n s caps :
  repeat_matcher m names greedy k (S fuel) 1 None n s caps =
    m n s (reset names caps)
      (fun n' s' caps' => repeat_matcher m names greedy k fuel 0 None n' s' caps').
Proof. reflexivity. Qed.

Lemma star_chr_fuel (cs : charset) k :
  forall s fuel n caps,
    String.length s <= fuel ->
    repeat_matcher (matcher (Chr cs)) [] true k fuel 0 None n s caps = star_chr cs k n s caps.
Proof.
  induction s as [|a s IH]; intros fuel n caps Hfuel.
  - destruct fuel; reflexivity.
  - destruct fuel as [|fuel]; [simpl in Hfuel; lia|].
    rewrite repeat_star_step, matcher_chr. cbn [star_chr].
    destruct (charset_matches cs a); [|reflexivity].
    rewrite succ_neqb, reset_nil.
    rewrite IH by (simpl in Hfuel; lia). reflexivity.
Qed.

(** [[cs]*] *)
Lemma matcher_star_chr (cs : charset) n s caps k :
  matcher (Star (Chr cs)) n s caps k = star_chr cs k n s caps.
Proof. apply star_chr_fuel. simpl. lia. Qed.

(** [[cs]+] *)
Lemma matcher_plus_chr (cs : charset) n s caps k :
  matcher (Plus (Chr cs)) n s caps k =
    match s with
    | String a s' => if charset_matches cs a then star_chr cs k (S n) s' caps else None
    | EmptyString => None
    end.
Proof.
  destruct s as [|a s]; [reflexivity|].
  change (matcher (Plus (Chr cs)) n (String a s) caps k)
    with (repeat_matcher (matcher (Chr cs)) [] true k (S (S (String.length s))) 1 None
            n (String a s) caps).
  rewrite repeat_plus_step, matcher_chr.
  destruct (charset_matches cs a); [|reflexivity].
  rewrite reset_nil. apply star_chr_fuel. lia.
Qed.

Lemma lazy_star_chr_fuel (cs : charset) k :
  forall s fuel n caps,
    String.length s <= fuel ->
    repeat_matcher (matcher (Chr cs)) [] false k fuel 0 None n s caps
    = lazy_star_chr cs k n s caps.
Proof.
  induction s as [|a s IH]; intros fuel n caps Hfuel.
  - destruct fuel; simpl; destruct (k n "" caps); reflexivity.
  - destruct fuel as [|fuel]; [simpl in Hfuel; lia|].
    rewrite repeat_lazy_step, matcher_chr. cbn [lazy_star_chr].
    destruct (k n (String a s) caps); [reflexivity|].
    destruct (charset_matches cs a); [|reflexivity].
    rewrite succ_neqb, reset_nil.
    apply IH. simpl in Hfuel. lia.
Qed.

(** [[cs]+?] *)
Lemma matcher_lazy_plus_chr (cs : charset) n s caps k :
  matcher (LazyPlus (Chr cs)) n s caps k =
    match s with
    | String a s' => if charset_matches cs a then lazy_star_chr cs k (S n) s' caps else None
    | EmptyString => None
    end.
Proof.
  destruct s as [|a s]; [reflexivity|].
  change (matcher (LazyPlus (Chr cs)) n (String a s) caps k)
    with (repeat_matcher (matcher (Chr cs)) [] false k (S (S (String.length s))) 1 None
            n (String a s) caps).
  rewrite repeat_plus_step, matcher_chr.
  destruct (charset_matches cs a); [|reflexivity].
  rewrite reset_nil. apply lazy_star_chr_fuel. lia.
Qed.

(** The greedy star takes a whole run when what follows the run succeeds. *)
Lemma star_chr_run (cs : charset) k (w rest : string) n caps z :
  all_match cs w = true ->
  k (n + String.length w) rest caps = Some z ->
  stops cs rest = true ->
  star_chr cs k n (w ++ rest) caps = Some z.
Proof.
  revert n. induction w as [|a w IH]; intros n Hall Hk Hstop.
  - simpl in *. rewrite Nat.add_0_r in Hk.
    destruct rest as [|b rest]; simpl; [assumption|].
    simpl in Hstop. apply negb_true_iff in Hstop. rewrite Hstop. assumption.
  - simpl in Hall. apply andb_true_iff in Hall as [Ha Hw].
    simpl. rewrite Ha. rewrite IH; [reflexivity|assumption| |assumption].
    simpl in Hk. rewrite Nat.add_succ_r in Hk. assumption.
Qed.

(** With a continuation that never fails, the greedy star always succeeds. *)
Lemma star_chr_total (cs : charset) k :
  (forall n s caps, k n s caps <> None) ->
  forall s n caps, star_chr cs k n s caps <> None.
Proof.
  intros Hk. induction s as [|a s IH]; intros n caps; simpl; [apply Hk|].
  destruct (charset_matches cs a); [|apply Hk].
  destruct (star_chr cs k (S n) s caps) eqn:E; [discriminate|].
  exfalso. apply (IH _ _ E).
Qed.

End MatcherEquations.

(** ** pathToUnixPath and normalizePath *)

Section UnixPaths.

Import RegExp RegExpSem.

Lemma star_chr_inv {R : Type} (cs : charset) (k : @cont R) :
  forall s n caps z,
    star_chr cs k n s caps = Some z ->
    exists j, j <= String.length s
              /\ all_match cs (Js.take j s) = true
              /\ k (n + j) (Js.drop j s) caps = Some z.
Proof.
  induction s as [|a s IH]; intros n caps z H; simpl in H.
  - exists 0. rewrite Nat.add_0_r. auto.
  - assert (Hstop : k n (String a s) caps = Some z ->
              exists j, j <= String.length (String a s)
                        /\ all_match cs (Js.take j (String a s)) = true
                        /\ k (n + j) (Js.drop j (String a s)) caps = Some z).
    { intros Hk. exists 0. rewrite Nat.add_0_r. simpl. repeat split; [lia|assumption]. }
    destruct (charset_matches cs a) eqn:Ea; [|auto].
    destruct (star_chr cs k (S n) s caps) eqn:E; [|auto].
    inversion H; subst. apply IH in E as (j & Hj & Hall & Hk).
    exists (S j). simpl. rewrite Ea, Hall. rewrite Nat.add_succ_r. repeat split; [lia|assumption].
Qed.

(** Where the pattern of Windows separators matches: exactly at a
    backslash, and it covers at least that backslash. *)
Lemma windows_match_at (n : nat) (s : string) :
  match s with
  | String a _ =>
      if Ascii.eqb a backslash
      then exists res, match_at windows_directory_slash_regex n s = Some res
                       /\ String.length (m_text res) <> 0
      else match_at windows_directory_slash_regex n s = None
  | EmptyString => match_at windows_directory_slash_regex n s = None
  end.
Proof.
  unfold match_at, windows_directory_slash_regex. rewrite matcher_plus_chr.
  destruct s as [|a s]; [reflexivity|].
  change (charset_matches (Lit backslash) a) with (Ascii.eqb a backslash).
  destruct (Ascii.eqb a backslash) eqn:Ea; [|reflexivity].
  match goal with
  | |- exists res, star_chr ?cs ?k ?n0 ?s0 ?c0 = Some res /\ _ =>
      destruct (star_chr cs k n0 s0 c0) as [res|] eqn:E
  end.
  - apply star_chr_inv in E as (j & Hj & _ & Hk).
    assert (Hres : res = mkMatch n (Js.take (S j) (String a s)) (Js.drop j s) []).
    { replace (S j) with (S n + j - n) by lia. congruence. }
    exists res. split; [reflexivity|]. rewrite Hres. simpl. discriminate.
  - exfalso. revert E. apply star_chr_total. discriminate.
Qed.

Lemma replaceAll_no_backslash (s : string) (n : nat) :
  Js.contains backslash s = false ->
  replaceAll_from windows_directory_slash_regex sep 0 n s = s.
Proof.
  revert n. induction s as [|a s IH]; intros n H.
  - pose proof (windows_match_at n "") as Hm. cbv beta iota in Hm.
    cbn [replaceAll_from]. rewrite Hm. reflexivity.
  - simpl in H. apply orb_false_iff in H as [Ha Hs].
    pose proof (windows_match_at n (String a s)) as Hm. cbv beta iota in Hm.
    rewrite Ha in Hm.
    cbn [replaceAll_from]. rewrite Hm. rewrite IH by assumption. reflexivity.
Qed.

Lemma replaceAll_removes_backslash (s : string) :
  forall skip n,
    Js.contains backslash (replaceAll_from windows_directory_slash_regex sep skip n s) = false.
Proof.
  induction s as [|a s IH]; intros skip n.
  - destruct skip; [|reflexivity].
    pose proof (windows_match_at n "") as Hm. cbv beta iota in Hm.
    cbn [replaceAll_from]. rewrite Hm. reflexivity.
  - destruct skip as [|skip]; [|simpl; apply IH].
    pose proof (windows_match_at n (String a s)) as Hm. cbv beta iota in Hm.
    cbn [replaceAll_from].
    destruct (Ascii.eqb a backslash) eqn:Ea.
    + destruct Hm as (res & -> & Hlen).
      destruct (String.length (m_text res)) as [|len]; [contradiction|].
      simpl. apply IH.
    + rewrite Hm. simpl. rewrite Ea. apply IH.
Qed.

Lemma pathToUnixPath_no_backslash (p : string) :
  Js.contains backslash p = false -> pathToUnixPath p = p.
Proof. apply replaceAll_no_backslash. Qed.

Lemma pathToUnixPath_removes_backslash (p : string) :
  Js.contains backslash (pathToUnixPath p) = false.
Proof. apply replaceAll_removes_backslash. Qed.

Lemma join_keeps_out (c : ascii) (sp : string) (l : list string) :
  Js.contains c sp = false ->
  Forall (fun s => Js.contains c s = false) l ->
  Js.contains c (Js.join sp l) = false.
Proof.
  intros Hsp. induction l as [|x l IH]; intros H; [reflexivity|].
  inversion H as [|? ? Hx Hl]; subst.
  destruct l as [|y l]; [exact Hx|].
  change (Js.join sp (x :: y :: l)) with (x ++ sp ++ Js.join sp (y :: l)).
  rewrite !contains_app, Hx, Hsp, (IH Hl). reflexivity.
Qed.

Lemma split_keeps_out (c sp : ascii) (s : string) :
  Js.contains c s = false ->
  Forall (fun seg => Js.contains c seg = false) (Js.split sp s).
Proof.
  induction s as [|a s IH]; simpl; intros H.
  - repeat constructor.
  - apply orb_false_iff in H as [Ha Hs]. specialize (IH Hs).
    destruct (Ascii.eqb a sp).
    + constructor; [reflexivity|assumption].
    + destruct (Js.split sp s) as [|seg segs]; inversion IH; subst;
        constructor; simpl; try rewrite Ha; auto.
Qed.

Lemma normalizeUnixPath_no_backslash (p : string) :
  Js.contains backslash p = false ->
  Js.contains backslash (normalizeUnixPath p) = false.
Proof.
  intros H. unfold normalizeUnixPath.
  apply join_keeps_out; [reflexivity|].
  change [".."] with (rev [".."]). rewrite fold_normalize_rev.
  assert (Hst : Forall (fun s => Js.contains backslash s = false)
                  (fold_left sentinel_stack_step (Js.split sep_char p) [".."])).
  { apply fold_sentinel_forall; [repeat constructor|apply split_keeps_out, H]. }
  apply Forall_rev in Hst.
  destruct (rev (fold_left sentinel_stack_step (Js.split sep_char p) [".."])) as [|x l];
    [constructor|].
  inversion Hst; assumption.
Qed.

End UnixPaths.

(** C2. normalizePath is idempotent. *)
Theorem normalizePath_idempotent (p : string) :
  normalizePath (normalizePath p) = normalizePath p.
Proof.
  unfold normalizePath.
  rewrite (pathToUnixPath_no_backslash (normalizeUnixPath (pathToUnixPath p))).
  - apply normalizeUnixPath_idempotent.
  - apply normalizeUnixPath_no_backslash, pathToUnixPath_removes_backslash.
Qed.

(** ** Inversion of the declarative reading *)

Section DerivesInversion.

Import RegExp RegExpSem.

Lemma derives_chr_inv cs n w rest c0 c1 :
  derives (Chr cs) n w rest c0 c1 ->
  exists a, w = String a "" /\ charset_matches cs a = true /\ c1 = c0.
Proof. intros H. inversion H; subst. eauto. Qed.

Lemma derives_lit_inv x n w rest c0 c1 :
  derives (Chr (Lit x)) n w rest c0 c1 -> w = String x "" /\ c1 = c0.
Proof.
  intros H. apply derives_chr_inv in H as (a & -> & Ha & ->).
  simpl in Ha. apply Ascii.eqb_eq in Ha. subst. auto.
Qed.

Lemma derives_seq_inv r1 r2 n w rest c0 c2 :
  derives (Seq r1 r2) n w rest c0 c2 ->
  exists w1 w2 c1,
    w = w1 ++ w2 /\ derives r1 n w1 (w2 ++ rest) c0 c1
    /\ derives r2 (n + String.length w1) w2 rest c1 c2.
Proof. intros H. inversion H; subst. eauto 7. Qed.

Lemma derives_alt_inv r1 r2 n w rest c0 c1 :
  derives (Alt r1 r2) n w rest c0 c1 ->
  derives r1 n w rest c0 c1 \/ derives r2 n w rest c0 c1.
Proof. intros H. inversion H; subst; auto. Qed.

Lemma derives_group_inv name r n w rest c0 c :
  derives (Group name r) n w rest c0 c ->
  exists c1, c = (name, w) :: c1 /\ derives r n w rest c0 c1.
Proof. intros H. inversion H; subst. eauto. Qed.

Lemma derives_paren_inv r n w rest c0 c1 :
  derives (Paren r) n w rest c0 c1 -> derives r n w rest c0 c1.
Proof. intros H. inversion H; subst. assumption. Qed.

Lemma derives_bol_inv n w rest c0 c1 :
  derives Bol n w rest c0 c1 -> n = 0 /\ w = "" /\ c1 = c0.
Proof. intros H. inversion H; subst. auto. Qed.

Lemma derives_eol_inv n w rest c0 c1 :
  derives Eol n w rest c0 c1 -> w = "" /\ rest = "" /\ c1 = c0.
Proof. intros H. inversion H; subst. auto. Qed.

Lemma derives_str_inv (t : string) :
  forall n w rest c0 c1, derives (Str t) n w rest c0 c1 -> w = t /\ c1 = c0.
Proof.
  induction t as [|x t IH]; intros n w rest c0 c1 H.
  - inversion H; subst. auto.
  - destruct t as [|y t].
    + apply derives_lit_inv in H. exact H.
    + change (Str (String x (String y t))) with (Seq (Chr (Lit x)) (Str (String y t))) in H.
      apply derives_seq_inv in H as (w1 & w2 & c & -> & H1 & H2).
      apply derives_lit_inv in H1 as [-> ->].
      apply IH in H2 as [-> ->]. auto.
Qed.

Lemma derives_rep_chr cs greedy :
  forall w min n rest c0 c1,
    derives (Rep min None greedy (Chr cs)) n w rest c0 c1 ->
    c1 = c0 /\ all_match cs w = true /\ min <= String.length w.
Proof.
  intros w min n rest c0 c1 H.
  remember (Rep min None greedy (Chr cs)) as r eqn:Er.
  revert min Er.
  induction H; intros min' Er; try discriminate; inversion Er; subst.
  - destruct H as [->|H]; [|discriminate]. auto.
  - apply derives_chr_inv in H1 as (a & -> & Ha & ->).
    destruct (IHderives2 (pred min') eq_refl) as (-> & Hall & Hmin).
    simpl. rewrite Ha, Hall. repeat split; [apply reset_nil|lia].
Qed.

Lemma derives_opt r n w rest c0 c1 :
  derives (Opt r) n w rest c0 c1 ->
  (w = "" /\ c1 = c0) \/ derives r n w rest (reset (group_names r) c0) c1.
Proof.
  intros H. inversion H; subst; [auto|]. right.
  match goal with
  | Hd : derives (Rep _ (max_pred (Some 1)) _ _) _ _ _ _ _ |- _ =>
      inversion Hd; subst; [|discriminate]
  end.
  rewrite str_app_nil_r. assumption.
Qed.

End DerivesInversion.

(** ** What the pattern of package strings accepts *)

Section PackageSound.

Import RegExp RegExpSem PackageShape.

Lemma package_regex_parts :
  package_regex = Bol ;; protocol_part ;; Opt (Paren body) ;; pathname_part ;; Eol.
Proof. reflexivity. Qed.

Lemma nonempty_of_intro cs w :
  all_match cs w = true -> 1 <= String.length w -> nonempty_of cs w = true.
Proof.
  intros Hall Hlen. unfold nonempty_of. rewrite Hall.
  destruct w; [simpl in Hlen; lia|reflexivity].
Qed.

Lemma nonempty_of_elim cs w :
  nonempty_of cs w = true ->
  exists a t, w = String a t /\ charset_matches cs a = true /\ all_match cs t = true.
Proof.
  unfold nonempty_of. destruct w as [|a t]; [discriminate|]. simpl.
  intros H. apply andb_true_iff in H. exists a, t. tauto.
Qed.

Lemma derives_class_group name cs n w rest c0 c1 :
  derives (Group name (Plus (Chr cs))) n w rest c0 c1 ->
  nonempty_of cs w = true /\ c1 = (name, w) :: c0.
Proof.
  intros H. apply derives_group_inv in H as (c & -> & H).
  apply derives_rep_chr in H as (-> & Hall & Hlen).
  split; [apply nonempty_of_intro; assumption|reflexivity].
Qed.

Lemma derives_protocol_part n w rest c0 c1 :
  derives protocol_part n w rest c0 c1 ->
  (w = "npm:" \/ w = "jsr:") /\ c1 = ("protocol", w) :: c0.
Proof.
  intros H. apply derives_group_inv in H as (c & -> & H).
  apply derives_alt_inv in H as [H|H]; apply derives_str_inv in H as [-> ->]; auto.
Qed.

Lemma derives_scope_part n w rest c0 c1 :
  derives scope_part n w rest c0 c1 ->
  exists sc, w = scope_text sc /\ opt_ok (nonempty_of scope_class) sc = true
             /\ c1 = opt_caps "scope" sc c0.
Proof.
  intros H. apply derives_opt in H as [[-> ->]|H].
  - exists None. auto.
  - apply derives_paren_inv, derives_seq_inv in H as (w1 & w2 & c & -> & H1 & H2).
    apply derives_lit_inv in H1 as [-> ->].
    apply derives_seq_inv in H2 as (x & w3 & c & -> & H2 & H3).
    apply derives_class_group in H2 as [Hx ->].
    apply derives_lit_inv in H3 as [-> ->].
    exists (Some x). auto.
Qed.

Lemma derives_version_part n w rest c0 c1 :
  derives version_part n w rest c0 c1 ->
  exists v, w = version_text v /\ opt_ok (nonempty_of scope_class) v = true
            /\ c1 = opt_caps "version" v c0.
Proof.
  intros H. apply derives_opt in H as [[-> ->]|H].
  - exists None. auto.
  - apply derives_paren_inv, derives_seq_inv in H as (w1 & x & c & -> & H1 & H2).
    apply derives_lit_inv in H1 as [-> ->].
    apply derives_class_group in H2 as [Hx ->].
    exists (Some x). auto.
Qed.

Lemma derives_pathname_part n w rest c0 c1 :
  derives pathname_part n w rest c0 c1 ->
  exists p, w = pathname_text p /\ opt_ok pathname_ok p = true
            /\ c1 = opt_caps "pathname" p c0.
Proof.
  intros H. apply derives_opt in H as [[-> ->]|H].
  - exists None. auto.
  - apply derives_group_inv in H as (c & -> & H).
    apply derives_seq_inv in H as (w1 & t & c' & -> & H1 & H2).
    apply derives_lit_inv in H1 as [-> ->].
    apply derives_rep_chr in H2 as (-> & Hall & _).
    exists (Some ("/" ++ t)). repeat split. simpl. exact Hall.
Qed.

Lemma derives_body n w rest c0 c1 :
  derives body n w rest c0 c1 ->
  exists sl sc pk v,
    w = sl ++ scope_text sc ++ pk ++ version_text v
    /\ all_match (Lit "/") sl = true
    /\ opt_ok (nonempty_of scope_class) sc = true
    /\ nonempty_of pkg_class pk = true
    /\ opt_ok (nonempty_of scope_class) v = true
    /\ c1 = opt_caps "version" v (("pkg", pk) :: opt_caps "scope" sc c0).
Proof.
  intros H. apply derives_seq_inv in H as (sl & w1 & c & -> & Hsl & H).
  apply derives_rep_chr in Hsl as (-> & Hsl & _).
  apply derives_seq_inv in H as (w2 & w3 & c & -> & Hsc & H).
  apply derives_scope_part in Hsc as (sc & -> & Hsc & ->).
  apply derives_seq_inv in H as (pk & w4 & c & -> & Hpk & Hv).
  apply derives_class_group in Hpk as [Hpk ->].
  apply derives_version_part in Hv as (v & -> & Hv & ->).
  exists sl, sc, pk, v. auto 7.
Qed.

(** A pattern that begins with the anchor only matches at index 0. *)
Lemma exec_from_bol (r : regex) (s : string) (n : nat) :
  exec_from (Bol ;; r) (S n) s = None.
Proof.
  revert n. induction s as [|a s IH]; intros n; simpl; [reflexivity|apply IH].
Qed.

Lemma exec_bol (r : regex) (s : string) :
  exec (Bol ;; r) s = match_at (Bol ;; r) 0 s.
Proof.
  unfold exec. destruct s as [|a s]; cbn [exec_from];
    destruct (match_at (Bol ;; r) 0 _); try reflexivity.
  apply exec_from_bol.
Qed.

Lemma match_at_sound (r : regex) (n : nat) (s : string) (res : match_result) :
  match_at r n s = Some res ->
  exists w rest c1,
    s = w ++ rest /\ derives r n w rest [] c1 /\ res = mkMatch n w rest c1.
Proof.
  intros H. apply matcher_sound in H as (w & rest & c1 & -> & Hd & Hk).
  exists w, rest, c1. repeat split; [assumption|].
  replace (n + String.length w - n) with (String.length w) in Hk by lia.
  rewrite take_app_length in Hk. congruence.
Qed.

Lemma captured_intro proto sc pk v p :
  captured (mkParts proto "" sc pk v p)
    (opt_caps "pathname" p
       (opt_caps "version" v
          (("pkg", pk)
             :: opt_caps "scope" sc
                  (reset (group_names (Paren body)) [("protocol", proto)])))).
Proof. destruct sc, v, p; repeat split. Qed.

(** A match of the pattern that captures a package name reads the string
    as well-formed parts, which are the groups it captures. *)
Theorem package_regex_sound (s : string) (res : match_result) :
  exec package_regex s = Some res ->
  lookup "pkg" (m_groups res) <> None ->
  exists pp, well_formed pp = true /\ s = text pp /\ captured pp (m_groups res).
Proof.
  rewrite package_regex_parts, exec_bol. intros H Hpkg.
  apply match_at_sound in H as (w & rest & c1 & -> & H & ->).
  apply derives_seq_inv in H as (w0 & w1 & c & -> & Hb & H).
  apply derives_bol_inv in Hb as (_ & -> & ->).
  apply derives_seq_inv in H as (proto & w2 & c & -> & Hproto & H).
  apply derives_protocol_part in Hproto as [Hproto ->].
  apply derives_seq_inv in H as (wb & w3 & c & -> & Hbody & H).
  apply derives_seq_inv in H as (wp & w4 & c' & -> & Hpath & He).
  apply derives_eol_inv in He as (-> & -> & ->).
  apply derives_pathname_part in Hpath as (p & -> & Hp & ->).
  apply derives_opt in Hbody as [[-> ->]|Hbody].
  - exfalso. apply Hpkg. destruct p; reflexivity.
  - apply derives_paren_inv, derives_body in Hbody
      as (sl & sc & pk & v & -> & Hsl & Hsc & Hpk & Hv & ->).
    exists (mkParts proto sl sc pk v p). split; [|split].
    + unfold well_formed. cbn [p_protocol p_slashes p_scope p_pkg p_version p_pathname].
      rewrite Hsl, Hsc, Hpk, Hv, Hp.
      destruct Hproto as [-> | ->]; reflexivity.
    + unfold text. cbn [p_protocol p_slashes p_scope p_pkg p_version p_pathname].
      simpl (""%string ++ _). rewrite !str_app_assoc, !str_app_nil_r. reflexivity.
    + apply (captured_intro proto sc pk v p).
Qed.

End PackageSound.

(** ** First successes of the matcher *)

Section Consumes.

Import RegExp RegExpSem.

Context {R : Type}.

Local Abbreviation consumes := (@consumes R).
Local Abbreviation refuses := (@refuses R).

Lemma consumes_seq r1 r2 n w1 w2 rest c0 c1 c2 :
  consumes r1 n w1 (w2 ++ rest) c0 c1 ->
  consumes r2 (n + String.length w1) w2 rest c1 c2 ->
  consumes (Seq r1 r2) n (w1 ++ w2) rest c0 c2.
Proof.
  intros H1 H2 k z Hk. rewrite str_app_assoc. cbn [matcher].
  apply H1, H2. rewrite str_length_app, Nat.add_assoc in Hk. exact Hk.
Qed.

Lemma consumes_group name r n w rest c0 c1 :
  consumes r n w rest c0 c1 ->
  consumes (Group name r) n w rest c0 ((name, w) :: c1).
Proof.
  intros H k z Hk. cbn [matcher]. apply H.
  replace (n + String.length w - n) with (String.length w) by lia.
  rewrite take_app_length. exact Hk.
Qed.

Lemma consumes_paren r n w rest c0 c1 :
  consumes r n w rest c0 c1 -> consumes (Paren r) n w rest c0 c1.
Proof. intros H k z Hk. cbn [matcher]. apply H, Hk. Qed.

Lemma consumes_lit x n rest c :
  consumes (Chr (Lit x)) n (String x "") rest c c.
Proof.
  intros k z Hk. simpl. rewrite Ascii.eqb_refl.
  simpl in Hk. rewrite Nat.add_1_r in Hk. exact Hk.
Qed.

Lemma consumes_str (t : string) :
  forall n rest c, consumes (Str t) n t rest c c.
Proof.
  induction t as [|x t IH]; intros n rest c.
  - intros k z Hk. simpl in *. rewrite Nat.add_0_r in Hk. exact Hk.
  - destruct t as [|y t]; [apply consumes_lit|].
    change (Str (String x (String y t))) with (Seq (Chr (Lit x)) (Str (String y t))).
    change (String x (String y t)) with (String x "" ++ String y t).
    apply consumes_seq with (c1 := c); [apply consumes_lit|apply IH].
Qed.

Lemma consumes_alt_l r1 r2 n w rest c0 c1 :
  consumes r1 n w rest c0 c1 -> consumes (Alt r1 r2) n w rest c0 c1.
Proof. intros H k z Hk. cbn [matcher]. rewrite (H k z Hk). reflexivity. Qed.

Lemma consumes_alt_r r1 r2 n w rest c0 c1 :
  refuses r1 n (w ++ rest) c0 ->
  consumes r2 n w rest c0 c1 -> consumes (Alt r1 r2) n w rest c0 c1.
Proof. intros H1 H2 k z Hk. cbn [matcher]. rewrite H1. apply H2, Hk. Qed.

Lemma consumes_star_chr cs n w rest c :
  all_match cs w = true -> stops cs rest = true ->
  consumes (Star (Chr cs)) n w rest c c.
Proof.
  intros Hall Hstop k z Hk. rewrite matcher_star_chr.
  apply star_chr_run; assumption.
Qed.

Lemma consumes_plus_chr cs n w rest c :
  PackageShape.nonempty_of cs w = true -> stops cs rest = true ->
  consumes (Plus (Chr cs)) n w rest c c.
Proof.
  intros Hw Hstop k z Hk. rewrite matcher_plus_chr.
  apply nonempty_of_elim in Hw as (a & t & -> & Ha & Ht).
  simpl. rewrite Ha. apply star_chr_run; try assumption.
  simpl in Hk. rewrite Nat.add_succ_r in Hk. exact Hk.
Qed.

Lemma consumes_opt_some r n w rest c0 c1 :
  w <> "" ->
  consumes r n w rest (reset (group_names r) c0) c1 ->
  consumes (Opt r) n w rest c0 c1.
Proof.
  intros Hw H k z Hk. rewrite matcher_opt.
  destruct w as [|a w]; [contradiction|]. cbn [append].
  change (String a (w ++ rest)) with (String a w ++ rest).
  erewrite H; [reflexivity|].
  simpl. rewrite (proj2 (Nat.eqb_neq _ _)) by lia. exact Hk.
Qed.

Lemma consumes_opt_none r n rest c0 :
  refuses r n rest (reset (group_names r) c0) ->
  consumes (Opt r) n "" rest c0 c0.
Proof.
  intros H k z Hk. simpl in Hk. rewrite Nat.add_0_r in Hk.
  simpl append. rewrite matcher_opt.
  destruct rest; [exact Hk|]. rewrite H. exact Hk.
Qed.

Lemma consumes_bol rest c : consumes Bol 0 "" rest c c.
Proof. intros k z Hk. exact Hk. Qed.

Lemma consumes_eol n c : consumes Eol n "" "" c c.
Proof. intros k z Hk. simpl in *. rewrite Nat.add_0_r in Hk. exact Hk. Qed.

(** A literal refuses a string that begins with another code unit. *)
Lemma refuses_lit_seq x r n s c :
  match s with String a _ => Ascii.eqb a x = false | EmptyString => True end ->
  refuses (Paren (Seq (Chr (Lit x)) r)) n s c.
Proof.
  intros H k. destruct s as [|a s]; [reflexivity|]. simpl. rewrite H. reflexivity.
Qed.

End Consumes.

(** ** What the pattern of package strings reads from well-formed parts *)

Section PackageComplete.

Import RegExp RegExpSem PackageShape.

Context {R : Type}.

Local Abbreviation consumes := (@consumes R).
Local Abbreviation refuses := (@refuses R).

Lemma consumes_protocol_part proto n rest c :
  proto = "npm:" \/ proto = "jsr:" ->
  consumes protocol_part n proto rest c (("protocol", proto) :: c).
Proof.
  intros [-> | ->]; apply consumes_group.
  - apply consumes_alt_l, consumes_str.
  - apply consumes_alt_r; [|apply consumes_str]. intros k. reflexivity.
Qed.

Lemma consumes_class_group name cs n w rest c :
  nonempty_of cs w = true -> stops cs rest = true ->
  consumes (Group name (Plus (Chr cs))) n w rest c ((name, w) :: c).
Proof. intros Hw Hstop. apply consumes_group, consumes_plus_chr; assumption. Qed.

Lemma consumes_scope_part sc n rest c0 :
  opt_ok (nonempty_of scope_class) sc = true ->
  (sc = None -> not_first "@" rest) ->
  consumes scope_part n (scope_text sc) rest c0 (opt_caps "scope" sc c0).
Proof.
  intros Hsc Hrest. destruct sc as [x|]; simpl in Hsc.
  - apply consumes_opt_some; [discriminate|]. apply consumes_paren.
    change (scope_text (Some x)) with (String "@" "" ++ (x ++ String "/" "")).
    apply consumes_seq with (c1 := reset ["scope"] c0); [apply consumes_lit|].
    apply consumes_seq with (c1 := ("scope", x) :: reset ["scope"] c0);
      [|apply consumes_lit].
    apply consumes_class_group; [assumption|reflexivity].
  - apply consumes_opt_none, refuses_lit_seq, Hrest. reflexivity.
Qed.

Lemma consumes_version_part v n rest c0 :
  opt_ok (nonempty_of scope_class) v = true ->
  stops scope_class rest = true ->
  not_first "@" rest ->
  consumes version_part n (version_text v) rest c0 (opt_caps "version" v c0).
Proof.
  intros Hv Hstop Hrest. destruct v as [x|]; simpl in Hv.
  - apply consumes_opt_some; [discriminate|]. apply consumes_paren.
    change (version_text (Some x)) with (String "@" "" ++ x).
    apply consumes_seq with (c1 := reset ["version"] c0); [apply consumes_lit|].
    apply consumes_class_group; assumption.
  - apply consumes_opt_none, refuses_lit_seq, Hrest.
Qed.

Lemma consumes_pathname_part p n c0 :
  opt_ok pathname_ok p = true ->
  consumes pathname_part n (pathname_text p) "" c0 (opt_caps "pathname" p c0).
Proof.
  intros Hp. destruct p as [x|]; simpl in Hp.
  - destruct x as [|a t]; [discriminate|].
    apply andb_true_iff in Hp as [Ha Ht]. apply Ascii.eqb_eq in Ha. subst a.
    apply consumes_opt_some; [discriminate|].
    assert (Hin : consumes (slash ;; Star (Chr Dot)) n (String "/" "" ++ t) ""
                    (reset ["pathname"] c0) (reset ["pathname"] c0)).
    { apply consumes_seq with (c1 := reset ["pathname"] c0); [apply consumes_lit|].
      apply consumes_star_chr; [assumption|reflexivity]. }
    exact (consumes_group "pathname" _ _ _ _ _ _ Hin).
  - apply consumes_opt_none. intros k. reflexivity.
Qed.

(** What a pathname, or the end of the input, begins with. *)
Lemma pathname_first p :
  opt_ok pathname_ok p = true ->
  stops scope_class (pathname_text p) = true
  /\ stops pkg_class (pathname_text p) = true
  /\ not_first "@" (pathname_text p).
Proof.
  intros Hp. destruct p as [[|a t]|]; simpl in Hp; try discriminate.
  - apply andb_true_iff in Hp as [Ha _]. apply Ascii.eqb_eq in Ha. subst a.
    repeat split.
  - repeat split.
Qed.

Lemma pkg_first pk rest :
  nonempty_of pkg_class pk = true ->
  stops (Lit "/") (pk ++ rest) = true /\ not_first "@" (pk ++ rest).
Proof.
  intros H. apply nonempty_of_elim in H as (a & t & -> & Ha & _).
  simpl in Ha. apply negb_true_iff, orb_false_iff in Ha as [Hat Ha].
  apply orb_false_iff in Ha as [Hslash _].
  simpl. rewrite Hslash. auto.
Qed.

Lemma consumes_body sl sc pk v rest n c0 :
  all_match (Lit "/") sl = true ->
  opt_ok (nonempty_of scope_class) sc = true ->
  nonempty_of pkg_class pk = true ->
  opt_ok (nonempty_of scope_class) v = true ->
  stops scope_class rest = true ->
  stops pkg_class rest = true ->
  not_first "@" rest ->
  consumes body n (sl ++ scope_text sc ++ pk ++ version_text v) rest c0
    (opt_caps "version" v (("pkg", pk) :: opt_caps "scope" sc c0)).
Proof.
  intros Hsl Hsc Hpk Hv Hp1 Hp2 Hp3.
  destruct (pkg_first pk (version_text v ++ rest) Hpk) as [Hk1 Hk2].
  apply consumes_seq with (c1 := c0).
  - apply consumes_star_chr; [assumption|].
    rewrite !str_app_assoc.
    destruct sc; [reflexivity|exact Hk1].
  - apply consumes_seq with (c1 := opt_caps "scope" sc c0).
    + apply consumes_scope_part; [assumption|].
      intros _. rewrite str_app_assoc. exact Hk2.
    + apply consumes_seq with (c1 := ("pkg", pk) :: opt_caps "scope" sc c0).
      * apply consumes_class_group; [assumption|].
        destruct v; [reflexivity|exact Hp2].
      * apply consumes_version_part; assumption.
Qed.

Lemma consumes_package_regex proto sl sc pk v p :
  well_formed (mkParts proto sl sc pk v p) = true ->
  consumes package_regex 0 (text (mkParts proto sl sc pk v p)) ""
    []
    (opt_caps "pathname" p
       (opt_caps "version" v
          (("pkg", pk)
             :: opt_caps "scope" sc
                  (reset (group_names (Paren body)) [("protocol", proto)])))).
Proof.
  unfold well_formed. cbn [p_protocol p_slashes p_scope p_pkg p_version p_pathname].
  intros H. repeat (apply andb_true_iff in H as [H ?]).
  apply orb_true_iff in H. rewrite !String.eqb_eq in H.
  rewrite package_regex_parts.
  replace (text (mkParts proto sl sc pk v p))
    with ("" ++ proto ++ (sl ++ scope_text sc ++ pk ++ version_text v)
             ++ pathname_text p ++ "").
  2:{ unfold text. cbn [p_protocol p_slashes p_scope p_pkg p_version p_pathname].
      simpl (""%string ++ _). rewrite !str_app_assoc, !str_app_nil_r. reflexivity. }
  destruct (pathname_first p) as (Hp1 & Hp2 & Hp3); [assumption|].
  apply consumes_seq with (c1 := []); [apply consumes_bol|].
  apply consumes_seq with (c1 := [("protocol", proto)]);
    [apply consumes_protocol_part; assumption|].
  eapply consumes_seq.
  - apply consumes_opt_some.
    + apply nonempty_of_elim in H2 as (a & t & -> & _).
      destruct sl, sc; discriminate.
    + apply consumes_paren, consumes_body; rewrite ?str_app_nil_r; assumption.
  - eapply consumes_seq; [apply consumes_pathname_part; assumption|apply consumes_eol].
Qed.

End PackageComplete.

Section PackageParse.

Import RegExp RegExpSem PackageShape.

Lemma match_at_consumes_rest (r : regex) (n : nat) (w rest : string) (c1 : captures) :
  consumes (R := match_result) r n w rest [] c1 ->
  match_at r n (w ++ rest) = Some (mkMatch n w rest c1).
Proof.
  intros H. unfold match_at. apply H.
  replace (n + String.length w - n) with (String.length w) by lia.
  rewrite take_app_length. reflexivity.
Qed.

Lemma match_at_consumes (r : regex) (n : nat) (w : string) (c1 : captures) :
  consumes (R := match_result) r n w "" [] c1 ->
  match_at r n w = Some (mkMatch n w "" c1).
Proof.
  intros H. apply match_at_consumes_rest in H. rewrite str_app_nil_r in H. exact H.
Qed.

(** The pattern reads well-formed parts as themselves. *)
Theorem package_regex_complete (pp : parts) :
  well_formed pp = true ->
  exists res, exec package_regex (text pp) = Some res /\ captured pp (m_groups res).
Proof.
  destruct pp as [proto sl sc pk v p]. intros Hwf.
  pose proof (consumes_package_regex (R := match_result) proto sl sc pk v p Hwf) as Hc.
  apply match_at_consumes in Hc.
  rewrite package_regex_parts, exec_bol, <- package_regex_parts, Hc.
  eexists. split; [reflexivity|].
  apply (captured_intro proto sc pk v p).
Qed.

End PackageParse.

(** ** parsePackageUrl *)

Section ParsePackageUrl.

Import RegExp RegExpSem PackageShape.

Lemma truthy_nonempty cs x :
  nonempty_of cs x = true -> truthy (Some x) = Some x.
Proof. intros H. apply nonempty_of_elim in H as (a & t & -> & _). reflexivity. Qed.

Lemma truthy_opt cs o :
  opt_ok (nonempty_of cs) o = true -> truthy o = o.
Proof. destruct o as [x|]; [apply truthy_nonempty|reflexivity]. Qed.

Lemma truthy_pathname p :
  opt_ok pathname_ok p = true -> truthy p = p.
Proof. destruct p as [[|a t]|]; simpl; try discriminate; reflexivity. Qed.

Lemma parse_from_groups (s : string) (pp : parts) :
  well_formed pp = true ->
  captured pp (package_groups s) ->
  parsePackageUrl (inl s) = Ok (record_of pp).
Proof.
  intros Hwf (Hproto & Hsc & Hpk & Hv & Hp).
  unfold parsePackageUrl. cbv zeta. rewrite Hproto, Hpk, Hsc, Hv, Hp.
  unfold well_formed in Hwf. repeat (apply andb_true_iff in Hwf as [Hwf ?]).
  rewrite (truthy_opt scope_class (p_scope pp)) by assumption.
  rewrite (truthy_opt scope_class (p_version pp)) by assumption.
  rewrite (truthy_pathname (p_pathname pp)) by assumption.
  unfold record_of. destruct pp as [proto sl [sc|] pk [v|] [p|]]; reflexivity.
Qed.

(** parsePackageUrl succeeds exactly on the well-formed package strings. *)
Lemma parse_of_parts (pp : parts) :
  well_formed pp = true -> parsePackageUrl (inl (text pp)) = Ok (record_of pp).
Proof.
  intros Hwf. apply parse_from_groups; [assumption|].
  destruct (package_regex_complete pp Hwf) as (res & E & Hc).
  unfold package_groups. rewrite E. exact Hc.
Qed.

Lemma parse_ok_parts (s : string) (pk : PackagePseudoUrl) :
  parsePackageUrl (inl s) = Ok pk ->
  exists pp, well_formed pp = true /\ s = text pp /\ pk = record_of pp
             /\ captured pp (package_groups s).
Proof.
  intros H.
  assert (Hg : exists res, exec package_regex s = Some res
                           /\ lookup "pkg" (m_groups res) <> None).
  { unfold parsePackageUrl, package_groups in H. cbv zeta in H.
    destruct (exec package_regex s) as [res|]; [|discriminate].
    exists res. split; [reflexivity|].
    destruct (lookup "protocol" (m_groups res)); [|discriminate].
    destruct (lookup "pkg" (m_groups res)); [discriminate|discriminate]. }
  destruct Hg as (res & E & Hpkg).
  destruct (package_regex_sound s res E Hpkg) as (pp & Hwf & Hs & Hc).
  exists pp. split; [assumption|]. split; [assumption|]. split.
  - assert (H' : parsePackageUrl (inl s) = Ok (record_of pp)).
    { apply parse_from_groups; [assumption|]. unfold package_groups. rewrite E. exact Hc. }
    congruence.
  - unfold package_groups. rewrite E. exact Hc.
Qed.

Lemma canonical_well_formed (pp : parts) :
  well_formed pp = true -> well_formed (canonical pp) = true.
Proof.
  destruct pp as [proto sl sc pk v p].
  unfold well_formed, canonical. cbn [p_protocol p_slashes p_scope p_pkg p_version p_pathname].
  intros H. repeat (apply andb_true_iff in H as [H ?]).
  rewrite H, H3, H2, H1. simpl.
  destruct p; [assumption|reflexivity].
Qed.

Lemma href_canonical (pp : parts) : href (record_of pp) = text (canonical pp).
Proof.
  unfold record_of, canonical, text.
  cbn [href p_protocol p_slashes p_scope p_pkg p_version p_pathname pathname_text].
  rewrite !str_app_assoc. reflexivity.
Qed.

Lemma record_of_canonical (pp : parts) : record_of (canonical pp) = record_of pp.
Proof. reflexivity. Qed.

(** Parsing the href of a parsed package string gives the same record. *)
Lemma parsePackageUrl_href (s : string) (pk : PackagePseudoUrl) :
  parsePackageUrl (inl s) = Ok pk -> parsePackageUrl (inl (href pk)) = Ok pk.
Proof.
  intros H. apply parse_ok_parts in H as (pp & Hwf & -> & -> & _).
  rewrite href_canonical, parse_of_parts by (apply canonical_well_formed, Hwf).
  rewrite record_of_canonical. reflexivity.
Qed.

End ParsePackageUrl.

(** ** The URL parser on the href of a package *)

Section PackageHrefUrl.

Import RegExp RegExpSem PackageShape.

Context {P : Url.Platform}.

Lemma strip_trailing_app (a : string) (c : ascii) (b : string) :
  Url.is_c0_or_space c = false ->
  Url.strip_trailing (a ++ String c b) = a ++ String c (Url.strip_trailing b).
Proof.
  intros Hc. induction a as [|x a IH].
  - simpl. rewrite Hc. destruct (Url.strip_trailing b); reflexivity.
  - simpl. rewrite IH. destruct a; reflexivity.
Qed.

Lemma startsWith_two_slashes (h : ascii) (s : string) :
  h <> "/"%char -> Js.startsWith (String "/" (String h s)) "//" = false.
Proof.
  intros Hh. simpl. apply Ascii.eqb_neq in Hh. rewrite Hh. reflexivity.
Qed.

Lemma basic_parse_after_scheme (sch input : string) (h : ascii) (rest : string) :
  Url.scheme_start_state (Url.preprocess input) = Some (sch, String "/" (String h rest)) ->
  Url.is_special sch = false ->
  h <> "/"%char ->
  exists u, Url.basic_parse input None = Some u /\ Url.protocol u = sch ++ ":".
Proof.
  intros Hs Hsp Hh. unfold Url.basic_parse. rewrite Hs. cbv beta iota zeta.
  rewrite Hsp, startsWith_two_slashes by assumption.
  change (Ascii.eqb "/" "/") with true. cbv iota.
  destruct (Url.path_state [] "" (String h rest)) as [[segs q] f].
  eexists. split; reflexivity.
Qed.

(** The parser accepts a package scheme followed by one slash and a code
    unit that is neither a slash nor dropped, with a slash further on. *)
Lemma basic_parse_package_href (proto : string) (h : ascii) (mid tail : string) :
  proto = "npm:" \/ proto = "jsr:" ->
  h <> "/"%char ->
  Url.is_tab_or_newline h = false ->
  exists u,
    Url.basic_parse (proto ++ "/" ++ String h (mid ++ String "/" tail)) None = Some u
    /\ Url.protocol u = proto.
Proof.
  intros Hproto Hh Htab.
  assert (Hstrip : Url.strip_trailing
                     (Url.strip_leading (proto ++ "/" ++ String h (mid ++ String "/" tail)))
                   = proto ++ "/" ++ String h (mid ++ String "/" (Url.strip_trailing tail))).
  { replace (proto ++ "/" ++ String h (mid ++ String "/" tail))
      with ((proto ++ "/" ++ String h mid) ++ String "/" tail)
      by (destruct Hproto as [-> | ->]; simpl; rewrite ?str_app_assoc; reflexivity).
    replace (Url.strip_leading ((proto ++ "/" ++ String h mid) ++ String "/" tail))
      with ((proto ++ "/" ++ String h mid) ++ String "/" tail)
      by (destruct Hproto as [-> | ->]; reflexivity).
    rewrite strip_trailing_app by reflexivity.
    destruct Hproto as [-> | ->]; simpl; rewrite ?str_app_assoc; reflexivity. }
  set (X := mid ++ String "/" (Url.strip_trailing tail)) in *.
  assert (Hpre : Url.preprocess (proto ++ "/" ++ String h (mid ++ String "/" tail))
                 = proto ++ "/" ++ String h (Url.remove_tab_or_newline X)).
  { unfold Url.preprocess. rewrite Hstrip.
    assert (Hh' : Url.remove_tab_or_newline (String h X)
                  = String h (Url.remove_tab_or_newline X)).
    { cbn [Url.remove_tab_or_newline]. rewrite Htab. reflexivity. }
    destruct Hproto as [-> | ->].
    - change (Url.remove_tab_or_newline ("npm:" ++ "/" ++ String h X))
        with ("npm:" ++ "/" ++ Url.remove_tab_or_newline (String h X)).
      rewrite Hh'. reflexivity.
    - change (Url.remove_tab_or_newline ("jsr:" ++ "/" ++ String h X))
        with ("jsr:" ++ "/" ++ Url.remove_tab_or_newline (String h X)).
      rewrite Hh'. reflexivity. }
  destruct Hproto as [-> | ->].
  - apply (basic_parse_after_scheme "npm" _ h (Url.remove_tab_or_newline X));
      [rewrite Hpre; reflexivity|reflexivity|assumption].
  - apply (basic_parse_after_scheme "jsr" _ h (Url.remove_tab_or_newline X));
      [rewrite Hpre; reflexivity|reflexivity|assumption].
Qed.

Lemma href_shape (pp : parts) :
  well_formed pp = true ->
  exists h mid tail,
    href (record_of pp) = p_protocol pp ++ "/" ++ String h (mid ++ String "/" tail)
    /\ h <> "/"%char /\ Url.is_tab_or_newline h = false.
Proof.
  destruct pp as [proto sl sc pk v p]. unfold well_formed, record_of.
  cbn [href p_protocol p_slashes p_scope p_pkg p_version p_pathname].
  intros H. repeat (apply andb_true_iff in H as [H ?]).
  assert (Hp : exists t, match p with Some x => x | None => "/" end = String "/" t).
  { destruct p as [[|a t]|]; simpl in *; try discriminate.
    - apply andb_true_iff in H0 as [Ha _]. apply Ascii.eqb_eq in Ha. subst a. eauto.
    - eauto. }
  destruct Hp as [t ->].
  destruct sc as [x|].
  - exists "@"%char, x, (pk ++ version_text v ++ String "/" t).
    split; [|split; [discriminate|reflexivity]].
    simpl. rewrite ?str_app_assoc. reflexivity.
  - apply nonempty_of_elim in H2 as (a & t0 & -> & Ha & _).
    exists a, (t0 ++ version_text v), t.
    simpl in Ha. apply negb_true_iff, orb_false_iff in Ha as [_ Ha].
    apply orb_false_iff in Ha as [Hslash Ha]. apply orb_false_iff in Ha as [Hws _].
    split; [|split].
    + simpl. rewrite ?str_app_assoc. reflexivity.
    + intros ->. discriminate.
    + unfold is_white_space in Hws. unfold Url.is_tab_or_newline.
      repeat (apply orb_false_iff in Hws as [Hws ?]).
      repeat (apply orb_false_iff; split); assumption.
Qed.

(** The href of a parsed package string is accepted by the URL constructor,
    and the URL has the protocol of the package. *)
Lemma href_parseable (s : string) (pk : PackagePseudoUrl) :
  parsePackageUrl (inl s) = Ok pk ->
  exists u, Url.URL_new (href pk) None = Some u /\ Url.protocol u = protocol pk.
Proof.
  intros H. apply parse_ok_parts in H as (pp & Hwf & -> & -> & _).
  destruct (href_shape pp Hwf) as (h & mid & tail & E & Hh & Htab).
  unfold Url.URL_new. rewrite E.
  apply basic_parse_package_href; try assumption.
  unfold well_formed in Hwf. repeat (apply andb_true_iff in Hwf as [Hwf ?]).
  apply orb_true_iff in Hwf. rewrite !String.eqb_eq in Hwf. exact Hwf.
Qed.

End PackageHrefUrl.

(** C4. parsePackageUrl raises an error exactly when the pattern captures
    no protocol or no package name; it raises on
    ["pnpm:@scope/package@version"]; a parse that succeeds raises nothing;
    and it succeeds exactly on the strings made of a protocol (npm: or
    jsr:), slashes, an optional scope, a package name, an optional version
    and an optional pathname. *)
Theorem parsePackageUrl_raises :
  (forall s : string,
      (exists e, parsePackageUrl (inl s) = Throw e)
      <-> (RegExp.lookup "protocol" (package_groups s) = None
           \/ RegExp.lookup "pkg" (package_groups s) = None))
  /\ parsePackageUrl (inl "pnpm:@scope/package@version") = Throw InvalidPackageUrl
  /\ (forall (s : string) (pk : PackagePseudoUrl),
         parsePackageUrl (inl s) = Ok pk -> forall e, parsePackageUrl (inl s) <> Throw e)
  /\ (forall s : string,
         (exists pk, parsePackageUrl (inl s) = Ok pk)
         <-> (exists pp, PackageShape.well_formed pp = true /\ s = PackageShape.text pp)).
Proof.
  split; [|split; [reflexivity|split]].
  - intros s. unfold parsePackageUrl. cbv zeta.
    destruct (RegExp.lookup "protocol" (package_groups s)) as [proto|];
      destruct (RegExp.lookup "pkg" (package_groups s)) as [pk|]; split;
      try (intros [e He]; discriminate);
      try (intros [H|H]; discriminate);
      try (intros _; eexists; reflexivity); auto.
  - intros s pk H e. rewrite H. discriminate.
  - intros s. split.
    + intros [pk H]. apply parse_ok_parts in H as (pp & Hwf & Hs & _). eauto.
    + intros (pp & Hwf & ->). eexists. apply parse_of_parts, Hwf.
Qed.

(** The theorem at ["npm:package"], which parses. *)
Lemma parsePackageUrl_raises_witness :
  parsePackageUrl (inl "npm:package") <> Throw InvalidPackageUrl.
Proof.
  eapply (proj1 (proj2 (proj2 parsePackageUrl_raises)) "npm:package").
  reflexivity.
Defined.

(** C5. For every string that parsePackageUrl parses, the href of the
    result is accepted by the URL constructor; parsing that href again
    yields the same scope, package name, version and pathname; and a
    pathname that the pattern did not capture, or captured empty, becomes
    ["/"]. *)
Theorem parsePackageUrl_round_trip {P : Url.Platform} (s : string) (pk : PackagePseudoUrl) :
  parsePackageUrl (inl s) = Ok pk ->
  (exists u, Url.URL_new (href pk) None = Some u)
  /\ (exists pk',
         parsePackageUrl (inl (href pk)) = Ok pk'
         /\ scope pk' = scope pk /\ pkg pk' = pkg pk
         /\ version pk' = version pk /\ pathname pk' = pathname pk)
  /\ (truthy (RegExp.lookup "pathname" (package_groups s)) = None -> pathname pk = "/").
Proof.
  intros H. split; [|split].
  - destruct (href_parseable s pk H) as (u & Hu & _). eauto.
  - exists pk. rewrite (parsePackageUrl_href s pk H). auto.
  - intros Hp. unfold parsePackageUrl in H. cbv zeta in H.
    destruct (RegExp.lookup "protocol" (package_groups s)); [|discriminate].
    destruct (RegExp.lookup "pkg" (package_groups s)); [|discriminate].
    rewrite Hp in H. injection H as <-. reflexivity.
Qed.

(** The theorem at ["npm:///@scope/package@version"]. *)
Lemma parsePackageUrl_round_trip_witness :
  (exists u, Url.URL_new (P := Url.refusing_platform) "npm:/@scope/package@version/" None
             = Some u)
  /\ (exists pk',
         parsePackageUrl (inl "npm:/@scope/package@version/") = Ok pk'
         /\ scope pk' = Some "scope" /\ pkg pk' = "package"
         /\ version pk' = Some "version" /\ pathname pk' = "/")
  /\ (truthy (RegExp.lookup "pathname" (package_groups "npm:///@scope/package@version")) = None
      -> "/" = "/").
Proof.
  exact (parsePackageUrl_round_trip (P := Url.refusing_platform)
           "npm:///@scope/package@version"
           (mkPackagePseudoUrl "npm:/@scope/package@version/" "npm:" (Some "scope")
              "package" (Some "version") "/" "@scope/package@version")
           eq_refl).
Defined.

(** ** Common paths *)

Section CommonPaths.

Lemma startsWith_refl (s : string) : Js.startsWith s s = true.
Proof. induction s as [|a s IH]; simpl; [|rewrite Ascii.eqb_refl]; auto. Qed.

Lemma startsWith_nil (s : string) : Js.startsWith s "" = true.
Proof. destruct s; reflexivity. Qed.

Lemma startsWith_trans (a b c : string) :
  Js.startsWith a b = true -> Js.startsWith b c = true -> Js.startsWith a c = true.
Proof.
  intros Hab Hbc. apply startsWith_split in Hab as [t ->].
  apply startsWith_split in Hbc as [u ->].
  rewrite str_app_assoc. apply startsWith_app.
Qed.

Lemma startsWith_length (s p : string) :
  Js.startsWith s p = true -> String.length p <= String.length s.
Proof.
  intros H. apply startsWith_split in H as [t ->]. rewrite str_length_app. lia.
Qed.

Lemma startsWith_take (k : nat) (s : string) : Js.startsWith s (Js.take k s) = true.
Proof.
  revert s. induction k as [|k IH]; intros [|a s]; simpl; try reflexivity.
  rewrite Ascii.eqb_refl. apply IH.
Qed.

Lemma common_prefix_of_two_l (a b : string) :
  Js.startsWith a (common_prefix_of_two a b) = true.
Proof.
  revert b. induction a as [|x a IH]; intros [|y b]; simpl; try reflexivity.
  destruct (Ascii.eqb x y); simpl; [|reflexivity].
  rewrite Ascii.eqb_refl. apply IH.
Qed.

Lemma common_prefix_of_two_r (a b : string) :
  Js.startsWith b (common_prefix_of_two a b) = true.
Proof.
  revert b. induction a as [|x a IH]; intros [|y b]; simpl; try reflexivity.
  destruct (Ascii.eqb x y) eqn:E; simpl; [|reflexivity].
  rewrite Ascii.eqb_sym, E. apply IH.
Qed.

Lemma common_prefix_of_two_greatest (a b q : string) :
  Js.startsWith a q = true -> Js.startsWith b q = true ->
  Js.startsWith (common_prefix_of_two a b) q = true.
Proof.
  revert a b. induction q as [|z q IH]; intros a b Ha Hb; [apply startsWith_nil|].
  destruct a as [|x a]; [discriminate|]. destruct b as [|y b]; [discriminate|].
  simpl in Ha, Hb. apply andb_true_iff in Ha as [Hx Ha], Hb as [Hy Hb].
  apply Ascii.eqb_eq in Hx, Hy. subst x y.
  simpl. rewrite !Ascii.eqb_refl. simpl. rewrite Ascii.eqb_refl. apply IH; assumption.
Qed.

Lemma fold_common_prefix_acc (rest : list string) (acc : string) :
  Js.startsWith acc (fold_left common_prefix_of_two rest acc) = true.
Proof.
  revert acc. induction rest as [|x rest IH]; intros acc; simpl; [apply startsWith_refl|].
  eapply startsWith_trans; [apply common_prefix_of_two_l|apply IH].
Qed.

Lemma fold_common_prefix_each (rest : list string) (acc p : string) :
  In p rest -> Js.startsWith p (fold_left common_prefix_of_two rest acc) = true.
Proof.
  revert acc. induction rest as [|x rest IH]; intros acc H; [contradiction|].
  destruct H as [->|H]; simpl; [|apply IH, H].
  eapply startsWith_trans; [apply common_prefix_of_two_r|apply fold_common_prefix_acc].
Qed.

Lemma fold_common_prefix_greatest (rest : list string) (acc q : string) :
  Js.startsWith acc q = true ->
  (forall p, In p rest -> Js.startsWith p q = true) ->
  Js.startsWith (fold_left common_prefix_of_two rest acc) q = true.
Proof.
  revert acc. induction rest as [|x rest IH]; intros acc Hacc H; simpl; [assumption|].
  apply IH.
  - apply common_prefix_of_two_greatest; [assumption|]. apply H. left. reflexivity.
  - intros p Hp. apply H. right. assumption.
Qed.

(** commonPrefix gives a common prefix, and the longest one. *)
Lemma commonPrefix_each (paths : list string) (p : string) :
  In p paths -> Js.startsWith p (commonPrefix paths) = true.
Proof.
  destruct paths as [|x rest]; [contradiction|]. intros [->|H]; simpl.
  - apply fold_common_prefix_acc.
  - apply fold_common_prefix_each, H.
Qed.

Lemma commonPrefix_greatest (paths : list string) (q : string) :
  paths <> [] ->
  (forall p, In p paths -> Js.startsWith p q = true) ->
  Js.startsWith (commonPrefix paths) q = true.
Proof.
  destruct paths as [|x rest]; [contradiction|]. intros _ H. simpl.
  apply fold_common_prefix_greatest.
  - apply H. left. reflexivity.
  - intros p Hp. apply H. right. assumption.
Qed.

End CommonPaths.

Section CommonDirectory.

Open Scope Z_scope.

Lemma endsWithChar_cons (a c : ascii) (t : string) :
  t <> ""%string -> Js.endsWithChar (String a t) c = Js.endsWithChar t c.
Proof. destruct t; [contradiction|reflexivity]. Qed.

(** Where [lastIndexOf] points: the prefix up to it is empty or ends with
    the code unit, which does not occur after it. *)
Lemma lastIndexOf_spec (c : ascii) (s : string) :
  let i := Js.lastIndexOf s c in
  let k := Z.to_nat (i + 1) in
  -1 <= i < Z.of_nat (String.length s)
  /\ (0 <= i -> Js.take k s <> ""%string /\ Js.endsWithChar (Js.take k s) c = true)
  /\ Js.contains c (Js.drop k s) = false.
Proof.
  induction s as [|a s IH]; cbn zeta.
  - simpl. repeat split; try lia.
  - cbn zeta in IH. destruct IH as (Hb & Hends & Hdrop).
    cbn [Js.lastIndexOf String.length].
    destruct (Js.lastIndexOf s c <? 0) eqn:Eneg.
    + apply Z.ltb_lt in Eneg.
      assert (Ei : Js.lastIndexOf s c = -1) by lia.
      rewrite Ei in Hdrop. simpl in Hdrop.
      destruct (Ascii.eqb a c) eqn:Ea.
      * simpl. rewrite Ea. repeat split; try lia; try discriminate. exact Hdrop.
      * simpl. rewrite Ea, Hdrop. repeat split; try lia.
    + apply Z.ltb_ge in Eneg. destruct (Hends Eneg) as [Hne He].
      replace (Z.to_nat (Js.lastIndexOf s c + 1 + 1))
        with (S (Z.to_nat (Js.lastIndexOf s c + 1))) by lia.
      cbn [Js.take Js.drop]. repeat split; try lia.
      * discriminate.
      * rewrite endsWithChar_cons by assumption. exact He.
      * exact Hdrop.
Qed.

Lemma slice0_dir (cp : string) :
  Js.slice0 cp (Js.lastIndexOf cp sep_char + 1)
  = Js.take (Z.to_nat (Js.lastIndexOf cp sep_char + 1)) cp.
Proof.
  pose proof (lastIndexOf_spec sep_char cp) as (Hb & _). cbn zeta in Hb.
  unfold Js.slice0. cbv zeta.
  destruct (Js.lastIndexOf cp sep_char + 1 <? 0) eqn:E; [apply Z.ltb_lt in E; lia|].
  rewrite Z.min_l by lia. reflexivity.
Qed.

Close Scope Z_scope.

Lemma endsWithChar_split (q : string) (c : ascii) :
  Js.endsWithChar q c = true -> exists q', q = q' ++ String c "".
Proof.
  induction q as [|a q IH]; intros H; [discriminate|].
  destruct q as [|b q].
  - simpl in H. apply Ascii.eqb_eq in H. subst a. exists "". reflexivity.
  - destruct (IH H) as [q' ->]. exists (String a q'). reflexivity.
Qed.

Lemma contains_drop_app (c : ascii) (k : nat) (q' r : string) :
  k <= String.length q' -> Js.contains c (Js.drop k (q' ++ String c r)) = true.
Proof.
  revert q'. induction k as [|k IH]; intros q' H.
  - replace (Js.drop 0 (q' ++ String c r)) with (q' ++ String c r) by (destruct q'; reflexivity).
    rewrite contains_app. simpl. rewrite Ascii.eqb_refl. apply orb_true_r.
  - destruct q' as [|a q']; [simpl in H; lia|]. simpl. apply IH. simpl in H. lia.
Qed.

Lemma take_startsWith (k : nat) (s q : string) :
  Js.startsWith s q = true -> String.length q <= k -> Js.startsWith (Js.take k s) q = true.
Proof.
  revert s q. induction k as [|k IH]; intros s q Hs Hk.
  - destruct q; [apply startsWith_nil|simpl in Hk; lia].
  - destruct q as [|b q]; [apply startsWith_nil|].
    destruct s as [|a s]; [discriminate|].
    simpl in Hs. apply andb_true_iff in Hs as [Hab Hs].
    simpl. rewrite Hab. apply IH; [assumption|simpl in Hk; lia].
Qed.

(** The loop returns early on the paths whose common prefix is [commonPrefix]. *)
Lemma common_dir_loop_none (cp : string) (paths : list string) :
  common_dir_loop cp paths = None ->
  forall p, In p paths -> Js.startsWith (Js.substring p (String.length cp)) sep = true.
Proof.
  induction paths as [|x rest IH]; intros H p Hp; [contradiction|].
  simpl in H.
  destruct (Js.startsWith (Js.substring x (String.length cp)) sep) eqn:E;
    [|discriminate].
  destruct Hp as [->|Hp]; [exact E|apply IH; assumption].
Qed.

Lemma common_dir_loop_some (cp : string) (paths : list string) (d : string) :
  common_dir_loop cp paths = Some d ->
  d = Js.slice0 cp (Js.lastIndexOf cp sep_char + 1)%Z.
Proof.
  induction paths as [|x rest IH]; intros H; [discriminate|].
  simpl in H.
  destruct (Js.startsWith (Js.substring x (String.length cp)) sep); simpl in H.
  - apply IH, H.
  - congruence.
Qed.

Lemma common_dir_loop_returns (paths : list string) :
  paths <> [] -> common_dir_loop (commonPrefix paths) paths <> None.
Proof.
  intros Hne Hnone.
  pose proof (common_dir_loop_none _ _ Hnone) as Hall.
  assert (Hgt : Js.startsWith (commonPrefix paths) (commonPrefix paths ++ sep) = true).
  { apply commonPrefix_greatest; [assumption|].
    intros p Hp. specialize (Hall p Hp).
    pose proof (commonPrefix_each paths p Hp) as Hpre.
    apply startsWith_split in Hpre as [t Ht]. rewrite Ht in Hall |- *.
    unfold Js.substring in Hall. rewrite drop_app_length in Hall.
    apply startsWith_split in Hall as [u ->].
    rewrite <- str_app_assoc. apply startsWith_app. }
  apply startsWith_length in Hgt. rewrite str_length_app in Hgt. simpl in Hgt. lia.
Qed.

Lemma commonNormalizedUnixPath_trim (paths : list string) :
  commonNormalizedUnixPath paths
  = Js.slice0 (commonPrefix paths) (Js.lastIndexOf (commonPrefix paths) sep_char + 1)%Z.
Proof.
  unfold commonNormalizedUnixPath. cbv zeta.
  destruct (common_dir_loop (commonPrefix paths) paths) as [d|] eqn:E.
  - apply common_dir_loop_some in E. exact E.
  - destruct paths as [|x rest]; [reflexivity|].
    exfalso. revert E. apply common_dir_loop_returns. discriminate.
Qed.

End CommonDirectory.

(** C8. commonNormalizedUnixPath gives the longest common prefix of the
    paths cut after its last slash; the result is empty or ends with a
    slash, it is a prefix of every path, and among the common prefixes of a
    non-empty list that are empty or end with a slash it is the longest;
    and commonPath of the two documented paths is ["C:/Hello/"]. *)
Theorem commonNormalizedUnixPath_directory :
  (forall paths : list string,
      commonNormalizedUnixPath paths
      = Js.slice0 (commonPrefix paths) (Js.lastIndexOf (commonPrefix paths) sep_char + 1)%Z
      /\ (commonNormalizedUnixPath paths = ""
          \/ Js.endsWithChar (commonNormalizedUnixPath paths) sep_char = true)
      /\ (forall p, In p paths -> Js.startsWith p (commonNormalizedUnixPath paths) = true)
      /\ (forall q,
             paths <> [] ->
             (forall p, In p paths -> Js.startsWith p q = true) ->
             q = "" \/ Js.endsWithChar q sep_char = true ->
             Js.startsWith (commonNormalizedUnixPath paths) q = true))
  /\ commonPath ["C:/Hello/World/This/Is/An/Example/Bla.cs"; "C:/Hello/Earth/Bla/Bla/Bla"]
     = "C:/Hello/".
Proof.
  split; [|reflexivity].
  intros paths. rewrite commonNormalizedUnixPath_trim, slice0_dir.
  pose proof (lastIndexOf_spec sep_char (commonPrefix paths)) as (Hb & Hends & Hdrop).
  cbn zeta in Hb, Hends, Hdrop.
  set (cp := commonPrefix paths) in *.
  set (k := Z.to_nat (Js.lastIndexOf cp sep_char + 1)) in *.
  split; [reflexivity|]. split; [|split].
  - destruct (Z_lt_ge_dec (Js.lastIndexOf cp sep_char) 0) as [Hneg|Hpos].
    + left. replace k with 0 by (unfold k; lia). destruct cp; reflexivity.
    + right. apply Hends. lia.
  - intros p Hp. eapply startsWith_trans; [apply commonPrefix_each, Hp|].
    apply startsWith_take.
  - intros q Hne Hq Hshape.
    destruct Hshape as [->|He]; [apply startsWith_nil|].
    pose proof (commonPrefix_greatest paths q Hne Hq) as Hcp. fold cp in Hcp.
    apply take_startsWith; [assumption|].
    destruct (le_lt_dec (String.length q) k) as [Hle|Hgt]; [assumption|exfalso].
    apply endsWithChar_split in He as [q' ->].
    apply startsWith_split in Hcp as [r Hr].
    rewrite str_app_assoc in Hr. simpl in Hr. rewrite Hr in Hdrop.
    rewrite contains_drop_app in Hdrop; [discriminate|].
    rewrite str_length_app in Hgt. simpl in Hgt. lia.
Qed.

(** The theorem at the three paths of the documentation and the common
    directory ["C:/"]. *)
Lemma commonNormalizedUnixPath_directory_witness :
  Js.startsWith
    (commonNormalizedUnixPath
       ["C:/Hello/World/This/Is/An/Example/Bla.cs";
        "C:/Hello/World/This/Is/Not/An/Example/";
        "C:/Hello/Earth/Bla/Bla/Bla"])
    "C:/" = true.
Proof.
  apply (proj2 (proj2 (proj2
           (proj1 commonNormalizedUnixPath_directory
              ["C:/Hello/World/This/Is/An/Example/Bla.cs";
               "C:/Hello/World/This/Is/Not/An/Example/";
               "C:/Hello/Earth/Bla/Bla/Bla"])))).
  - discriminate.
  - intros p [<-|[<-|[<-|[]]]]; reflexivity.
  - right. reflexivity.
Defined.

(** ** resolveAsUrl *)

Section ResolveAsUrl.

Context {P : Url.Platform}.

Lemma parsePackageUrl_throws (x : string + Url.URL) (e : error) :
  parsePackageUrl x = Throw e -> e = InvalidPackageUrl.
Proof.
  unfold parsePackageUrl. cbv zeta.
  destruct (RegExp.lookup "protocol" _); [|congruence].
  destruct (RegExp.lookup "pkg" _); [discriminate|congruence].
Qed.

Lemma new_URL_throws (url : string) (base : option string) (e : error) :
  new_URL url base = Throw e -> e = InvalidUrl.
Proof. unfold new_URL. destruct (Url.URL_new url base); [discriminate|congruence]. Qed.

Lemma resolve_with_no_base_error (path : string) (base_url : option Url.URL) :
  resolve_with path base_url <> Throw UnsupportedBaseScheme.
Proof.
  unfold resolve_with, resolveAsUrl_body. cbv zeta.
  intros H.
  assert (Hnew : forall url base, new_URL url base <> Throw UnsupportedBaseScheme).
  { intros url base E. apply new_URL_throws in E. discriminate. }
  assert (Hpkg : forall x, parsePackageUrl x <> Throw UnsupportedBaseScheme).
  { intros x E. apply parsePackageUrl_throws in E. discriminate. }
  destruct base_url as [u|]; cbn [bind] in H;
    destruct (getUriScheme (pathToUnixPath path));
    try (apply Hnew in H; exact H).
  - destruct (negb _); [apply Hnew in H; exact H|].
    destruct (parsePackageUrl (inr u)) as [pk|e] eqn:Epk;
      [|apply parsePackageUrl_throws in Epk; subst e; discriminate].
    cbn [bind] in H.
    destruct (new_URL _ (Some _)) as [j|e] eqn:Ej;
      [|apply new_URL_throws in Ej; subst e; discriminate].
    cbn [bind] in H. apply Hnew in H. exact H.
  - destruct (parsePackageUrl _) as [pk|e] eqn:Epk;
      [|apply parsePackageUrl_throws in Epk; subst e; discriminate].
    cbn [bind] in H. apply Hnew in H. exact H.
  - destruct (parsePackageUrl _) as [pk|e] eqn:Epk;
      [|apply parsePackageUrl_throws in Epk; subst e; discriminate].
    cbn [bind] in H. apply Hnew in H. exact H.
  - destruct (parsePackageUrl _) as [pk|e] eqn:Epk;
      [|apply parsePackageUrl_throws in Epk; subst e; discriminate].
    cbn [bind] in H. apply Hnew in H. exact H.
  - destruct (parsePackageUrl _) as [pk|e] eqn:Epk;
      [|apply parsePackageUrl_throws in Epk; subst e; discriminate].
    cbn [bind] in H. apply Hnew in H. exact H.
Qed.

Lemma resolveAsUrl_no_base_eq (path : string) :
  resolveAsUrl_no_base path = resolve_with path None.
Proof. reflexivity. Qed.

Lemma resolveAsUrl_none (path : string) :
  resolveAsUrl path None = resolve_with path None.
Proof. reflexivity. Qed.

Lemma resolveAsUrl_object (path : string) (u : Url.URL) :
  resolveAsUrl path (Some (inr u)) = resolve_with path (Some u).
Proof. reflexivity. Qed.

(** With a base that is a string: the check of its scheme, the call on it,
    then the same as with the URL object that the call returns. *)
Lemma resolveAsUrl_string (path b : string) :
  resolveAsUrl path (Some (inl b)) =
    if scheme_eqb (getUriScheme b) data || scheme_eqb (getUriScheme b) relative
    then Throw UnsupportedBaseScheme
    else let* u := resolveAsUrl b None in resolve_with path (Some u).
Proof.
  unfold resolveAsUrl at 1. unfold resolveAsUrl_body. cbv zeta.
  destruct (scheme_eqb (getUriScheme b) data || scheme_eqb (getUriScheme b) relative);
    [reflexivity|].
  rewrite resolveAsUrl_none, <- resolveAsUrl_no_base_eq.
  destruct (resolveAsUrl_no_base b); reflexivity.
Qed.

Lemma scheme_eqb_eq (a b : UriScheme) : scheme_eqb a b = true <-> a = b.
Proof. destruct a, b; simpl; split; intros H; try reflexivity; discriminate. Qed.

Lemma unsupported_base_check (b : string) :
  scheme_eqb (getUriScheme b) data || scheme_eqb (getUriScheme b) relative = true
  <-> getUriScheme b = data \/ getUriScheme b = relative.
Proof. rewrite orb_true_iff, !scheme_eqb_eq. reflexivity. Qed.

Lemma strip_trailing_cons (c : ascii) (r : string) :
  Url.is_c0_or_space c = false ->
  Url.strip_trailing (String c r) = String c (Url.strip_trailing r).
Proof. intros H. apply (strip_trailing_app "" c r H). Qed.

(** The URL constructor refuses, without a base, what begins with a dot. *)
Lemma URL_new_dot (rest : string) : Url.URL_new (String "." rest) None = None.
Proof.
  unfold Url.URL_new, Url.basic_parse, Url.preprocess.
  change (Url.strip_leading (String "." rest)) with (String "." rest).
  rewrite strip_trailing_cons by reflexivity. reflexivity.
Qed.

Lemma relative_begins_with_dot (p : string) :
  getUriScheme p = relative -> exists rest, p = String "." rest.
Proof.
  intros H. apply getUriScheme_relative in H as [H|H];
    apply startsWith_split in H as [t ->]; eexists; reflexivity.
Qed.

End ResolveAsUrl.

(** C7, as the code has it.  resolveAsUrl raises the error of an
    unsupported base exactly when its base is a string whose scheme is data
    or relative, whatever the scheme of the path; and on a path with the
    relative scheme and no base it raises the error of the URL constructor. *)
Theorem resolveAsUrl_base_errors {P : Url.Platform} :
  (forall path b : string,
      getUriScheme b = data \/ getUriScheme b = relative ->
      resolveAsUrl path (Some (inl b)) = Throw UnsupportedBaseScheme)
  /\ (forall (path : string) (base : option (string + Url.URL)),
         resolveAsUrl path base = Throw UnsupportedBaseScheme ->
         exists b, base = Some (inl b)
                   /\ (getUriScheme b = data \/ getUriScheme b = relative))
  /\ (forall path : string,
         getUriScheme (pathToUnixPath path) = relative ->
         resolveAsUrl path None = Throw InvalidUrl).
Proof.
  split; [|split].
  - intros path b Hb. rewrite resolveAsUrl_string.
    apply unsupported_base_check in Hb. rewrite Hb. reflexivity.
  - intros path [[b|u]|] H.
    + exists b. split; [reflexivity|]. apply unsupported_base_check.
      rewrite resolveAsUrl_string in H.
      destruct (scheme_eqb (getUriScheme b) data || scheme_eqb (getUriScheme b) relative);
        [reflexivity|exfalso].
      rewrite resolveAsUrl_none in H.
      destruct (resolve_with b None) as [v|e] eqn:E; cbn [bind] in H.
      * exact (resolve_with_no_base_error _ _ H).
      * injection H as ->. exact (resolve_with_no_base_error _ _ E).
    + rewrite resolveAsUrl_object in H. exfalso. exact (resolve_with_no_base_error _ _ H).
    + rewrite resolveAsUrl_none in H. exfalso. exact (resolve_with_no_base_error _ _ H).
  - intros path Hrel. rewrite resolveAsUrl_none.
    unfold resolve_with, resolveAsUrl_body. cbv zeta. cbn [bind]. rewrite Hrel.
    apply relative_begins_with_dot in Hrel as [rest ->].
    unfold new_URL. rewrite URL_new_dot. reflexivity.
Qed.

(** The theorem at the path ["./to/file.txt"] and the base ["./path/"]. *)
Lemma resolveAsUrl_base_errors_witness :
  resolveAsUrl (P := Url.refusing_platform) "./to/file.txt" (Some (inl "./path/"))
  = Throw UnsupportedBaseScheme.
Proof.
  apply (proj1 (resolveAsUrl_base_errors (P := Url.refusing_platform))).
  right. reflexivity.
Defined.

(** Against C7 as stated: a path of the npm scheme, hence outside the
    relative branch, still raises the error of an unsupported base. *)
Lemma resolveAsUrl_base_checked_before_dispatch :
  ~ (forall (P : Url.Platform) (path : string) (base : option (string + Url.URL)),
        getUriScheme (pathToUnixPath path) <> relative ->
        resolveAsUrl path base <> Throw UnsupportedBaseScheme).
Proof.
  intros H.
  apply (H Url.refusing_platform "npm:react" (Some (inl "./path/"))).
  - discriminate.
  - reflexivity.
Qed.

Section ResolvePackageBase.

Context {P : Url.Platform}.

(** The relative branch on a base URL of the npm or jsr protocol. *)
Lemma resolve_with_package_base (path : string) (base_url : Url.URL) :
  getUriScheme (pathToUnixPath path) = relative ->
  Url.protocol base_url = "npm:" \/ Url.protocol base_url = "jsr:" ->
  resolve_with path (Some base_url) =
    (let* parsed := parsePackageUrl (inr base_url) in
     let* joined := new_URL (pathToUnixPath path) (Some ("x:" ++ pathname parsed)) in
     new_URL (protocol parsed ++ "/" ++ host parsed ++ Url.pathname joined) None).
Proof.
  intros Hrel Hproto. unfold resolve_with, resolveAsUrl_body. cbv zeta. cbn [bind].
  rewrite Hrel.
  destruct Hproto as [-> | ->]; reflexivity.
Qed.

(** The call on a base string of the npm or jsr scheme returns a URL of
    that protocol. *)
Lemma resolveAsUrl_package_string (b : string) (pk : PackagePseudoUrl) :
  getUriScheme (pathToUnixPath b) = npm \/ getUriScheme (pathToUnixPath b) = jsr ->
  parsePackageUrl (inl (pathToUnixPath b)) = Ok pk ->
  exists u, resolveAsUrl b None = Ok u
            /\ Url.protocol u = protocol pk
            /\ (protocol pk = "npm:" \/ protocol pk = "jsr:").
Proof.
  intros Hs Hpk.
  destruct (href_parseable _ _ Hpk) as (u & Hu & Hproto).
  exists u. split; [|split; [exact Hproto|]].
  - rewrite resolveAsUrl_none. unfold resolve_with, resolveAsUrl_body. cbv zeta. cbn [bind].
    destruct Hs as [-> | ->]; rewrite Hpk; cbn [bind]; unfold new_URL; rewrite Hu; reflexivity.
  - apply parse_ok_parts in Hpk as (pp & Hwf & _ & -> & _).
    unfold PackageShape.well_formed in Hwf.
    repeat (apply andb_true_iff in Hwf as [Hwf ?]).
    apply orb_true_iff in Hwf. rewrite !String.eqb_eq in Hwf. exact Hwf.
Qed.

End ResolvePackageBase.

(** C6. On a path of the relative scheme and a base whose URL has the
    protocol npm: or jsr: (a URL object, or a string that resolveAsUrl
    resolves to it), resolveAsUrl parses the base with parsePackageUrl,
    joins the path against ["x:"] followed by the pathname of the base, and
    constructs the URL of the protocol, a slash, the host and the joined
    pathname; a base string of the npm or jsr scheme that parsePackageUrl
    parses resolves to such a URL; and
    [resolveAsUrl "./to/file.txt" "npm:react"] is the URL that the
    constructor makes of ["npm:/react/to/file.txt"]. *)
Theorem resolveAsUrl_package_base {P : Url.Platform} :
  (forall (path : string) (base : option (string + Url.URL)) (base_url : Url.URL),
      getUriScheme (pathToUnixPath path) = relative ->
      (base = Some (inr base_url)
       \/ exists b, base = Some (inl b)
                    /\ getUriScheme b <> data /\ getUriScheme b <> relative
                    /\ resolveAsUrl b None = Ok base_url) ->
      Url.protocol base_url = "npm:" \/ Url.protocol base_url = "jsr:" ->
      resolveAsUrl path base =
        (let* parsed := parsePackageUrl (inr base_url) in
         let* joined := new_URL (pathToUnixPath path) (Some ("x:" ++ pathname parsed)) in
         new_URL (protocol parsed ++ "/" ++ host parsed ++ Url.pathname joined) None))
  /\ (forall (b : string) (pk : PackagePseudoUrl),
         getUriScheme (pathToUnixPath b) = npm \/ getUriScheme (pathToUnixPath b) = jsr ->
         parsePackageUrl (inl (pathToUnixPath b)) = Ok pk ->
         exists u, resolveAsUrl b None = Ok u
                   /\ (Url.protocol u = "npm:" \/ Url.protocol u = "jsr:"))
  /\ resolveAsUrl "./to/file.txt" (Some (inl "npm:react"))
     = new_URL "npm:/react/to/file.txt" None
  /\ new_URL "npm:/react/to/file.txt" None
     = Ok (Url.mkURL "npm" "" "" None None (Url.Segments ["react"; "to"; "file.txt"])
             None None).
Proof.
  split; [|split; [|split; reflexivity]].
  - intros path base base_url Hrel Hbase Hproto.
    destruct Hbase as [-> | (b & -> & Hd & Hr & Hb)].
    + rewrite resolveAsUrl_object. apply resolve_with_package_base; assumption.
    + rewrite resolveAsUrl_string.
      destruct (scheme_eqb (getUriScheme b) data || scheme_eqb (getUriScheme b) relative)
        eqn:E.
      * apply unsupported_base_check in E as [E|E]; contradiction.
      * rewrite Hb. cbn [bind]. apply resolve_with_package_base; assumption.
  - intros b pk Hs Hpk.
    destruct (resolveAsUrl_package_string b pk Hs Hpk) as (u & Hu & Hp1 & Hp2).
    exists u. split; [assumption|]. rewrite Hp1. exact Hp2.
Qed.

(** The theorem at the path ["./to/file.txt"] and the base ["npm:react"]. *)
Lemma resolveAsUrl_package_base_witness :
  resolveAsUrl (P := Url.refusing_platform) "./to/file.txt" (Some (inl "npm:react"))
  = (let* parsed :=
       parsePackageUrl
         (inr (Url.mkURL "npm" "" "" None None (Url.Segments ["react"; ""]) None None)) in
     let* joined :=
       new_URL (P := Url.refusing_platform) (pathToUnixPath "./to/file.txt")
         (Some ("x:" ++ pathname parsed)) in
     new_URL (P := Url.refusing_platform)
       (protocol parsed ++ "/" ++ host parsed ++ Url.pathname joined) None).
Proof.
  apply (proj1 (resolveAsUrl_package_base (P := Url.refusing_platform))).
  - reflexivity.
  - right. exists "npm:react". repeat split; try discriminate.
  - left. reflexivity.
Defined.

(** ** parseFilepathInfo *)

Section FilepathInfo.

Import RegExp RegExpSem.

Lemma nonslash_matches (a : ascii) :
  charset_matches nonslash a = negb (Ascii.eqb a "/").
Proof. simpl. rewrite orb_false_r. reflexivity. Qed.

Lemma all_nonslash_contains (w : string) :
  all_match nonslash w = true -> Js.contains "/" w = false.
Proof.
  induction w as [|a w IH]; simpl; intros H; [reflexivity|].
  apply andb_true_iff in H as [Ha Hw]. rewrite orb_false_r in Ha.
  apply negb_true_iff in Ha. rewrite Ha, (IH Hw). reflexivity.
Qed.

(** [exec] returns the match at the first index that has one. *)
Lemma exec_from_inv (r : regex) (s : string) :
  forall n res,
    exec_from r n s = Some res ->
    exists skipped s',
      s = skipped ++ s'
      /\ match_at r (n + String.length skipped) s' = Some res
      /\ forall sk1 c sk2,
           skipped = sk1 ++ String c sk2 ->
           match_at r (n + String.length sk1) (String c sk2 ++ s') = None.
Proof.
  induction s as [|a s IH]; intros n res H; cbn [exec_from] in H.
  - destruct (match_at r n "") eqn:E; [|discriminate].
    exists "", "". simpl. rewrite Nat.add_0_r. repeat split; [congruence|].
    intros [|? ?] c sk2 Hsk; discriminate.
  - destruct (match_at r n (String a s)) eqn:E.
    + exists "", (String a s). simpl. rewrite Nat.add_0_r. repeat split; [congruence|].
      intros [|? ?] c sk2 Hsk; discriminate.
    + apply IH in H as (skipped & s' & -> & Hm & Hfirst).
      exists (String a skipped), s'. simpl. rewrite Nat.add_succ_r. repeat split; [exact Hm|].
      intros [|b sk1] c sk2 Hsk; simpl in Hsk; injection Hsk as -> ->.
      * simpl. rewrite Nat.add_0_r. exact E.
      * simpl. rewrite Nat.add_succ_r. apply (Hfirst sk1 c sk2). reflexivity.
Qed.

(** What the pattern of file names matches: an optional slash, then one or
    more code units other than the slash, up to the end. *)
Lemma filename_regex_sound (n : nat) (s : string) (res : match_result) :
  match_at filename_regex n s = Some res ->
  exists o f,
    s = o ++ f /\ m_text res = o ++ f /\ (o = "" \/ o = "/")
    /\ f <> "" /\ all_match nonslash f = true.
Proof.
  intros H. apply match_at_sound in H as (w & rest & c1 & -> & H & ->).
  apply derives_seq_inv in H as (o & w1 & c & -> & Ho & H).
  apply derives_seq_inv in H as (f & w2 & c' & -> & Hf & He).
  apply derives_eol_inv in He as (-> & -> & ->).
  apply derives_rep_chr in Hf as (_ & Hall & Hlen).
  exists o, f. rewrite !str_app_nil_r. repeat split; try assumption.
  - apply derives_opt in Ho as [[-> _]|Ho]; [auto|].
    apply derives_lit_inv in Ho as [-> _]. auto.
  - intros ->. simpl in Hlen. lia.
Qed.

Lemma filename_regex_complete (n : nat) (c : ascii) (f : string) :
  f <> "" -> all_match nonslash f = true ->
  match_at filename_regex n (String c f) <> None.
Proof.
  intros Hne Hall.
  assert (Hf : PackageShape.nonempty_of nonslash f = true).
  { apply nonempty_of_intro; [assumption|]. destruct f; [contradiction|simpl; lia]. }
  destruct (Ascii.eqb c "/") eqn:Ec.
  - apply Ascii.eqb_eq in Ec. subst c.
    assert (Hc : consumes (R := match_result) filename_regex n (String "/" "" ++ f ++ "") ""
                   [] []).
    { apply consumes_seq with (c1 := []).
      - apply consumes_opt_some; [discriminate|apply consumes_lit].
      - apply consumes_seq with (c1 := []); [|apply consumes_eol].
        apply consumes_plus_chr; [assumption|reflexivity]. }
    apply match_at_consumes in Hc. rewrite str_app_nil_r in Hc.
    change (String "/" "" ++ f) with (String "/" f) in Hc. congruence.
  - assert (Hc : consumes (R := match_result) filename_regex n ("" ++ String c f ++ "") ""
                   [] []).
    { apply consumes_seq with (c1 := []).
      - apply consumes_opt_none. intros k. simpl. rewrite Ec. reflexivity.
      - apply consumes_seq with (c1 := []); [|apply consumes_eol].
        apply consumes_plus_chr; [|reflexivity].
        apply nonempty_of_intro; [|simpl; lia].
        cbn [all_match]. fold nonslash. rewrite nonslash_matches, Ec, Hall. reflexivity. }
    apply match_at_consumes in Hc. simpl in Hc. rewrite str_app_nil_r in Hc. congruence.
Qed.

Lemma trimStartSlashes_empty : trimStartSlashes "" = "".
Proof. reflexivity. Qed.

(** The leading slash of a match of file names is trimmed. *)
Lemma trimStartSlashes_filename (o f : string) :
  o = "" \/ o = "/" -> f <> "" -> all_match nonslash f = true ->
  trimStartSlashes (o ++ f) = f.
Proof.
  intros Ho Hne Hall. unfold trimStartSlashes, replace, leading_slashes_regex.
  rewrite exec_bol.
  destruct f as [|a t]; [contradiction|].
  simpl in Hall. apply andb_true_iff in Hall as [Ha _].
  rewrite orb_false_r in Ha. apply negb_true_iff in Ha.
  destruct Ho as [-> | ->].
  - simpl append.
    assert (E : match_at (Bol ;; Plus slash) 0 (String a t) = None).
    { unfold match_at. cbn [matcher Nat.eqb]. unfold slash. rewrite matcher_plus_chr.
      simpl. rewrite Ha. reflexivity. }
    rewrite E. reflexivity.
  - assert (Hc : consumes (R := match_result) (Bol ;; Plus slash) 0 ("" ++ "/") (String a t)
                   [] []).
    { apply consumes_seq with (c1 := []); [apply consumes_bol|].
      apply consumes_plus_chr; [reflexivity|]. simpl. rewrite Ha. reflexivity. }
    apply match_at_consumes_rest in Hc. simpl in Hc. simpl append. rewrite Hc. reflexivity.
Qed.

(** The file name of a path: the path is a directory part followed by the
    file name; the file name holds no slash; and when it is not empty, the
    directory part is empty or ends with a slash. *)
Lemma parseNormalizedUnixFilename_spec (p : string) :
  exists d,
    p = d ++ parseNormalizedUnixFilename p
    /\ Js.contains "/" (parseNormalizedUnixFilename p) = false
    /\ (parseNormalizedUnixFilename p <> "" ->
        d = "" \/ Js.endsWithChar d "/" = true).
Proof.
  unfold parseNormalizedUnixFilename.
  destruct (exec filename_regex p) as [res|] eqn:E.
  - apply exec_from_inv in E as (skipped & s' & -> & Hm & Hfirst).
    apply filename_regex_sound in Hm as (o & f & -> & -> & Ho & Hne & Hall).
    rewrite (trimStartSlashes_filename o f Ho Hne Hall).
    exists (skipped ++ o). rewrite str_app_assoc. split; [reflexivity|].
    split; [apply all_nonslash_contains, Hall|]. intros _.
    destruct Ho as [-> | ->].
    + left. rewrite str_app_nil_r.
      destruct skipped as [|c0 sk] eqn:Esk; [reflexivity|exfalso].
      assert (Hlast : exists sk1 c, skipped = sk1 ++ String c "").
      { clear -Esk. subst skipped. revert c0.
        induction sk as [|b sk IH]; intros c0.
        - exists "", c0. reflexivity.
        - destruct (IH b) as (sk1 & c & Hs). exists (String c0 sk1), c.
          simpl. rewrite <- Hs. reflexivity. }
      destruct Hlast as (sk1 & c & Hs). rewrite <- Esk in Hfirst.
      specialize (Hfirst sk1 c "" Hs). simpl in Hfirst.
      revert Hfirst. apply filename_regex_complete; assumption.
    + right. clear. induction skipped as [|a sk IH]; [reflexivity|].
      simpl append. rewrite endsWithChar_cons; [exact IH|].
      destruct sk; discriminate.
  - exists p. rewrite trimStartSlashes_empty, str_app_nil_r. repeat split.
    intros H. contradiction.
Qed.

Lemma lazy_star_reaches_end {R : Type} (cs : charset) (k : @cont R) :
  forall s n caps,
    all_match cs s = true ->
    k (n + String.length s) "" caps <> None ->
    lazy_star_chr cs k n s caps <> None.
Proof.
  induction s as [|a s IH]; intros n caps Hall Hk; simpl.
  - simpl in Hk. rewrite Nat.add_0_r in Hk. destruct (k n "" caps); [discriminate|contradiction].
  - destruct (k n (String a s) caps); [discriminate|].
    simpl in Hall. apply andb_true_iff in Hall as [Ha Hs]. rewrite Ha.
    apply IH; [assumption|]. simpl in Hk. rewrite Nat.add_succ_r in Hk. exact Hk.
Qed.

(** The pattern of base names matches every file name that is not empty and
    holds no line terminator. *)
Lemma basename_regex_matches (f : string) :
  f <> "" -> all_match Dot f = true ->
  exec basename_and_extname_regex f <> None.
Proof.
  intros Hne Hall. unfold basename_and_extname_regex. rewrite exec_bol.
  unfold match_at. cbn [matcher Nat.eqb]. rewrite matcher_lazy_plus_chr.
  destruct f as [|a t]; [contradiction|].
  cbn [all_match] in Hall. apply andb_true_iff in Hall as [Ha Ht]. rewrite Ha.
  apply lazy_star_reaches_end; [assumption|].
  rewrite matcher_opt. discriminate.
Qed.

(** When the pattern of base names matches, the groups add up to the file
    name, and the extension, if any, is a dot followed by code units other
    than the dot. *)
Lemma basename_regex_sound (f : string) (res : match_result) :
  exec basename_and_extname_regex f = Some res ->
  exists b e,
    lookup "basename" (m_groups res) = Some b
    /\ lookup "ext" (m_groups res) = e
    /\ f = b ++ match e with Some x => x | None => "" end
    /\ b <> "".
Proof.
  unfold basename_and_extname_regex. rewrite exec_bol. intros H.
  apply match_at_sound in H as (w & rest & c1 & -> & H & ->).
  apply derives_seq_inv in H as (w0 & w1 & c & -> & Hb & H).
  apply derives_bol_inv in Hb as (_ & -> & ->).
  apply derives_seq_inv in H as (b & w2 & c & -> & Hbase & H).
  apply derives_group_inv in Hbase as (c' & -> & Hbase).
  apply derives_rep_chr in Hbase as (-> & _ & Hlen).
  apply derives_seq_inv in H as (we & w3 & c & -> & Hext & He).
  apply derives_eol_inv in He as (-> & -> & ->).
  assert (Hb : b <> "") by (intros ->; simpl in Hlen; lia).
  apply derives_opt in Hext as [[-> ->]|Hext].
  - exists b, None. simpl. rewrite !str_app_nil_r. auto.
  - apply derives_group_inv in Hext as (c' & -> & Hext).
    apply derives_seq_inv in Hext as (wd & wx & c & -> & Hdot & Hx).
    apply derives_lit_inv in Hdot as [-> ->].
    apply derives_rep_chr in Hx as (-> & _ & _).
    exists b, (Some ("." ++ wx)). simpl. rewrite !str_app_nil_r. auto.
Qed.

Lemma parseBasenameAndExtname_sum (f : string) :
  all_match Dot f = true ->
  fst (parseBasenameAndExtname_FromFilename f) ++ snd (parseBasenameAndExtname_FromFilename f)
  = f.
Proof.
  intros Hall. unfold parseBasenameAndExtname_FromFilename. cbv zeta.
  destruct (exec basename_and_extname_regex f) as [res|] eqn:E.
  - apply basename_regex_sound in E as (b & e & Hb & He & Hf & _).
    cbn [fst snd]. rewrite Hb, He. symmetry. exact Hf.
  - destruct f as [|a t]; [reflexivity|exfalso].
    revert E. apply basename_regex_matches; [discriminate|assumption].
Qed.

(** What holds of parseFilepathInfo on every input: the directory path
    followed by the file name is the path; the file name holds no slash;
    the directory path is the path when the file name is empty, and
    otherwise it is empty or ends with a slash; and the base name followed
    by the extension is the file name when it holds no line terminator. *)
Lemma parseFilepathInfo_invariants (file_path : string) :
  let info := parseFilepathInfo file_path in
  fi_dirpath info ++ fi_filename info = fi_path info
  /\ Js.contains "/" (fi_filename info) = false
  /\ (fi_filename info = "" -> fi_dirpath info = fi_path info)
  /\ (fi_filename info <> "" ->
      fi_dirpath info = "" \/ Js.endsWithChar (fi_dirpath info) "/" = true)
  /\ (all_match Dot (fi_filename info) = true ->
      fi_basename info ++ fi_extname info = fi_filename info).
Proof.
  cbv zeta. unfold parseFilepathInfo. cbv zeta.
  set (path := normalizePath file_path).
  destruct (parseNormalizedUnixFilename_spec path) as (d & Hd & Hns & Hdir).
  set (filename := parseNormalizedUnixFilename path) in *.
  assert (Hdp : (if Nat.ltb 0 (String.length filename)
                 then Js.slice0 path (- Z.of_nat (String.length filename))
                 else path) = d).
  { destruct filename as [|a t] eqn:Ef.
    - simpl. rewrite Hd, str_app_nil_r. reflexivity.
    - cbn [Nat.ltb Nat.leb String.length]. unfold Js.slice0.
      destruct (- Z.of_nat (S (String.length t)) <? 0)%Z eqn:En;
        [|apply Z.ltb_ge in En; lia].
      rewrite Hd at 1 2. rewrite str_length_app. cbn [String.length].
      replace (Z.to_nat (Z.max (Z.of_nat (String.length d + S (String.length t))
                                + - Z.of_nat (S (String.length t))) 0))
        with (String.length d) by lia.
      apply take_app_length. }
  rewrite Hdp.
  pose proof (parseBasenameAndExtname_sum filename) as Hsum.
  destruct (parseBasenameAndExtname_FromFilename filename) as [basename extname].
  cbn [fi_path fi_dirpath fi_filename fi_basename fi_extname fst snd] in *.
  repeat split; auto.
  intros Hf. rewrite Hf, str_app_nil_r in Hd. auto.
Qed.

End FilepathInfo.


(** C9 fails on the code.  On the bare file name ["log"] the file name is
    not empty and the directory path is empty, so it does not end with a
    slash; and on a file name that holds a line feed, which the dot of the
    pattern for base names does not match, the base name and the extension
    are both empty and do not add up to the file name. *)
Theorem parseFilepathInfo_breaks_invariant :
  (fi_filename (parseFilepathInfo "log") = "log"
   /\ fi_dirpath (parseFilepathInfo "log") = ""
   /\ Js.endsWithChar (fi_dirpath (parseFilepathInfo "log")) sep_char = false)
  /\ (let file_path := String "a" (String "010" "b") in
      fi_filename (parseFilepathInfo file_path) = file_path
      /\ fi_basename (parseFilepathInfo file_path) = ""
      /\ fi_extname (parseFilepathInfo file_path) = ""
      /\ fi_basename (parseFilepathInfo file_path) ++ fi_extname (parseFilepathInfo file_path)
         <> fi_filename (parseFilepathInfo file_path)).
Proof.
  split; [repeat split|].
  cbv zeta. repeat split. discriminate.
Qed.

(** * Further properties of the module *)

(** ** Trimming slashes *)

Section TrimSlashes.

Import RegExp RegExpSem PathShape.

Lemma all_match_slashes (k : nat) : all_match (Lit "/") (slashes k) = true.
Proof. induction k; simpl; [reflexivity|exact IHk]. Qed.

Lemma all_match_slash_inv (w : string) :
  all_match (Lit "/") w = true -> w = slashes (String.length w).
Proof.
  induction w as [|a w IH]; simpl; intros H; [reflexivity|].
  apply andb_true_iff in H as [Ha Hw]. apply Ascii.eqb_eq in Ha. subst a.
  f_equal. apply IH. exact Hw.
Qed.

Lemma slashes_length (k : nat) : String.length (slashes k) = k.
Proof. induction k; simpl; congruence. Qed.

Lemma slashes_add (j k : nat) : slashes (j + k) = slashes j ++ slashes k.
Proof. induction j; simpl; congruence. Qed.

Lemma slashes_snoc (k : nat) : slashes k ++ "/" = slashes (S k).
Proof. induction k; simpl; [reflexivity|]. rewrite IHk. reflexivity. Qed.

Lemma startsWith_char (a c : ascii) (t : string) :
  Js.startsWith (String a t) (String c "") = Ascii.eqb a c.
Proof. simpl. destruct (Ascii.eqb a c); destruct t; reflexivity. Qed.

Lemma stops_slash (t : string) :
  stops (Lit "/") t = negb (Js.startsWith t "/").
Proof.
  destruct t as [|a t]; [reflexivity|]. rewrite startsWith_char. reflexivity.
Qed.

(** Every string is a run of slashes followed by a string that does not
    start with a slash. *)
Lemma leading_split (s : string) :
  exists k t, s = slashes k ++ t /\ Js.startsWith t "/" = false.
Proof.
  induction s as [|a s (k & t & -> & Ht)].
  - exists 0, "". split; reflexivity.
  - destruct (Ascii.eqb a "/") eqn:Ea.
    + apply Ascii.eqb_eq in Ea. subst a. exists (S k), t. split; [reflexivity|exact Ht].
    + exists 0, (String a (slashes k ++ t)). split; [reflexivity|].
      rewrite startsWith_char. exact Ea.
Qed.

(** Every string is a string that does not end with a slash followed by a
    run of slashes. *)
Lemma trailing_split (s : string) :
  exists b k, s = b ++ slashes k /\ Js.endsWithChar b "/" = false.
Proof.
  induction s as [|a s (b & k & -> & Hb)].
  - exists "", 0. split; reflexivity.
  - destruct b as [|b0 b].
    + destruct (Ascii.eqb a "/") eqn:Ea.
      * apply Ascii.eqb_eq in Ea. subst a. exists "", (S k). split; reflexivity.
      * exists (String a ""), k. split; [reflexivity|]. simpl. exact Ea.
    + exists (String a (String b0 b)), k. split; [reflexivity|].
      rewrite endsWithChar_cons by discriminate. exact Hb.
Qed.

(** trimStartSlashes removes a leading run of slashes, whatever its length. *)
Lemma trimStartSlashes_strip (k : nat) (t : string) :
  Js.startsWith t "/" = false -> trimStartSlashes (slashes k ++ t) = t.
Proof.
  intros Ht. unfold trimStartSlashes, replace, leading_slashes_regex.
  rewrite exec_bol.
  assert (Hstop : stops (Lit "/") t = true) by (rewrite stops_slash, Ht; reflexivity).
  destruct k as [|k].
  - simpl append.
    assert (E : match_at (Bol ;; Plus slash) 0 t = None).
    { unfold match_at. cbn [matcher Nat.eqb]. unfold slash. rewrite matcher_plus_chr.
      destruct t as [|a t]; [reflexivity|].
      rewrite startsWith_char in Ht. simpl. rewrite Ht. reflexivity. }
    rewrite E. reflexivity.
  - assert (Hc : consumes (R := match_result) (Bol ;; Plus slash) 0 ("" ++ slashes (S k)) t
                   [] []).
    { apply consumes_seq with (c1 := []); [apply consumes_bol|].
      apply consumes_plus_chr; [|exact Hstop].
      apply nonempty_of_intro; [apply all_match_slashes|simpl; lia]. }
    apply match_at_consumes_rest in Hc. cbn [append] in Hc. rewrite Hc. reflexivity.
Qed.

(** A search that fails at every index of [a] goes on behind [a]. *)
Lemma exec_from_skip (r : regex) (b : string) :
  forall a n,
    (forall a1 c a2, a = a1 ++ String c a2 ->
        match_at r (n + String.length a1) (String c a2 ++ b) = None) ->
    exec_from r n (a ++ b) = exec_from r (n + String.length a) b.
Proof.
  induction a as [|x a IH]; intros n H.
  - simpl. rewrite Nat.add_0_r. reflexivity.
  - pose proof (H "" x a eq_refl) as H0. cbn [String.length] in H0.
    rewrite Nat.add_0_r in H0.
    change (String x a ++ b) with (String x (a ++ b)) in *.
    cbn [exec_from]. rewrite H0. rewrite IH.
    + cbn [String.length]. rewrite Nat.add_succ_r. reflexivity.
    + intros a1 c a2 ->. specialize (H (String x a1) c a2 eq_refl).
      cbn [String.length] in H. rewrite Nat.add_succ_r in H. exact H.
Qed.

Lemma exec_from_hit (r : regex) (n : nat) (s : string) (res : match_result) :
  match_at r n s = Some res -> exec_from r n s = Some res.
Proof. intros H. destruct s; cbn [exec_from]; rewrite H; reflexivity. Qed.

Lemma all_match_app (cs : charset) (a b : string) :
  all_match cs (a ++ b) = all_match cs a && all_match cs b.
Proof.
  induction a as [|x a IH]; simpl; [reflexivity|]. rewrite IH. apply andb_assoc.
Qed.

Lemma endsWithChar_app (a w : string) (c : ascii) :
  w <> "" -> Js.endsWithChar (a ++ w) c = Js.endsWithChar w c.
Proof.
  intros Hw. induction a as [|x a IH]; [reflexivity|].
  change (String x a ++ w) with (String x (a ++ w)).
  rewrite endsWithChar_cons; [exact IH|].
  destruct a; [exact Hw|discriminate].
Qed.

Lemma endsWithChar_all_slashes (w : string) :
  w <> "" -> all_match (Lit "/") w = true -> Js.endsWithChar w "/" = true.
Proof.
  induction w as [|a w IH]; intros Hne Hall; [contradiction|].
  simpl in Hall. apply andb_true_iff in Hall as [Ha Hw].
  destruct w as [|b w]; [exact Ha|].
  rewrite endsWithChar_cons by discriminate. apply IH; [discriminate|exact Hw].
Qed.

(** The pattern of trailing slashes matches at an index exactly when what is
    left of the input is a run of one or more slashes. *)
Lemma trailing_match_sound (n : nat) (s : string) (res : match_result) :
  match_at trailing_slashes_regex n s = Some res ->
  s <> "" /\ all_match (Lit "/") s = true /\ res = mkMatch n s "" [].
Proof.
  intros H. apply match_at_sound in H as (w & rest & c1 & -> & H & ->).
  apply derives_seq_inv in H as (w1 & w2 & c & -> & H1 & H2).
  apply derives_eol_inv in H2 as (-> & -> & ->).
  apply derives_rep_chr in H1 as (-> & Hall & Hlen).
  rewrite !str_app_nil_r. repeat split; [|exact Hall].
  intros ->. simpl in Hlen. lia.
Qed.

Lemma trailing_match_complete (n k : nat) :
  match_at trailing_slashes_regex n (slashes (S k))
  = Some (mkMatch n (slashes (S k)) "" []).
Proof.
  assert (Hc : consumes (R := match_result) trailing_slashes_regex n (slashes (S k) ++ "") ""
                 [] []).
  { apply consumes_seq with (c1 := []); [|apply consumes_eol].
    apply consumes_plus_chr; [|reflexivity].
    apply nonempty_of_intro; [apply all_match_slashes|simpl; lia]. }
  apply match_at_consumes in Hc. rewrite str_app_nil_r in Hc. exact Hc.
Qed.

(** trimEndSlashes removes a trailing run of slashes, whatever its length. *)
Lemma trimEndSlashes_strip (b : string) (k : nat) :
  Js.endsWithChar b "/" = false -> trimEndSlashes (b ++ slashes k) = b.
Proof.
  intros Hb. unfold trimEndSlashes, replace, exec.
  rewrite exec_from_skip.
  - destruct k as [|k].
    + cbn [slashes exec_from].
      destruct (match_at trailing_slashes_regex (0 + String.length b) "") eqn:E.
      * apply trailing_match_sound in E as (Hne & _). contradiction.
      * apply str_app_nil_r.
    + rewrite (exec_from_hit _ _ _ _ (trailing_match_complete _ k)). cbn [m_index m_rest].
      rewrite Nat.add_0_l, take_app_length. apply str_app_nil_r.
  - intros a1 c a2 ->.
    destruct (match_at trailing_slashes_regex (0 + String.length a1)
                (String c a2 ++ slashes k)) eqn:E; [|reflexivity].
    apply trailing_match_sound in E as (_ & Hall & _).
    rewrite all_match_app in Hall. apply andb_true_iff in Hall as [Hall _].
    rewrite endsWithChar_app in Hb by discriminate.
    rewrite endsWithChar_all_slashes in Hb; [discriminate|discriminate|exact Hall].
Qed.

Lemma startsWith_app_l (b x p : string) :
  Js.startsWith b p = true -> Js.startsWith (b ++ x) p = true.
Proof.
  revert b. induction p as [|c p IH]; intros b H; [apply startsWith_nil|].
  destruct b as [|a b]; [discriminate|].
  simpl in H. apply andb_true_iff in H as [Ha Hb].
  simpl. rewrite Ha. apply IH. exact Hb.
Qed.

Lemma startsWith_app_false (b x p : string) :
  Js.startsWith (b ++ x) p = false -> Js.startsWith b p = false.
Proof.
  intros H. destruct (Js.startsWith b p) eqn:E; [|reflexivity].
  rewrite (startsWith_app_l b x p E) in H. discriminate.
Qed.

End TrimSlashes.

(** X1 (trimStartSlashes).  Every string is a run of slashes followed by its
    trimmed form; the trimmed form does not start with a slash; and trimming
    once more changes nothing. *)
Theorem trimStartSlashes_removes_leading_run (str : string) :
  (exists k, str = PathShape.slashes k ++ trimStartSlashes str)
  /\ Js.startsWith (trimStartSlashes str) "/" = false
  /\ trimStartSlashes (trimStartSlashes str) = trimStartSlashes str.
Proof.
  destruct (leading_split str) as (k & t & -> & Ht).
  rewrite trimStartSlashes_strip by exact Ht.
  split; [exists k; reflexivity|]. split; [exact Ht|].
  apply (trimStartSlashes_strip 0). exact Ht.
Qed.

(** X2 (trimEndSlashes).  Every string is its trimmed form followed by a run
    of slashes; the trimmed form does not end with a slash; and trimming
    once more changes nothing. *)
Theorem trimEndSlashes_removes_trailing_run (str : string) :
  (exists k, str = trimEndSlashes str ++ PathShape.slashes k)
  /\ Js.endsWithChar (trimEndSlashes str) "/" = false
  /\ trimEndSlashes (trimEndSlashes str) = trimEndSlashes str.
Proof.
  destruct (trailing_split str) as (b & k & -> & Hb).
  rewrite trimEndSlashes_strip by exact Hb.
  split; [exists k; reflexivity|]. split; [exact Hb|].
  rewrite <- (str_app_nil_r b) at 1. apply (trimEndSlashes_strip b 0). exact Hb.
Qed.

(** X3 (trimSlashes).  Every string is a run of slashes, its trimmed form,
    and a run of slashes; the trimmed form neither starts nor ends with a
    slash. *)
Theorem trimSlashes_removes_both_runs (str : string) :
  (exists j k, str = PathShape.slashes j ++ trimSlashes str ++ PathShape.slashes k)
  /\ Js.startsWith (trimSlashes str) "/" = false
  /\ Js.endsWithChar (trimSlashes str) "/" = false.
Proof.
  unfold trimSlashes.
  destruct (leading_split str) as (j & t & -> & Ht).
  rewrite trimStartSlashes_strip by exact Ht.
  destruct (trailing_split t) as (b & k & -> & Hb).
  rewrite trimEndSlashes_strip by exact Hb.
  split; [exists j, k; reflexivity|].
  split; [exact (startsWith_app_false _ _ _ Ht)|].
  exact Hb.
Qed.

(** ** Trimming dot-slashes *)

Section TrimDotSlashes.

Import RegExp RegExpSem PathShape.

(** The unit [(\.?\/)] of the pattern of leading slashes and dot-slashes. *)
Local Abbreviation unit_regex := (Paren (Opt (Chr (Lit ".")) ;; slash)).

Lemma matcher_unit {R : Type} (n : nat) (s : string) (caps : captures) (k : @cont R) :
  matcher unit_regex n s caps k =
    match s with
    | String a t =>
        if Ascii.eqb a "/" then k (S n) t caps
        else if Ascii.eqb a "." then
          match t with
          | String b t' => if Ascii.eqb b "/" then k (S (S n)) t' caps else None
          | EmptyString => None
          end
        else None
    | EmptyString => None
    end.
Proof.
  cbn [matcher]. rewrite matcher_opt.
  destruct s as [|a t]; [reflexivity|].
  rewrite matcher_chr. cbn [group_names]. rewrite reset_nil.
  unfold slash. cbn [charset_matches].
  destruct (Ascii.eqb a "/") eqn:Es.
  - apply Ascii.eqb_eq in Es. subst a. cbn. reflexivity.
  - destruct (Ascii.eqb a ".") eqn:Ed.
    + rewrite succ_neqb. rewrite !matcher_chr. cbn [charset_matches]. rewrite Es.
      destruct t as [|b t']; [reflexivity|].
      destruct (Ascii.eqb b "/"); [|reflexivity].
      destruct (k (S (S n)) t' caps); reflexivity.
    + rewrite matcher_chr. cbn [charset_matches]. rewrite Es. reflexivity.
Qed.

Lemma strip_units_length (m : nat) :
  forall s, String.length s <= m -> String.length (strip_units s) <= String.length s.
Proof.
  induction m as [|m IH]; intros s Hs.
  - destruct s; [simpl; lia|simpl in Hs; lia].
  - destruct s as [|a t]; [simpl; lia|].
    cbn [strip_units]. simpl in Hs.
    destruct (Ascii.eqb a "/").
    + specialize (IH t ltac:(lia)). simpl. lia.
    + destruct (Ascii.eqb a "."); [|lia].
      destruct t as [|b t']; [lia|].
      destruct (Ascii.eqb b "/"); [|lia].
      simpl in Hs. specialize (IH t' ltac:(lia)). simpl. lia.
Qed.

(** The star of the unit, followed by a continuation that always succeeds,
    stops behind the longest prefix made of units. *)
Lemma star_units (k : @cont match_result) (n0 : nat) :
  (forall n' s' c', exists z, k n' s' c' = Some z /\ m_index z = n0 /\ m_rest z = s') ->
  forall fuel s n caps,
    String.length s <= fuel ->
    exists z,
      repeat_matcher (matcher unit_regex) [] true k fuel 0 None n s caps = Some z
      /\ m_index z = n0 /\ m_rest z = strip_units s.
Proof.
  intros Hk. induction fuel as [|fuel IH]; intros s n caps Hs.
  - destruct s; [|simpl in Hs; lia]. simpl. apply Hk.
  - rewrite repeat_star_step, matcher_unit, reset_nil.
    destruct s as [|a t]; [apply Hk|].
    cbn [strip_units]. simpl in Hs.
    destruct (Ascii.eqb a "/").
    + rewrite succ_neqb.
      destruct (IH t (S n) caps ltac:(lia)) as (z & -> & Hz). exists z. split; [reflexivity|exact Hz].
    + destruct (Ascii.eqb a "."); [|apply Hk].
      destruct t as [|b t']; [apply Hk|].
      destruct (Ascii.eqb b "/"); [|apply Hk].
      replace (Nat.eqb (S (S n)) n) with false
        by (symmetry; apply Nat.eqb_neq; lia).
      simpl in Hs.
      destruct (IH t' (S (S n)) caps ltac:(lia)) as (z & -> & Hz).
      exists z. split; [reflexivity|exact Hz].
Qed.

Lemma strip_units_no_unit (s : string) :
  starts_unit s = false -> strip_units s = s.
Proof.
  unfold starts_unit. intros H. apply orb_false_iff in H as [Hs Hd].
  destruct s as [|a t]; [reflexivity|].
  rewrite startsWith_char in Hs. cbn [strip_units]. rewrite Hs.
  destruct (Ascii.eqb a ".") eqn:Ea; [|reflexivity].
  destruct t as [|b t']; [reflexivity|].
  destruct (Ascii.eqb b "/") eqn:Eb; [|reflexivity].
  simpl in Hd. rewrite Ea, Eb in Hd. destruct t'; discriminate.
Qed.

(** The replacement of the leading pattern by nothing leaves what follows
    the longest prefix made of units. *)
Lemma replace_leading_units (str : string) :
  RegExp.replace leading_slashes_and_dot_slashes_regex str "" = strip_units str.
Proof.
  unfold replace, leading_slashes_and_dot_slashes_regex. rewrite exec_bol.
  unfold match_at. cbn [matcher Nat.eqb].
  set (k := fun (n' : nat) (s' : string) (caps' : captures) =>
              Some (mkMatch 0 (Js.take (n' - 0) str) s' caps')).
  change (matcher (Plus unit_regex) 0 str [] k)
    with (repeat_matcher (matcher unit_regex) [] true k (S (String.length str)) 1 None
            0 str []).
  rewrite repeat_plus_step, matcher_unit.
  assert (Hk : forall n' s' c',
             exists z, k n' s' c' = Some z /\ m_index z = 0 /\ m_rest z = s').
  { intros n' s' c'. eexists. split; [reflexivity|]. split; reflexivity. }
  destruct str as [|a t] eqn:Estr; [reflexivity|].
  cbn [strip_units String.length].
  destruct (Ascii.eqb a "/").
  - destruct (star_units k 0 Hk (S (String.length t)) t 1 (reset [] []) ltac:(lia))
      as (z & -> & Hi & Hr).
    rewrite Hi, Hr. reflexivity.
  - destruct (Ascii.eqb a "."); [|reflexivity].
    destruct t as [|b t']; [reflexivity|].
    destruct (Ascii.eqb b "/"); [|reflexivity].
    destruct (star_units k 0 Hk (S (String.length (String b t'))) t' 2 (reset [] [])
                ltac:(simpl; lia)) as (z & -> & Hi & Hr).
    rewrite Hi, Hr. reflexivity.
Qed.

Lemma trimDotSlashes_units (str : string) :
  trimDotSlashes str = trimEndSlashes (strip_units str).
Proof. unfold trimDotSlashes. rewrite replace_leading_units. reflexivity. Qed.

Lemma starts_unit_cons (a : ascii) (t : string) :
  starts_unit (String a t) = Ascii.eqb a "/" || (Ascii.eqb a "." && Js.startsWith t "/").
Proof. unfold starts_unit. rewrite startsWith_char. reflexivity. Qed.

(** Every string is a sequence of units followed by a string that starts
    with no unit. *)
Lemma strip_units_split (m : nat) :
  forall s,
    String.length s <= m ->
    exists us,
      Forall is_unit us
      /\ s = fold_right append "" us ++ strip_units s
      /\ starts_unit (strip_units s) = false.
Proof.
  induction m as [|m IH]; intros s Hs.
  - destruct s; [|simpl in Hs; lia]. exists []. repeat split. constructor.
  - destruct s as [|a t]; [exists []; repeat split; constructor|].
    simpl in Hs. cbn [strip_units].
    destruct (Ascii.eqb a "/") eqn:Es.
    + apply Ascii.eqb_eq in Es. subst a.
      destruct (IH t ltac:(lia)) as (us & Hus & Ht & Hstop).
      exists ("/" :: us). split; [constructor; [left; reflexivity|exact Hus]|].
      split; [|exact Hstop]. simpl. f_equal. exact Ht.
    + destruct (Ascii.eqb a ".") eqn:Ed.
      * destruct t as [|b t'].
        { exists []. split; [constructor|]. split; [reflexivity|].
          rewrite starts_unit_cons, Es, Ed. reflexivity. }
        destruct (Ascii.eqb b "/") eqn:Eb.
        { apply Ascii.eqb_eq in Ed, Eb. subst a b. simpl in Hs.
          destruct (IH t' ltac:(lia)) as (us & Hus & Ht & Hstop).
          exists ("./" :: us). split; [constructor; [right; reflexivity|exact Hus]|].
          split; [|exact Hstop]. simpl. do 2 f_equal. exact Ht. }
        exists []. split; [constructor|]. split; [reflexivity|].
        rewrite starts_unit_cons, Es, Ed, startsWith_char, Eb. reflexivity.
      * exists []. split; [constructor|]. split; [reflexivity|].
        rewrite starts_unit_cons, Es, Ed. reflexivity.
Qed.

Lemma starts_unit_app_false (b x : string) :
  starts_unit (b ++ x) = false -> starts_unit b = false.
Proof.
  unfold starts_unit. intros H. apply orb_false_iff in H as [H1 H2].
  rewrite (startsWith_app_false _ _ _ H1), (startsWith_app_false _ _ _ H2). reflexivity.
Qed.

(** trimDotSlashes on a string taken apart: units, a middle that starts with
    no unit and does not end with a slash, and slashes. *)
Lemma trimDotSlashes_strip (us : list string) (b : string) (k : nat) :
  Forall is_unit us -> starts_unit (b ++ slashes k) = false ->
  Js.endsWithChar b "/" = false ->
  trimDotSlashes (fold_right append "" us ++ b ++ slashes k) = b.
Proof.
  intros Hus Hstart Hend. rewrite trimDotSlashes_units.
  assert (E : strip_units (fold_right append "" us ++ b ++ slashes k) = b ++ slashes k).
  { induction Hus as [|u us [-> | ->] _ IH]; simpl.
    - apply strip_units_no_unit. exact Hstart.
    - exact IH.
    - exact IH. }
  rewrite E. apply trimEndSlashes_strip. exact Hend.
Qed.

Lemma trimDotSlashes_split (str : string) :
  exists us b k,
    Forall is_unit us /\ str = fold_right append "" us ++ b ++ slashes k
    /\ starts_unit (b ++ slashes k) = false /\ Js.endsWithChar b "/" = false.
Proof.
  destruct (strip_units_split (String.length str) str (le_n _)) as (us & Hus & Hs & Hstop).
  destruct (trailing_split (strip_units str)) as (b & k & Hb & Hend).
  exists us, b, k. rewrite <- Hb. repeat split; assumption.
Qed.

End TrimDotSlashes.

(** X4 (trimDotSlashes).  Every string is a sequence of units ["/"] and
    ["./"], its trimmed form, and a run of slashes; the trimmed form starts
    with neither ["/"] nor ["./"] and does not end with a slash; and trimming
    once more changes nothing. *)
Theorem trimDotSlashes_removes_units_and_trailing_run (str : string) :
  (exists (us : list string) (k : nat),
      Forall PathShape.is_unit us
      /\ str = fold_right append "" us ++ trimDotSlashes str ++ PathShape.slashes k)
  /\ PathShape.starts_unit (trimDotSlashes str) = false
  /\ Js.endsWithChar (trimDotSlashes str) "/" = false
  /\ trimDotSlashes (trimDotSlashes str) = trimDotSlashes str.
Proof.
  destruct (trimDotSlashes_split str) as (us & b & k & Hus & -> & Hstart & Hend).
  rewrite trimDotSlashes_strip by assumption.
  pose proof (starts_unit_app_false _ _ Hstart) as Hb.
  split; [exists us, k; split; [exact Hus|reflexivity]|].
  split; [exact Hb|]. split; [exact Hend|].
  pose proof (trimDotSlashes_strip [] b 0) as H.
  simpl in H. rewrite str_app_nil_r in H.
  apply H; [constructor|exact Hb|exact Hend].
Qed.

(** ** Ensuring slashes *)

Section EnsureSlashes.

Import PathShape.

Lemma ensureStartSlash_starts (str : string) :
  Js.startsWith (ensureStartSlash str) "/" = true.
Proof.
  unfold ensureStartSlash, sep. destruct (Js.startsWith str "/") eqn:E; [exact E|].
  apply (startsWith_app "/" str).
Qed.

Lemma ensureEndSlash_ends (str : string) :
  Js.endsWithChar (ensureEndSlash str) "/" = true.
Proof.
  unfold ensureEndSlash, sep, sep_char. destruct (Js.endsWithChar str "/") eqn:E; [exact E|].
  rewrite endsWithChar_app by discriminate. reflexivity.
Qed.

Lemma ensureStartDotSlash_starts (str : string) :
  Js.startsWith (ensureStartDotSlash str) "./" = true.
Proof.
  unfold ensureStartDotSlash, sep. destruct (Js.startsWith str "./") eqn:E; [exact E|].
  destruct (Js.startsWith str "/") eqn:E'; [|apply (startsWith_app "./" str)].
  change ("." ++ str) with (String "." str). cbn [Js.startsWith].
  rewrite E'. reflexivity.
Qed.

End EnsureSlashes.

(** X5 (ensureStartSlash).  The result starts with a slash; a string that
    starts with a slash is returned as it is, so ensuring twice is ensuring
    once; and trimStartSlashes undoes the slash that was put in front. *)
Theorem ensureStartSlash_then_trim (str : string) :
  Js.startsWith (ensureStartSlash str) "/" = true
  /\ ensureStartSlash (ensureStartSlash str) = ensureStartSlash str
  /\ trimStartSlashes (ensureStartSlash str) = trimStartSlashes str.
Proof.
  split; [apply ensureStartSlash_starts|]. split.
  - unfold ensureStartSlash at 1. rewrite ensureStartSlash_starts. reflexivity.
  - unfold ensureStartSlash, sep. destruct (Js.startsWith str "/"); [reflexivity|].
    destruct (leading_split str) as (k & t & -> & Ht).
    change ("/" ++ PathShape.slashes k ++ t) with (PathShape.slashes (S k) ++ t).
    rewrite !trimStartSlashes_strip by exact Ht. reflexivity.
Qed.

(** X6 (ensureEndSlash).  The result ends with a slash; a string that ends
    with a slash is returned as it is, so ensuring twice is ensuring once;
    and trimEndSlashes undoes the slash that was put behind. *)
Theorem ensureEndSlash_then_trim (str : string) :
  Js.endsWithChar (ensureEndSlash str) "/" = true
  /\ ensureEndSlash (ensureEndSlash str) = ensureEndSlash str
  /\ trimEndSlashes (ensureEndSlash str) = trimEndSlashes str.
Proof.
  split; [apply ensureEndSlash_ends|]. split.
  - unfold ensureEndSlash at 1. unfold sep_char. rewrite ensureEndSlash_ends. reflexivity.
  - unfold ensureEndSlash, sep, sep_char. destruct (Js.endsWithChar str "/"); [reflexivity|].
    destruct (trailing_split str) as (b & k & -> & Hb).
    rewrite str_app_assoc, slashes_snoc.
    rewrite !trimEndSlashes_strip by exact Hb. reflexivity.
Qed.

(** X7 (ensureStartDotSlash).  The result starts with a dot-slash; a string
    that starts with one is returned as it is, so ensuring twice is ensuring
    once; and trimDotSlashes undoes what was put in front. *)
Theorem ensureStartDotSlash_then_trim (str : string) :
  Js.startsWith (ensureStartDotSlash str) "./" = true
  /\ ensureStartDotSlash (ensureStartDotSlash str) = ensureStartDotSlash str
  /\ trimDotSlashes (ensureStartDotSlash str) = trimDotSlashes str.
Proof.
  split; [apply ensureStartDotSlash_starts|]. split.
  - unfold ensureStartDotSlash at 1. rewrite ensureStartDotSlash_starts. reflexivity.
  - rewrite !trimDotSlashes_units. f_equal.
    unfold ensureStartDotSlash, sep. destruct (Js.startsWith str "./"); [reflexivity|].
    destruct (Js.startsWith str "/") eqn:E; [|reflexivity].
    destruct str as [|a t]; [discriminate|].
    rewrite startsWith_char in E. apply Ascii.eqb_eq in E. subst a. reflexivity.
Qed.

(** ** joinSlash *)

Section JoinSlash.

Import PathShape.

(** The reduction of joinSlash puts a slash in front of every segment. *)
Lemma fold_slash_join (l : list string) :
  forall acc,
    l <> [] ->
    fold_left (fun output subpath => output ++ sep ++ subpath) l acc
    = acc ++ "/" ++ Js.join "/" l.
Proof.
  induction l as [|x l IH]; intros acc Hne; [contradiction|].
  destruct l as [|y l].
  - reflexivity.
  - change (fold_left (fun output subpath => output ++ sep ++ subpath) (x :: y :: l) acc)
      with (fold_left (fun output subpath => output ++ sep ++ subpath) (y :: l)
              (acc ++ sep ++ x)).
    rewrite IH by discriminate.
    change (Js.join "/" (x :: y :: l)) with (x ++ "/" ++ Js.join "/" (y :: l)).
    unfold sep. rewrite !str_app_assoc. reflexivity.
Qed.

Lemma trimStartSlashes_slash (s : string) :
  trimStartSlashes ("/" ++ s) = trimStartSlashes s.
Proof.
  destruct (leading_split s) as (k & t & -> & Ht).
  change ("/" ++ slashes k ++ t) with (slashes (S k) ++ t).
  rewrite !trimStartSlashes_strip by exact Ht. reflexivity.
Qed.

Lemma joinSlash_join (segments : list string) :
  joinSlash segments = trimStartSlashes (Js.join "/" (map trimDotSlashes segments)).
Proof.
  unfold joinSlash. destruct segments as [|x l]; [reflexivity|].
  rewrite fold_slash_join by discriminate.
  change ("" ++ "/" ++ Js.join "/" (map trimDotSlashes (x :: l)))
    with ("/" ++ Js.join "/" (map trimDotSlashes (x :: l))).
  apply trimStartSlashes_slash.
Qed.

Lemma join_starts_with_first (x : string) (l : list string) (p : string) :
  x <> "" -> Js.startsWith x p = false -> String.length p = 1 ->
  Js.startsWith (Js.join "/" (x :: l)) p = false.
Proof.
  intros Hne Hx Hp.
  destruct p as [|c [|? ?]]; try discriminate.
  destruct x as [|a x]; [contradiction|].
  rewrite startsWith_char in Hx.
  destruct l as [|y l].
  - cbn [Js.join]. rewrite startsWith_char. exact Hx.
  - change (Js.join "/" (String a x :: y :: l))
      with (String a (x ++ "/" ++ Js.join "/" (y :: l))).
    rewrite startsWith_char. exact Hx.
Qed.

End JoinSlash.

(** X8 (joinSlash).  The result is the segments, each trimmed by
    trimDotSlashes, joined with slashes, and trimmed of its leading slashes;
    it never starts with a slash; and when the first segment is not trimmed
    to the empty string, it is exactly the trimmed segments joined with
    slashes. *)
Theorem joinSlash_joins_trimmed_segments (segments : list string) :
  joinSlash segments = trimStartSlashes (Js.join "/" (map trimDotSlashes segments))
  /\ Js.startsWith (joinSlash segments) "/" = false
  /\ (forall first others,
         segments = first :: others -> trimDotSlashes first <> "" ->
         joinSlash segments = Js.join "/" (map trimDotSlashes segments)).
Proof.
  rewrite joinSlash_join.
  split; [reflexivity|]. split.
  - destruct (leading_split (Js.join "/" (map trimDotSlashes segments))) as (k & t & -> & Ht).
    rewrite trimStartSlashes_strip by exact Ht. exact Ht.
  - intros first others -> Hne.
    apply (trimStartSlashes_strip 0).
    cbn [map]. apply join_starts_with_first; [exact Hne| |reflexivity].
    destruct (trimDotSlashes_split first) as (us & b & k & Hus & -> & Hstart & Hend).
    rewrite trimDotSlashes_strip by assumption.
    apply starts_unit_app_false in Hstart.
    unfold PathShape.starts_unit in Hstart. apply orb_false_iff in Hstart. apply Hstart.
Qed.

Lemma joinSlash_joins_trimmed_segments_witness :
  joinSlash ["file:///helloworld/"; "nyaa.si//"; "./hello.txt"]
  = Js.join "/" (map trimDotSlashes ["file:///helloworld/"; "nyaa.si//"; "./hello.txt"]).
Proof.
  apply (proj2 (proj2 (joinSlash_joins_trimmed_segments
                         ["file:///helloworld/"; "nyaa.si//"; "./hello.txt"]))
           "file:///helloworld/" ["nyaa.si//"; "./hello.txt"]).
  - reflexivity.
  - vm_compute. discriminate.
Defined.

(** ** pathToUnixPath, run by run *)

Section Collapse.

Import RegExp RegExpSem PathShape.

Lemma all_match_backslashes (k : nat) : all_match (Lit backslash) (backslashes k) = true.
Proof. induction k; simpl; [reflexivity|exact IHk]. Qed.

Lemma backslashes_length (k : nat) : String.length (backslashes k) = k.
Proof. induction k; simpl; congruence. Qed.

(** Every string is a run of backslashes followed by a string that does not
    start with a backslash. *)
Lemma backslash_split (s : string) :
  exists k t, s = backslashes k ++ t /\ stops (Lit backslash) t = true.
Proof.
  induction s as [|a s (k & t & -> & Ht)].
  - exists 0, "". split; reflexivity.
  - destruct (Ascii.eqb a backslash) eqn:Ea.
    + apply Ascii.eqb_eq in Ea. subst a. exists (S k), t. split; [reflexivity|exact Ht].
    + exists 0, (String a (backslashes k ++ t)). split; [reflexivity|].
      simpl. unfold backslash in *. rewrite Ea. reflexivity.
Qed.

(** The pattern of backslashes matches a whole run. *)
Lemma windows_match_run (n j : nat) (t : string) :
  stops (Lit backslash) t = true ->
  match_at windows_directory_slash_regex n (backslashes (S j) ++ t)
  = Some (mkMatch n (backslashes (S j)) t []).
Proof.
  intros Ht. apply match_at_consumes_rest. unfold windows_directory_slash_regex.
  apply consumes_plus_chr; [|exact Ht].
  apply nonempty_of_intro; [apply all_match_backslashes|simpl; lia].
Qed.

(** The code units of a match are passed without a search. *)
Lemma replaceAll_from_skip (r : regex) (by_ : string) :
  forall a j n b,
    String.length a = j ->
    replaceAll_from r by_ j n (a ++ b) = replaceAll_from r by_ 0 (n + j) b.
Proof.
  induction a as [|x a IH]; intros j n b Hj; subst j.
  - simpl. rewrite Nat.add_0_r. reflexivity.
  - cbn [String.length]. change (String x a ++ b) with (String x (a ++ b)).
    cbn [replaceAll_from]. rewrite (IH _ (S n) b eq_refl).
    rewrite Nat.add_succ_r. reflexivity.
Qed.

Lemma collapse_run (j : nat) (t : string) :
  stops (Lit backslash) t = true ->
  collapse true (backslashes j ++ t) = collapse false t.
Proof.
  intros Ht. induction j as [|j IH]; [|exact IH].
  destruct t as [|a t]; [reflexivity|].
  simpl in Ht. apply negb_true_iff in Ht. simpl. unfold backslash in *. rewrite Ht.
  reflexivity.
Qed.

Lemma replaceAll_collapse (m : nat) :
  forall s n,
    String.length s <= m ->
    replaceAll_from windows_directory_slash_regex sep 0 n s = collapse false s.
Proof.
  induction m as [|m IH]; intros s n Hs.
  - destruct s; [|simpl in Hs; lia].
    pose proof (windows_match_at n "") as Hm. cbv beta iota in Hm.
    cbn [replaceAll_from]. rewrite Hm. reflexivity.
  - destruct s as [|a s].
    { pose proof (windows_match_at n "") as Hm. cbv beta iota in Hm.
      cbn [replaceAll_from]. rewrite Hm. reflexivity. }
    simpl in Hs.
    destruct (Ascii.eqb a backslash) eqn:Ea.
    + apply Ascii.eqb_eq in Ea. subst a.
      destruct (backslash_split s) as (j & t & -> & Ht).
      assert (Hlen : String.length t <= m).
      { rewrite str_length_app, backslashes_length in Hs. lia. }
      pose proof (windows_match_run n j t Ht) as Hm.
      change (backslashes (S j) ++ t) with (String backslash (backslashes j ++ t)) in Hm.
      cbn [replaceAll_from]. rewrite Hm. cbn [m_text].
      rewrite backslashes_length. cbv beta iota.
      rewrite (replaceAll_from_skip _ _ (backslashes j) j (S n) t (backslashes_length j)).
      rewrite (IH t _ Hlen).
      cbn [collapse]. unfold backslash. rewrite Ascii.eqb_refl.
      rewrite (collapse_run j t Ht). reflexivity.
    + pose proof (windows_match_at n (String a s)) as Hm. cbv beta iota in Hm.
      rewrite Ea in Hm. cbn [replaceAll_from]. rewrite Hm.
      rewrite (IH s (S n)) by lia.
      cbn [collapse]. unfold backslash in Ea. rewrite Ea. reflexivity.
Qed.

Lemma pathToUnixPath_collapse (p : string) : pathToUnixPath p = collapse false p.
Proof. apply (replaceAll_collapse (String.length p)). apply le_n. Qed.

Lemma collapse_app_char (a : string) :
  forall in_run c b,
    Ascii.eqb c backslash = false ->
    collapse in_run (a ++ String c b) = collapse in_run a ++ String c (collapse false b).
Proof.
  induction a as [|x a IH]; intros in_run c b Hc.
  - simpl. unfold backslash in Hc. rewrite Hc. reflexivity.
  - simpl. destruct (Ascii.eqb x "\").
    + destruct in_run; rewrite IH by exact Hc; reflexivity.
    + rewrite IH by exact Hc. reflexivity.
Qed.

Lemma collapse_plain (s b : string) :
  Js.contains backslash s = false -> collapse false (s ++ b) = s ++ collapse false b.
Proof.
  induction s as [|x s IH]; intros H; [reflexivity|].
  simpl in H. apply orb_false_iff in H as [Hx Hs].
  simpl. unfold backslash in Hx. rewrite Hx. rewrite IH by exact Hs. reflexivity.
Qed.

Lemma collapse_join (separator : string) (l : list string) :
  separator <> "" -> Js.contains backslash separator = false ->
  collapse false (Js.join separator l) = Js.join separator (map (collapse false) l).
Proof.
  intros Hne Hsep. destruct separator as [|c sp]; [contradiction|].
  simpl in Hsep. apply orb_false_iff in Hsep as [Hc Hsp].
  induction l as [|x l IH]; [reflexivity|].
  destruct l as [|y l]; [reflexivity|].
  change (Js.join (String c sp) (x :: y :: l))
    with (x ++ String c (sp ++ Js.join (String c sp) (y :: l))).
  rewrite collapse_app_char by exact Hc.
  rewrite collapse_plain by exact Hsp. rewrite IH. reflexivity.
Qed.

End Collapse.

(** X9 (pathToUnixPath).  Every run of backslashes becomes one slash and
    every other code unit is kept: the result is the collapsed path.  It
    holds no backslash, it is never longer than the path, and converting
    once more changes nothing. *)
Theorem pathToUnixPath_collapses_backslash_runs (path : string) :
  pathToUnixPath path = PathShape.collapse false path
  /\ Js.contains backslash (pathToUnixPath path) = false
  /\ String.length (pathToUnixPath path) <= String.length path
  /\ pathToUnixPath (pathToUnixPath path) = pathToUnixPath path.
Proof.
  split; [apply pathToUnixPath_collapse|].
  split; [apply pathToUnixPath_removes_backslash|].
  split.
  - rewrite pathToUnixPath_collapse. generalize false.
    induction path as [|a p IH]; intros in_run; [simpl; lia|].
    simpl. destruct (Ascii.eqb a "\").
    + destruct in_run; [specialize (IH true); lia|specialize (IH true); simpl; lia].
    + specialize (IH false). simpl. lia.
  - apply pathToUnixPath_no_backslash. apply pathToUnixPath_removes_backslash.
Qed.

(** X10 (pathsToCliArg).  The result holds no backslash; and for a separator
    that is not empty and holds no backslash, the result is the converted
    paths, joined with the separator and wrapped in double quotes. *)
Theorem pathsToCliArg_converts_each_path (separator : string) (paths : list string) :
  Js.contains backslash (pathsToCliArg separator paths) = false
  /\ (separator <> "" -> Js.contains backslash separator = false ->
      pathsToCliArg separator paths
      = quote (Js.join separator (map pathToUnixPath paths))).
Proof.
  unfold pathsToCliArg. split.
  - unfold quote. rewrite !contains_app, pathToUnixPath_removes_backslash. reflexivity.
  - intros Hne Hsep. f_equal.
    rewrite pathToUnixPath_collapse, collapse_join by assumption.
    f_equal. apply map_ext. intros p. symmetry. apply pathToUnixPath_collapse.
Qed.

Lemma pathsToCliArg_converts_each_path_witness :
  pathsToCliArg ";" ["./a/b/c.txt"; "C:\Android Studio\sdk\"; "build\libs\"]
  = quote (Js.join ";"
             (map pathToUnixPath ["./a/b/c.txt"; "C:\Android Studio\sdk\"; "build\libs\"])).
Proof.
  apply (proj2 (pathsToCliArg_converts_each_path ";"
                  ["./a/b/c.txt"; "C:\Android Studio\sdk\"; "build\libs\"])).
  - discriminate.
  - reflexivity.
Defined.

(** ** normalizeUnixPath, segment by segment *)

Section NormalizeSegments.

Lemma split_app (c : ascii) (a b : string) :
  Js.split c (a ++ String c b) = (Js.split c a ++ Js.split c b)%list.
Proof.
  induction a as [|x a IH].
  - simpl. rewrite Ascii.eqb_refl. reflexivity.
  - change (String x a ++ String c b) with (String x (a ++ String c b)).
    cbn [Js.split]. rewrite IH.
    destruct (Ascii.eqb x c); [reflexivity|].
    pose proof (split_nonempty c a) as Hne.
    destruct (Js.split c a) as [|seg segs]; [contradiction|]. reflexivity.
Qed.

Lemma normalize_step_dot (st : list string) : normalize_step st "." = st.
Proof. reflexivity. Qed.

Lemma normalize_step_push_pop (st : list string) (x : string) :
  plain_segment x -> normalize_step (normalize_step st x) ".." = st.
Proof.
  intros [Hd Hdd]. apply String.eqb_neq in Hd, Hdd.
  unfold normalize_step at 2. rewrite Hdd, Hd. cbn [negb].
  unfold normalize_step, Js.push. cbn [String.eqb Ascii.eqb Bool.eqb].
  unfold Js.at_last. rewrite rev_app_distr. cbn [rev app Js.strict_neq].
  rewrite Hdd. cbn [negb]. unfold Js.pop. apply removelast_last.
Qed.

(** The array of normalizeUnixPath after the segments of [a], a segment
    [x], and the segments of [b]. *)
Lemma fold_normalize_app (a b : list string) (st : list string) :
  fold_left normalize_step (a ++ b)%list st
  = fold_left normalize_step b (fold_left normalize_step a st).
Proof. apply fold_left_app. Qed.

Lemma normalizeUnixPath_fold (p : string) :
  normalizeUnixPath p
  = Js.join sep (Js.shift (fold_left normalize_step (Js.split sep_char p) [".."])).
Proof. reflexivity. Qed.

End NormalizeSegments.

(** X11 (normalizeUnixPath).  A ["."] segment is dropped wherever it stands,
    and a segment that is neither ["."] nor [".."] is cancelled by a
    [".."] that follows it, the empty segment included: so ["/../b"] is
    normalized like ["b"]. *)
Theorem normalizeUnixPath_cancels_segments (a b : string) :
  normalizeUnixPath (a ++ "/./" ++ b) = normalizeUnixPath (a ++ "/" ++ b)
  /\ normalizeUnixPath ("./" ++ b) = normalizeUnixPath b
  /\ (forall x : string,
         Js.contains "/" x = false -> x <> "." -> x <> ".." ->
         normalizeUnixPath (a ++ "/" ++ x ++ "/../" ++ b) = normalizeUnixPath (a ++ "/" ++ b)
         /\ normalizeUnixPath (x ++ "/../" ++ b) = normalizeUnixPath b)
  /\ normalizeUnixPath ("/../" ++ b) = normalizeUnixPath b.
Proof.
  assert (Hx : forall x : string,
             Js.contains "/" x = false -> x <> "." -> x <> ".." ->
             normalizeUnixPath (a ++ "/" ++ x ++ "/../" ++ b)
             = normalizeUnixPath (a ++ "/" ++ b)
             /\ normalizeUnixPath (x ++ "/../" ++ b) = normalizeUnixPath b).
  { intros x Hx Hd Hdd. rewrite !normalizeUnixPath_fold. unfold sep_char. split.
    - change (a ++ "/" ++ x ++ "/../" ++ b)
        with (a ++ String "/" (x ++ String "/" (".." ++ String "/" b))).
      change (a ++ "/" ++ b) with (a ++ String "/" b).
      rewrite !split_app.
      change (Js.split "/" "..") with [".."].
      rewrite (split_single "/" x Hx).
      rewrite !fold_normalize_app. cbn [fold_left].
      rewrite normalize_step_push_pop by (split; assumption). reflexivity.
    - change (x ++ "/../" ++ b) with (x ++ String "/" (".." ++ String "/" b)).
      rewrite !split_app.
      change (Js.split "/" "..") with [".."].
      rewrite (split_single "/" x Hx).
      rewrite !fold_normalize_app. cbn [fold_left].
      rewrite normalize_step_push_pop by (split; assumption). reflexivity. }
  split; [|split; [|split; [exact Hx|]]].
  - rewrite !normalizeUnixPath_fold. unfold sep_char.
    change (a ++ "/./" ++ b) with (a ++ String "/" ("." ++ String "/" b)).
    change (a ++ "/" ++ b) with (a ++ String "/" b).
    rewrite !split_app. change (Js.split "/" ".") with ["."].
    rewrite !fold_normalize_app. reflexivity.
  - rewrite !normalizeUnixPath_fold. unfold sep_char.
    change ("./" ++ b) with ("." ++ String "/" b).
    rewrite split_app. reflexivity.
  - apply (Hx ""); [reflexivity|discriminate|discriminate].
Qed.

Lemma normalizeUnixPath_cancels_segments_witness :
  normalizeUnixPath ("a/b" ++ "/" ++ "temp" ++ "/../" ++ "c.txt")
  = normalizeUnixPath ("a/b" ++ "/" ++ "c.txt")
  /\ normalizeUnixPath ("temp" ++ "/../" ++ "c.txt") = normalizeUnixPath "c.txt".
Proof.
  apply (proj1 (proj2 (proj2 (normalizeUnixPath_cancels_segments "a/b" "c.txt"))) "temp").
  - reflexivity.
  - discriminate.
  - discriminate.
Defined.

(** X12 (normalizeUnixPath).  The paths that normalizeUnixPath leaves as they
    are, are exactly the paths whose segments are a run of [".."] followed
    by segments that are neither ["."] nor [".."]. *)
Theorem normalizeUnixPath_fixed_points (p : string) :
  normalizeUnixPath p = p
  <-> exists k rest,
        Js.split sep_char p = (repeat ".." k ++ rest)%list
        /\ Forall plain_segment rest.
Proof.
  split.
  - intros Hfix.
    destruct (normalize_output_shape p) as (k & rest & E & Hp & Hn).
    rewrite normalizeUnixPath_fold, E in Hfix.
    destruct (repeat ".." k ++ rest)%list as [|x l] eqn:El.
    + subst p. exists 0, [""]. split; [reflexivity|].
      constructor; [split; discriminate|constructor].
    + exists k, rest. split; [|exact Hp].
      rewrite El, <- Hfix. unfold sep, sep_char.
      apply split_join; [discriminate|].
      rewrite <- El. apply Forall_app. split; [apply repeat_dots_no_sep|exact Hn].
  - intros (k & rest & E & Hp).
    rewrite normalizeUnixPath_fold, E, normalize_segments by exact Hp.
    rewrite <- E. apply join_split.
Qed.

Lemma normalizeUnixPath_fixed_points_witness :
  normalizeUnixPath "../../hello//world.txt" = "../../hello//world.txt".
Proof.
  apply (proj2 (normalizeUnixPath_fixed_points "../../hello//world.txt")).
  exists 2, ["hello"; ""; "world.txt"]. split; [reflexivity|].
  repeat constructor; discriminate.
Defined.

(** X13 (normalizePath).  The result holds no backslash, and it is left as it
    is by pathToUnixPath, by normalizeUnixPath and by normalizePath; on a
    path without backslash normalizePath is normalizeUnixPath. *)
Theorem normalizePath_gives_unix_path (path : string) :
  Js.contains backslash (normalizePath path) = false
  /\ pathToUnixPath (normalizePath path) = normalizePath path
  /\ normalizeUnixPath (normalizePath path) = normalizePath path
  /\ (Js.contains backslash path = false -> normalizePath path = normalizeUnixPath path).
Proof.
  assert (H : Js.contains backslash (normalizePath path) = false).
  { apply normalizeUnixPath_no_backslash, pathToUnixPath_removes_backslash. }
  split; [exact H|]. split; [apply pathToUnixPath_no_backslash, H|].
  split; [apply normalizeUnixPath_idempotent|].
  intros Hp. unfold normalizePath. rewrite pathToUnixPath_no_backslash by exact Hp.
  reflexivity.
Qed.

Lemma normalizePath_gives_unix_path_witness :
  normalizePath "a/./b/../c" = normalizeUnixPath "a/./b/../c".
Proof.
  apply (proj2 (proj2 (proj2 (normalizePath_gives_unix_path "a/./b/../c")))).
  reflexivity.
Defined.

(** ** getUriScheme, prefix by prefix *)

Section SchemeOfPrefix.

Lemma getUriScheme_cases (path : string) :
  getUriScheme path =
    if String.eqb path "" then undefined
    else if Js.startsWith path "npm:" then npm
    else if Js.startsWith path "jsr:" then jsr
    else if Js.startsWith path "data:" then data
    else if Js.startsWith path "http://" then http
    else if Js.startsWith path "https://" then https
    else if Js.startsWith path "file://" then file
    else if Js.startsWith path "./" then relative
    else if Js.startsWith path "../" then relative
    else local.
Proof.
  unfold getUriScheme, uri_protocol_and_scheme_mapping. cbn [scan_mapping].
  destruct (String.eqb path ""); [reflexivity|].
  repeat match goal with
         | |- context [Js.startsWith path ?p] => destruct (Js.startsWith path p)
         end; reflexivity.
Qed.

End SchemeOfPrefix.

(** The case of a path that starts with the protocol of [E]: the path is
    taken apart and every test of a prefix is computed. *)
Ltac by_prefix E :=
  apply startsWith_split in E; destruct E as [[|c t] ->]; cbn;
  repeat split; intros; try reflexivity; try discriminate;
  repeat match goal with
         | H : _ \/ _ |- _ => destruct H; try discriminate
         | H : _ /\ _ |- _ => destruct H
         | H : Forall _ (_ :: _) |- _ => inversion H; clear H; subst
         end;
  repeat match goal with
         | H : _ = false |- _ => vm_compute in H; first [discriminate | clear H]
         end; auto.

(** X14 (getUriScheme).  The scheme is decided by the prefix alone, whatever
    the order of the table: each scheme is returned exactly for the paths
    that start with its protocol, ["relative"] for those that start with
    ["./"] or ["../"], [undefined] for the empty path only, and ["local"]
    exactly for the paths that are not empty and start with no protocol of
    the table. *)
Theorem getUriScheme_by_prefix (path : string) :
  (getUriScheme path = undefined <-> path = "")
  /\ (getUriScheme path = npm <-> Js.startsWith path "npm:" = true)
  /\ (getUriScheme path = jsr <-> Js.startsWith path "jsr:" = true)
  /\ (getUriScheme path = data <-> Js.startsWith path "data:" = true)
  /\ (getUriScheme path = http <-> Js.startsWith path "http://" = true)
  /\ (getUriScheme path = https <-> Js.startsWith path "https://" = true)
  /\ (getUriScheme path = file <-> Js.startsWith path "file://" = true)
  /\ (getUriScheme path = relative
      <-> Js.startsWith path "./" = true \/ Js.startsWith path "../" = true)
  /\ (getUriScheme path = local
      <-> path <> ""
          /\ Forall (fun e => Js.startsWith path (fst e) = false)
               uri_protocol_and_scheme_mapping).
Proof.
  rewrite getUriScheme_cases. unfold uri_protocol_and_scheme_mapping.
  destruct (String.eqb path "") eqn:E0.
  { apply String.eqb_eq in E0. subst path. cbn.
    repeat split; intros; try reflexivity; try discriminate;
      repeat match goal with
             | H : _ \/ _ |- _ => destruct H; try discriminate
             | H : _ /\ _ |- _ => destruct H
             end; try contradiction; auto. }
  apply String.eqb_neq in E0.
  destruct (Js.startsWith path "npm:") eqn:E1; [by_prefix E1|].
  destruct (Js.startsWith path "jsr:") eqn:E2; [by_prefix E2|].
  destruct (Js.startsWith path "data:") eqn:E3; [by_prefix E3|].
  destruct (Js.startsWith path "http://") eqn:E4; [by_prefix E4|].
  destruct (Js.startsWith path "https://") eqn:E5; [by_prefix E5|].
  destruct (Js.startsWith path "file://") eqn:E6; [by_prefix E6|].
  destruct (Js.startsWith path "./") eqn:E7; [by_prefix E7|].
  destruct (Js.startsWith path "../") eqn:E8; [by_prefix E8|].
  repeat split; intros; try reflexivity; try discriminate;
    repeat match goal with
           | H : _ \/ _ |- _ => destruct H; try discriminate
           end; try (subst; contradiction); auto.
  repeat constructor; assumption.
Qed.

Lemma getUriScheme_by_prefix_witness :
  getUriScheme "C:/Users/me/file.txt" = local.
Proof.
  apply (proj2 (proj2 (proj2 (proj2 (proj2 (proj2 (proj2 (proj2
           (getUriScheme_by_prefix "C:/Users/me/file.txt"))))))))).
  split; [discriminate|]. repeat constructor.
Defined.

(** ** The record of parsePackageUrl *)

Section PackageRecord.

Import RegExp RegExpSem PackageShape.

Lemma negset_keeps_out (atoms : list class_atom) (c : ascii) (w : string) :
  In (CChar c) atoms -> all_match (NegSet atoms) w = true -> Js.contains c w = false.
Proof.
  intros Hin. induction w as [|a w IH]; simpl; intros H; [reflexivity|].
  apply andb_true_iff in H as [Ha Hw]. rewrite (IH Hw), orb_false_r.
  apply negb_true_iff in Ha.
  destruct (Ascii.eqb a c) eqn:E; [|reflexivity].
  assert (Hex : existsb (fun x => atom_matches x a) atoms = true).
  { apply existsb_exists. exists (CChar c). split; [exact Hin|exact E]. }
  congruence.
Qed.

Lemma nonempty_of_ne (cs : charset) (w : string) :
  nonempty_of cs w = true -> w <> "" /\ all_match cs w = true.
Proof.
  unfold nonempty_of. intros H. apply andb_true_iff in H as [Hne Hall].
  split; [|exact Hall]. intros ->. discriminate.
Qed.

Lemma well_formed_parts (pp : parts) :
  well_formed pp = true ->
  (p_protocol pp = "npm:" \/ p_protocol pp = "jsr:")
  /\ all_match (Lit "/") (p_slashes pp) = true
  /\ opt_ok (nonempty_of scope_class) (p_scope pp) = true
  /\ nonempty_of pkg_class (p_pkg pp) = true
  /\ opt_ok (nonempty_of scope_class) (p_version pp) = true
  /\ opt_ok pathname_ok (p_pathname pp) = true.
Proof.
  unfold well_formed. intros H.
  repeat (apply andb_true_iff in H; destruct H as [H ?]).
  apply orb_true_iff in H. rewrite !String.eqb_eq in H.
  repeat split; assumption.
Qed.

Lemma text_protocol (pp : parts) (proto t : string) :
  proto = "npm:" \/ proto = "jsr:" ->
  p_protocol pp = "npm:" \/ p_protocol pp = "jsr:" ->
  text pp = proto ++ t ->
  p_protocol pp = proto
  /\ t = p_slashes pp ++ scope_text (p_scope pp) ++ p_pkg pp
         ++ version_text (p_version pp) ++ pathname_text (p_pathname pp).
Proof.
  unfold text. intros [-> | ->] [-> | ->] H; simpl in H; try discriminate;
    (split; [reflexivity|]); injection H as H; symmetry; exact H.
Qed.

(** One more slash behind the protocol gives the same record. *)
Lemma parsePackageUrl_one_more_slash (proto t : string) (pk : PackagePseudoUrl) :
  proto = "npm:" \/ proto = "jsr:" ->
  parsePackageUrl (inl (proto ++ t)) = Ok pk ->
  parsePackageUrl (inl (proto ++ "/" ++ t)) = Ok pk.
Proof.
  intros Hproto H. apply parse_ok_parts in H as (pp & Hwf & Hs & -> & _).
  pose proof (well_formed_parts pp Hwf) as (Hp & Hsl & _).
  destruct (text_protocol pp proto t Hproto Hp (eq_sym Hs)) as (Epp & ->).
  destruct pp as [p sl sc pkg v path]. cbn in *. subst p.
  apply (parse_of_parts (mkParts proto (String "/" sl) sc pkg v path)).
  unfold well_formed in *. cbn in *. exact Hwf.
Qed.

(** One slash less behind the protocol gives the same record. *)
Lemma parsePackageUrl_one_slash_less (proto t : string) (pk : PackagePseudoUrl) :
  proto = "npm:" \/ proto = "jsr:" ->
  parsePackageUrl (inl (proto ++ "/" ++ t)) = Ok pk ->
  parsePackageUrl (inl (proto ++ t)) = Ok pk.
Proof.
  intros Hproto H. apply parse_ok_parts in H as (pp & Hwf & Hs & -> & _).
  pose proof (well_formed_parts pp Hwf) as (Hp & Hsl & Hsc & Hpkg & _).
  destruct (text_protocol pp proto _ Hproto Hp (eq_sym Hs)) as (Epp & Ht).
  destruct pp as [p sl sc pkg v path]. cbn in *. subst p.
  destruct sl as [|a sl].
  - exfalso. simpl in Ht.
    destruct sc as [sc|]; [discriminate|]. simpl in Ht.
    apply nonempty_of_elim in Hpkg as (a & w & -> & Ha & _).
    simpl in Ht. injection Ht as Ha' _. subst a. discriminate.
  - simpl in Hsl. apply andb_true_iff in Hsl as [Ha Hsl].
    simpl in Ht. injection Ht as _ ->.
    apply (parse_of_parts (mkParts proto sl sc pkg v path)).
    unfold well_formed in *. cbn in *. rewrite Ha in Hwf. exact Hwf.
Qed.

End PackageRecord.

(** X15 (parsePackageUrl).  Of every record that parsePackageUrl returns:
    the protocol is ["npm:"] or ["jsr:"] and the input starts with it; the
    package name is not empty and holds neither a slash nor an at-sign; a
    scope and a version, when present, are not empty and hold no slash; the
    pathname starts with a slash; the host is the scope (between ["@"] and
    ["/"]), the package name and the version (behind ["@"]); and the href is
    the protocol, a slash, the host and the pathname. *)
Theorem parsePackageUrl_record_invariants (s : string) (pk : PackagePseudoUrl) :
  parsePackageUrl (inl s) = Ok pk ->
  (protocol pk = "npm:" \/ protocol pk = "jsr:")
  /\ Js.startsWith s (protocol pk) = true
  /\ (pkg pk <> "" /\ Js.contains "/" (pkg pk) = false /\ Js.contains "@" (pkg pk) = false)
  /\ (forall sc, scope pk = Some sc -> sc <> "" /\ Js.contains "/" sc = false)
  /\ (forall v, version pk = Some v -> v <> "" /\ Js.contains "/" v = false)
  /\ Js.startsWith (pathname pk) "/" = true
  /\ host pk = match scope pk with Some sc => "@" ++ sc ++ "/" | None => "" end
               ++ pkg pk
               ++ match version pk with Some v => "@" ++ v | None => "" end
  /\ href pk = protocol pk ++ "/" ++ host pk ++ pathname pk.
Proof.
  intros H. apply parse_ok_parts in H as (pp & Hwf & -> & -> & _).
  apply well_formed_parts in Hwf as (Hproto & _ & Hsc & Hpkg & Hv & Hpath).
  destruct pp as [proto sl sc pkg v path]. cbn in *.
  split; [exact Hproto|]. split; [apply startsWith_app|].
  split.
  { apply nonempty_of_ne in Hpkg as [Hne Hall]. split; [exact Hne|].
    split; (eapply negset_keeps_out; [|exact Hall]; simpl; auto). }
  split.
  { intros x ->. apply nonempty_of_ne in Hsc as [Hne Hall]. split; [exact Hne|].
    eapply negset_keeps_out; [|exact Hall]. simpl. auto. }
  split.
  { intros x ->. apply nonempty_of_ne in Hv as [Hne Hall]. split; [exact Hne|].
    eapply negset_keeps_out; [|exact Hall]. simpl. auto. }
  split.
  { destruct path as [[|a p]|]; [discriminate| |reflexivity].
    simpl in Hpath. apply andb_true_iff in Hpath as [Ha _].
    rewrite startsWith_char. exact Ha. }
  split; reflexivity.
Qed.

Lemma parsePackageUrl_record_invariants_witness :
  parsePackageUrl (inl "jsr:@scope/package@version/pathname/file.ts")
  = Ok (mkPackagePseudoUrl "jsr:/@scope/package@version/pathname/file.ts" "jsr:"
          (Some "scope") "package" (Some "version") "/pathname/file.ts"
          "@scope/package@version")
  /\ Js.startsWith "/pathname/file.ts" "/" = true
  /\ "jsr:/@scope/package@version/pathname/file.ts"
     = "jsr:" ++ "/" ++ "@scope/package@version" ++ "/pathname/file.ts".
Proof.
  split; [reflexivity|].
  pose proof (parsePackageUrl_record_invariants
                "jsr:@scope/package@version/pathname/file.ts"
                (mkPackagePseudoUrl "jsr:/@scope/package@version/pathname/file.ts" "jsr:"
                   (Some "scope") "package" (Some "version") "/pathname/file.ts"
                   "@scope/package@version")
                eq_refl) as (_ & _ & _ & _ & _ & Hpath & _ & Hhref).
  split; [exact Hpath|exact Hhref].
Defined.

(** X16 (parsePackageUrl).  The slashes between the protocol and the rest of a
    package string do not count: whatever their number, the result is the
    same record, or the same error. *)
Theorem parsePackageUrl_ignores_leading_slashes (proto t : string) (k : nat) :
  proto = "npm:" \/ proto = "jsr:" ->
  parsePackageUrl (inl (proto ++ PathShape.slashes k ++ t)) = parsePackageUrl (inl (proto ++ t)).
Proof.
  intros Hproto. induction k as [|k IH]; [reflexivity|].
  rewrite <- IH. change (PathShape.slashes (S k) ++ t) with ("/" ++ PathShape.slashes k ++ t).
  destruct (parsePackageUrl (inl (proto ++ PathShape.slashes k ++ t))) as [pk|e] eqn:E.
  - apply parsePackageUrl_one_more_slash; assumption.
  - destruct (parsePackageUrl (inl (proto ++ "/" ++ PathShape.slashes k ++ t)))
      as [pk'|e'] eqn:E'.
    + apply parsePackageUrl_one_slash_less in E'; [congruence|exact Hproto].
    + apply parsePackageUrl_throws in E, E'. congruence.
Qed.

Lemma parsePackageUrl_ignores_leading_slashes_witness :
  parsePackageUrl (inl ("npm:" ++ PathShape.slashes 3 ++ "@scope/package@version"))
  = parsePackageUrl (inl ("npm:" ++ "@scope/package@version")).
Proof.
  apply (parsePackageUrl_ignores_leading_slashes "npm:" "@scope/package@version" 3).
  left. reflexivity.
Defined.

(** ** Paths under their common directory *)

Section CommonTransform.

Lemma startsWith_drop (p q : string) :
  Js.startsWith p q = true -> q ++ Js.drop (String.length q) p = p.
Proof.
  intros H. apply startsWith_split in H as [t ->]. rewrite drop_app_length. reflexivity.
Qed.

Lemma commonNormalizedUnixPath_prefix (paths : list string) (p : string) :
  In p paths -> Js.startsWith p (commonNormalizedUnixPath paths) = true.
Proof.
  intros Hp. rewrite commonNormalizedUnixPath_trim, slice0_dir.
  eapply startsWith_trans; [apply commonPrefix_each, Hp|apply startsWith_take].
Qed.

Lemma commonNormalizedUnixPath_ends (paths : list string) :
  commonNormalizedUnixPath paths = ""
  \/ Js.endsWithChar (commonNormalizedUnixPath paths) sep_char = true.
Proof.
  rewrite commonNormalizedUnixPath_trim, slice0_dir.
  pose proof (lastIndexOf_spec sep_char (commonPrefix paths)) as (Hb & Hends & _).
  cbn zeta in Hb, Hends.
  destruct (Z_lt_ge_dec (Js.lastIndexOf (commonPrefix paths) sep_char) 0) as [Hneg|Hpos].
  - left.
    replace (Z.to_nat (Js.lastIndexOf (commonPrefix paths) sep_char + 1)) with 0 by lia.
    destruct (commonPrefix paths); reflexivity.
  - right. apply Hends. lia.
Qed.

Lemma map_from_const {A B : Type} (f : A -> nat -> list A -> B) (g : A -> B)
    (whole : list A) :
  (forall x i w, f x i w = g x) ->
  forall arr i, Js.map_from f whole i arr = map g arr.
Proof.
  intros Hf. induction arr as [|x arr IH]; intros i; simpl; [reflexivity|].
  rewrite Hf, IH. reflexivity.
Qed.

Lemma map_from_index {A : Type} (whole : list A) :
  forall arr i, Js.map_from (fun _ j _ => j) whole i arr = seq i (length arr).
Proof. induction arr as [|x arr IH]; intros i; simpl; [|rewrite IH]; reflexivity. Qed.

Lemma map_from_length {A B : Type} (f : A -> nat -> list A -> B) (whole : list A) :
  forall arr i, length (Js.map_from f whole i arr) = length arr.
Proof. induction arr as [|x arr IH]; intros i; simpl; [|rewrite IH]; reflexivity. Qed.

(** commonPathReplace, path by path. *)
Lemma commonPathReplace_map (paths : list string) (new_common_dir : string) :
  commonPathReplace paths new_common_dir
  = map (fun p => ensureEndSlash new_common_dir
                  ++ Js.slice_from (normalizePath p) (String.length (commonPath paths)))
      paths.
Proof.
  unfold commonPathReplace, commonPathTransform, Js.map_indexed. cbv zeta.
  rewrite (map_from_const _
             (fun info : string * string => ensureEndSlash new_common_dir ++ snd info))
    by (intros [common_dir subpath] i w; reflexivity).
  rewrite map_map, map_map. reflexivity.
Qed.

Lemma commonPath_glue (paths : list string) (p : string) :
  In p paths ->
  commonPath paths ++ Js.slice_from (normalizePath p) (String.length (commonPath paths))
  = normalizePath p.
Proof.
  intros Hp. apply startsWith_drop. apply commonNormalizedUnixPath_prefix.
  apply in_map. exact Hp.
Qed.

End CommonTransform.

(** X17 (commonPathTransform).  The callback is given, for each path in its
    turn, the common directory of the normalized paths and a subpath that
    together make up the normalized path, and the index of the path.  (The
    common directory rests on commonPrefix, which is modelled from the
    specification.) *)
Theorem commonPathTransform_takes_paths_apart (paths : list string) :
  commonPathTransform paths (fun info _ _ => fst info ++ snd info) = map normalizePath paths
  /\ commonPathTransform paths (fun info _ _ => fst info)
     = map (fun _ => commonPath paths) paths
  /\ commonPathTransform paths (fun _ index _ => index) = seq 0 (length paths)
  /\ forall (T : Type) (map_fn : string * string -> nat -> list (string * string) -> T),
       length (commonPathTransform paths map_fn) = length paths.
Proof.
  unfold commonPathTransform, Js.map_indexed. cbv zeta.
  split; [|split; [|split]].
  - rewrite (map_from_const _ (fun info : string * string => fst info ++ snd info))
      by reflexivity.
    rewrite !map_map. apply map_ext_in. intros p Hp. cbn [fst snd].
    apply (commonPath_glue paths p Hp).
  - rewrite (map_from_const _ (fun info : string * string => fst info)) by reflexivity.
    rewrite !map_map. reflexivity.
  - rewrite map_from_index. rewrite !length_map. reflexivity.
  - intros T map_fn. rewrite map_from_length, !length_map. reflexivity.
Qed.

(** X18 (commonPathReplace).  There is one result for each path, and each
    starts with the new directory, with the slash that is put behind it when
    it has none.  Replacing the common directory by itself gives the
    normalized paths, when there is a common directory; when there is none,
    replacing by the empty string puts a slash in front of every normalized
    path.  (The common directory rests on commonPrefix, which is modelled
    from the specification.) *)
Theorem commonPathReplace_puts_new_directory (paths : list string) (new_common_dir : string) :
  length (commonPathReplace paths new_common_dir) = length paths
  /\ Forall (fun q => Js.startsWith q (ensureEndSlash new_common_dir) = true)
       (commonPathReplace paths new_common_dir)
  /\ commonPathReplace paths (ensureEndSlash new_common_dir)
     = commonPathReplace paths new_common_dir
  /\ (commonPath paths <> "" ->
      commonPathReplace paths (commonPath paths) = map normalizePath paths)
  /\ (commonPath paths = "" ->
      commonPathReplace paths "" = map (fun p => "/" ++ normalizePath p) paths).
Proof.
  rewrite !commonPathReplace_map.
  split; [apply length_map|]. split; [|split; [|split]].
  - apply Forall_map. apply Forall_forall. intros p _. apply startsWith_app.
  - apply map_ext. intros p. f_equal.
    unfold ensureEndSlash at 1. unfold sep_char. rewrite ensureEndSlash_ends. reflexivity.
  - intros Hne. apply map_ext_in. intros p Hp.
    destruct (commonNormalizedUnixPath_ends (map normalizePath paths)) as [He|He];
      [contradiction|].
    unfold ensureEndSlash. fold (commonPath paths) in He. rewrite He.
    apply commonPath_glue. exact Hp.
  - intros He. apply map_ext. intros p. rewrite He. reflexivity.
Qed.

Lemma commonPathReplace_puts_new_directory_witness :
  commonPathReplace ["C:/Hello/World/a.txt"; "C:\Hello\Earth\b.txt"]
    (commonPath ["C:/Hello/World/a.txt"; "C:\Hello\Earth\b.txt"])
  = map normalizePath ["C:/Hello/World/a.txt"; "C:\Hello\Earth\b.txt"].
Proof.
  apply (proj1 (proj2 (proj2 (proj2
           (commonPathReplace_puts_new_directory
              ["C:/Hello/World/a.txt"; "C:\Hello\Earth\b.txt"] ""))))).
  vm_compute. discriminate.
Defined.

(** ** The parts of a file path *)

Section FilepathParts.

Import RegExp RegExpSem.

(** A search finds a match that exists further on. *)
Lemma exec_from_found (r : regex) (b : string) :
  forall a n,
    match_at r (n + String.length a) b <> None -> exec_from r n (a ++ b) <> None.
Proof.
  induction a as [|x a IH]; intros n H.
  - simpl in *. rewrite Nat.add_0_r in H.
    destruct (match_at r n b) as [res|] eqn:E; [|contradiction].
    rewrite (exec_from_hit r n b res E). discriminate.
  - change (String x a ++ b) with (String x (a ++ b)). cbn [exec_from].
    destruct (match_at r n (String x (a ++ b))); [discriminate|].
    apply IH. cbn [String.length] in H. rewrite Nat.add_succ_r in H. exact H.
Qed.

(** A path that ends with a code unit other than the slash has a file name. *)
Lemma parseNormalizedUnixFilename_nonempty (q : string) (c : ascii) :
  Ascii.eqb c "/" = false -> parseNormalizedUnixFilename (q ++ String c "") <> "".
Proof.
  intros Hc. unfold parseNormalizedUnixFilename.
  assert (Hm : match_at filename_regex (0 + String.length q) (String c "") <> None).
  { assert (Hcs : consumes (R := match_result) filename_regex (0 + String.length q)
                    ("" ++ String c "" ++ "") "" [] []).
    { apply consumes_seq with (c1 := []).
      - apply consumes_opt_none. intros k. simpl. rewrite Hc. reflexivity.
      - apply consumes_seq with (c1 := []); [|apply consumes_eol].
        apply consumes_plus_chr; [|reflexivity].
        apply nonempty_of_intro; [|simpl; lia].
        cbn [all_match]. fold nonslash. rewrite nonslash_matches, Hc. reflexivity. }
    apply match_at_consumes in Hcs. simpl in Hcs. simpl. congruence. }
  apply exec_from_found in Hm. unfold exec.
  destruct (exec_from filename_regex 0 (q ++ String c "")) as [res|] eqn:E;
    [|contradiction].
  apply exec_from_inv in E as (skipped & s' & _ & Hs & _).
  apply filename_regex_sound in Hs as (o & f & _ & -> & Ho & Hne & Hall).
  rewrite (trimStartSlashes_filename o f Ho Hne Hall). exact Hne.
Qed.

Lemma last_code_unit (s : string) :
  s = "" \/ exists q c, s = q ++ String c "".
Proof.
  induction s as [|a s [-> | (q & c & ->)]]; [left; reflexivity| |].
  - right. exists "", a. reflexivity.
  - right. exists (String a q), c. reflexivity.
Qed.

(** A path without file name is empty or ends with a slash. *)
Lemma parseNormalizedUnixFilename_none (p : string) :
  parseNormalizedUnixFilename p = "" -> p = "" \/ Js.endsWithChar p "/" = true.
Proof.
  intros H. destruct (last_code_unit p) as [-> | (q & c & ->)]; [left; reflexivity|].
  right. destruct (Ascii.eqb c "/") eqn:Ec.
  - rewrite endsWithChar_app by discriminate. exact Ec.
  - exfalso. revert H. apply parseNormalizedUnixFilename_nonempty. exact Ec.
Qed.

(** The directory part and the file name of a path. *)
Lemma path_dir_and_filename (p : string) :
  exists d,
    p = d ++ parseNormalizedUnixFilename p
    /\ Js.contains "/" (parseNormalizedUnixFilename p) = false
    /\ (d = "" \/ Js.endsWithChar d "/" = true).
Proof.
  destruct (parseNormalizedUnixFilename_spec p) as (d & Hd & Hns & Hdir).
  exists d. split; [exact Hd|]. split; [exact Hns|].
  destruct (parseNormalizedUnixFilename p) as [|a f] eqn:Ef.
  - rewrite str_app_nil_r in Hd. subst d. apply parseNormalizedUnixFilename_none. exact Ef.
  - apply Hdir. discriminate.
Qed.

Lemma lastIndexOf_absent (c : ascii) (f : string) :
  Js.contains c f = false -> Js.lastIndexOf f c = (-1)%Z.
Proof.
  induction f as [|a f IH]; simpl; intros H; [reflexivity|].
  apply orb_false_iff in H as [Ha Hf]. rewrite (IH Hf), Ha. reflexivity.
Qed.

Lemma lastIndexOf_app_absent (c : ascii) (d f : string) :
  Js.contains c f = false -> Js.lastIndexOf (d ++ f) c = Js.lastIndexOf d c.
Proof.
  intros Hf. induction d as [|a d IH]; simpl.
  - apply lastIndexOf_absent. exact Hf.
  - rewrite IH. reflexivity.
Qed.

Lemma lastIndexOf_ends (c : ascii) (d : string) :
  Js.endsWithChar d c = true -> Js.lastIndexOf d c = (Z.of_nat (String.length d) - 1)%Z.
Proof.
  induction d as [|a d IH]; intros H; [discriminate|].
  destruct d as [|b d].
  - simpl in *. rewrite H. reflexivity.
  - rewrite endsWithChar_cons in H by discriminate. specialize (IH H).
    change (Js.lastIndexOf (String a (String b d)) c)
      with (let i := Js.lastIndexOf (String b d) c in
            if (i <? 0)%Z then (if Ascii.eqb a c then 0%Z else (-1)%Z) else (i + 1)%Z).
    cbv zeta. rewrite IH.
    destruct (Z.of_nat (String.length (String b d)) - 1 <? 0)%Z eqn:E.
    + apply Z.ltb_lt in E. simpl String.length in E. lia.
    + change (String.length (String a (String b d))) with (S (String.length (String b d))).
      lia.
Qed.

(** The common directory of one path is the path up to its last slash. *)
Lemma common_dir_of_one (d f : string) :
  Js.contains "/" f = false -> d = "" \/ Js.endsWithChar d "/" = true ->
  commonNormalizedUnixPath [d ++ f] = d.
Proof.
  intros Hf Hd. rewrite commonNormalizedUnixPath_trim, slice0_dir.
  change (commonPrefix [d ++ f]) with (d ++ f). unfold sep_char.
  rewrite lastIndexOf_app_absent by exact Hf.
  destruct Hd as [-> | Hd].
  - simpl. destruct f; reflexivity.
  - rewrite (lastIndexOf_ends _ _ Hd).
    replace (Z.to_nat (Z.of_nat (String.length d) - 1 + 1)) with (String.length d) by lia.
    apply take_app_length.
Qed.

Lemma slice0_drop_last (x : string) (c : ascii) :
  Js.slice0 (x ++ String c "") (-1) = x.
Proof.
  unfold Js.slice0. cbn [Z.ltb Z.compare]. rewrite str_length_app. cbn [String.length].
  replace (Z.to_nat (Z.max (Z.of_nat (String.length x + 1) + -1) 0))
    with (String.length x) by lia.
  apply take_app_length.
Qed.

Lemma str_app_inv_tail (f : string) :
  forall a b, a ++ f = b ++ f -> a = b.
Proof.
  assert (Hlen : forall x y, String x y ++ f <> f).
  { intros x y H. apply (f_equal String.length) in H.
    rewrite str_length_app in H. simpl in H. lia. }
  induction a as [|x a IH]; intros [|y b] H.
  - reflexivity.
  - exfalso. apply (Hlen y b). symmetry. exact H.
  - exfalso. apply (Hlen x a). exact H.
  - simpl in H. injection H as -> H. f_equal. apply IH. exact H.
Qed.

Lemma parseFilepathInfo_fields (file_path : string) :
  fi_path (parseFilepathInfo file_path) = normalizePath file_path
  /\ fi_filename (parseFilepathInfo file_path)
     = parseNormalizedUnixFilename (normalizePath file_path)
  /\ fi_dirname (parseFilepathInfo file_path)
     = parseNormalizedUnixFilename (Js.slice0 (fi_dirpath (parseFilepathInfo file_path)) (-1)).
Proof.
  unfold parseFilepathInfo. cbv zeta.
  destruct (parseBasenameAndExtname_FromFilename
              (parseNormalizedUnixFilename (normalizePath file_path))).
  repeat split.
Qed.

End FilepathParts.

(** X19 (parseFilepathInfo).  Of every record that parseFilepathInfo returns:
    the path is the normalized path; the directory path followed by the file
    name is the path; the file name holds no slash; the directory path is
    empty or ends with a slash, and it is the common directory that
    commonPath finds for the path alone; a directory path that is not empty
    ends with the directory name and a slash, and the directory name holds no
    slash; and parsing the path of the record gives the record again.
    (commonPath rests on commonPrefix, which is modelled from the
    specification; on one path it is that path.) *)
Theorem parseFilepathInfo_parts (file_path : string) :
  let info := parseFilepathInfo file_path in
  fi_path info = normalizePath file_path
  /\ fi_dirpath info ++ fi_filename info = fi_path info
  /\ Js.contains "/" (fi_filename info) = false
  /\ (fi_dirpath info = "" \/ Js.endsWithChar (fi_dirpath info) "/" = true)
  /\ fi_dirpath info = commonPath [file_path]
  /\ (fi_dirpath info = "" \/ exists d, fi_dirpath info = d ++ fi_dirname info ++ "/")
  /\ Js.contains "/" (fi_dirname info) = false
  /\ parseFilepathInfo (fi_path info) = info.
Proof.
  cbv zeta.
  destruct (parseFilepathInfo_fields file_path) as (Hpath & Hfile & Hdirname).
  pose proof (parseFilepathInfo_invariants file_path) as (Hsum & Hns & _).
  cbv zeta in Hsum, Hns.
  destruct (path_dir_and_filename (normalizePath file_path)) as (d & Hd & _ & Hdir).
  assert (Hdp : fi_dirpath (parseFilepathInfo file_path) = d).
  { apply (str_app_inv_tail (fi_filename (parseFilepathInfo file_path))).
    rewrite Hsum, Hpath, Hfile. exact Hd. }
  split; [exact Hpath|]. split; [exact Hsum|]. split; [exact Hns|].
  split; [rewrite Hdp; exact Hdir|].
  split.
  { rewrite Hdp. unfold commonPath. cbn [map]. rewrite Hd at 1.
    symmetry. apply common_dir_of_one; [|exact Hdir].
    rewrite <- Hfile. exact Hns. }
  split.
  { rewrite Hdirname, Hdp. destruct Hdir as [-> | Hends]; [left; reflexivity|right].
    apply endsWithChar_split in Hends as [x ->].
    rewrite slice0_drop_last.
    destruct (parseNormalizedUnixFilename_spec x) as (d' & Hx & _).
    exists d'. rewrite <- str_app_assoc, <- Hx. reflexivity. }
  split.
  { rewrite Hdirname.
    destruct (parseNormalizedUnixFilename_spec
                (Js.slice0 (fi_dirpath (parseFilepathInfo file_path)) (-1)))
      as (d' & _ & Hno & _).
    exact Hno. }
  rewrite Hpath. unfold parseFilepathInfo. cbv zeta.
  assert (Hidem : normalizePath (normalizePath file_path) = normalizePath file_path).
  { unfold normalizePath.
    rewrite (pathToUnixPath_no_backslash (normalizeUnixPath (pathToUnixPath file_path))).
    - apply normalizeUnixPath_idempotent.
    - apply normalizeUnixPath_no_backslash, pathToUnixPath_removes_backslash. }
  rewrite Hidem. reflexivity.
Qed.

(** X20 (parseNormalizedUnixFilename).  The file name of a path is the last
    of the segments that the slashes of the path separate: it is empty for a
    path that ends with a slash, and the whole path when there is no
    slash. *)
Theorem parseNormalizedUnixFilename_is_last_segment (file_path : string) :
  Js.at_last (Js.split "/" file_path) = Some (parseNormalizedUnixFilename file_path).
Proof.
  destruct (path_dir_and_filename file_path) as (d & Hd & Hns & Hdir).
  rewrite Hd at 1.
  destruct Hdir as [-> | Hends].
  - simpl append. rewrite (split_single "/" _ Hns). reflexivity.
  - apply endsWithChar_split in Hends as [x ->].
    rewrite str_app_assoc. change ("/" ++ parseNormalizedUnixFilename file_path)
      with (String "/" (parseNormalizedUnixFilename file_path)).
    rewrite split_app, (split_single "/" _ Hns).
    unfold Js.at_last. rewrite rev_app_distr. reflexivity.
Qed.

(** ** Base name and extension *)

Section BasenameAndExtname.

Import RegExp RegExpSem.

(** The extension group of the pattern of base names. *)
Local Abbreviation nondot := (NegSet [CChar "."]).
Local Abbreviation ext_group := (Group "ext" (Chr (Lit ".") ;; Plus (Chr nondot))).

Lemma all_nondot_contains (w : string) :
  all_match nondot w = true -> Js.contains "." w = false.
Proof. apply negset_keeps_out. left. reflexivity. Qed.

Lemma contains_all_nondot (w : string) :
  Js.contains "." w = false -> all_match nondot w = true.
Proof.
  induction w as [|a w IH]; simpl; intros H; [reflexivity|].
  apply orb_false_iff in H as [Ha Hw]. rewrite Ha, (IH Hw). reflexivity.
Qed.

(** When the pattern of base names matches, the base name is not empty, and
    either there is no extension and the base name is the file name, or the
    extension is a dot followed by one or more code units other than the
    dot, and the file name is the base name followed by the extension. *)
Lemma basename_regex_shape (f : string) (res : match_result) :
  exec basename_and_extname_regex f = Some res ->
  exists b,
    lookup "basename" (m_groups res) = Some b /\ b <> ""
    /\ ((lookup "ext" (m_groups res) = None /\ f = b)
        \/ exists x, lookup "ext" (m_groups res) = Some ("." ++ x)
                     /\ f = b ++ "." ++ x /\ x <> "" /\ Js.contains "." x = false).
Proof.
  unfold basename_and_extname_regex. rewrite exec_bol. intros H.
  apply match_at_sound in H as (w & rest & c1 & -> & H & ->).
  apply derives_seq_inv in H as (w0 & w1 & c & -> & Hb & H).
  apply derives_bol_inv in Hb as (_ & -> & ->).
  apply derives_seq_inv in H as (b & w2 & c & -> & Hbase & H).
  apply derives_group_inv in Hbase as (c' & -> & Hbase).
  apply derives_rep_chr in Hbase as (-> & _ & Hlen).
  apply derives_seq_inv in H as (we & w3 & c & -> & Hext & He).
  apply derives_eol_inv in He as (-> & -> & ->).
  assert (Hb : b <> "") by (intros ->; simpl in Hlen; lia).
  exists b.
  apply derives_opt in Hext as [[-> ->]|Hext].
  - simpl. rewrite !str_app_nil_r. auto.
  - apply derives_group_inv in Hext as (c' & -> & Hext).
    apply derives_seq_inv in Hext as (wd & wx & c & -> & Hdot & Hx).
    apply derives_lit_inv in Hdot as [-> ->].
    apply derives_rep_chr in Hx as (-> & Hall & Hlenx).
    simpl. rewrite !str_app_nil_r. split; [reflexivity|]. split; [exact Hb|].
    right. exists wx. repeat split.
    + intros ->. simpl in Hlenx. lia.
    + apply all_nondot_contains. exact Hall.
Qed.

(** The last dot of a string stands at one place. *)
Lemma last_dot_unique (b1 : string) :
  forall b2 x1 x2,
    Js.contains "." x1 = false -> Js.contains "." x2 = false ->
    b1 ++ "." ++ x1 = b2 ++ "." ++ x2 -> b1 = b2 /\ x1 = x2.
Proof.
  induction b1 as [|a b1 IH]; intros [|c b2] x1 x2 H1 H2 H; simpl in H.
  - injection H as ->. split; reflexivity.
  - injection H as _ ->. rewrite contains_app in H1. simpl in H1.
    rewrite orb_true_r in H1. discriminate.
  - injection H as _ <-. rewrite contains_app in H2. simpl in H2.
    rewrite orb_true_r in H2. discriminate.
  - injection H as -> H. destruct (IH b2 x1 x2 H1 H2 H) as [-> ->]. split; reflexivity.
Qed.

(** The lazy star returns the first success of what follows. *)
Lemma lazy_star_first {R : Type} (cs : charset) (k : @cont R) :
  forall s j n caps,
    j <= String.length s ->
    all_match cs (Js.take j s) = true ->
    k (n + j) (Js.drop j s) caps <> None ->
    exists i z,
      i <= j /\ lazy_star_chr cs k n s caps = Some z
      /\ k (n + i) (Js.drop i s) caps = Some z.
Proof.
  induction s as [|a s IH]; intros j n caps Hj Hall Hk.
  - simpl in Hj. assert (j = 0) by lia. subst j. simpl in *.
    rewrite Nat.add_0_r in Hk.
    destruct (k n "" caps) as [z|] eqn:E; [|contradiction].
    exists 0, z. rewrite Nat.add_0_r. simpl. rewrite E. auto.
  - cbn [lazy_star_chr].
    destruct (k n (String a s) caps) as [z|] eqn:E.
    + exists 0, z. rewrite Nat.add_0_r. simpl. auto with arith.
    + destruct j as [|j].
      * simpl in Hk. rewrite Nat.add_0_r in Hk. contradiction.
      * simpl in Hall, Hj, Hk. apply andb_true_iff in Hall as [Ha Hall]. rewrite Ha.
        rewrite Nat.add_succ_r in Hk.
        destruct (IH j (S n) caps ltac:(lia) Hall Hk) as (i & z & Hi & Hz & Hki).
        exists (S i), z. split; [lia|]. split; [exact Hz|].
        simpl. rewrite Nat.add_succ_r. exact Hki.
Qed.

Lemma drop_app_le (i : nat) :
  forall a b, i <= String.length a -> Js.drop i (a ++ b) = Js.drop i a ++ b.
Proof.
  induction i as [|i IH]; intros a b Hi.
  - destruct a; destruct b; reflexivity.
  - destruct a as [|x a]; [simpl in Hi; lia|]. simpl. apply IH. simpl in Hi. lia.
Qed.

Lemma matcher_seq {R : Type} (r1 r2 : regex) n s caps (k : @cont R) :
  matcher (Seq r1 r2) n s caps k
  = matcher r1 n s caps (fun n' s' caps' => matcher r2 n' s' caps' k).
Proof. reflexivity. Qed.

Lemma matcher_group {R : Type} (name : string) (r : regex) n s caps (k : @cont R) :
  matcher (Group name r) n s caps k
  = matcher r n s caps (fun n' s' caps' => k n' s' ((name, Js.take (n' - n) s) :: caps')).
Proof. reflexivity. Qed.

(** What follows the base name: the optional extension and the end. *)
Local Abbreviation tail_regex := (Opt ext_group ;; Eol).

(** On what is left behind a base name, the optional extension and the end
    match a dot followed by code units other than the dot. *)
Lemma tail_regex_matches (n : nat) (x : string) (c0 : captures) :
  x <> "" -> Js.contains "." x = false ->
  forall k : @cont match_result,
    (forall n' s' c', k n' s' c' <> None) ->
    matcher tail_regex n ("." ++ x) c0 k <> None.
Proof.
  intros Hne Hx k Hk.
  assert (Hc : consumes (R := match_result) tail_regex n (("." ++ x) ++ "") ""
                 c0 (("ext", "." ++ x) :: reset ["ext"] c0)).
  { apply consumes_seq with (c1 := ("ext", "." ++ x) :: reset ["ext"] c0);
      [|apply consumes_eol].
    apply consumes_opt_some; [discriminate|].
    apply consumes_group.
    apply (consumes_seq (Chr (Lit ".")) (Plus (Chr nondot)) n "." x "" _
             (reset ["ext"] c0) (reset ["ext"] c0)); [apply consumes_lit|].
    apply consumes_plus_chr; [|reflexivity].
    apply nonempty_of_intro; [apply contains_all_nondot, Hx|].
    destruct x; [contradiction|simpl; lia]. }
  destruct (k (n + String.length (("." ++ x) ++ "")) ""
              (("ext", "." ++ x) :: reset ["ext"] c0))
    as [z|] eqn:E; [|exfalso; revert E; apply Hk].
  specialize (Hc k z E). rewrite !str_app_nil_r in Hc. rewrite Hc. discriminate.
Qed.

(** A success of the optional extension and the end on an input that is not
    empty leaves an extension. *)
Lemma tail_regex_ext (n : nat) (s : string) (c0 : captures) (n0 : nat) (s0 : string)
    (z : match_result) :
  s <> "" ->
  matcher tail_regex n s c0
    (fun n' s' caps' => Some (mkMatch n0 (Js.take (n' - n0) s0) s' caps')) = Some z ->
  lookup "ext" (m_groups z) <> None.
Proof.
  intros Hne H. apply matcher_sound in H as (w & rest & c1 & -> & H & Hz).
  injection Hz as <-. cbn [m_groups].
  apply derives_seq_inv in H as (we & w3 & c & -> & Hext & He).
  apply derives_eol_inv in He as (-> & -> & ->).
  apply derives_opt in Hext as [[-> ->]|Hext]; [contradiction Hne; reflexivity|].
  apply derives_group_inv in Hext as (c' & -> & _). simpl. discriminate.
Qed.

(** A file name with a dot that is neither its first nor its last code unit,
    and no dot behind it, has an extension. *)
Lemma basename_regex_finds_ext (a : ascii) (b x : string) :
  x <> "" -> Js.contains "." x = false ->
  all_match Dot (String a (b ++ "." ++ x)) = true ->
  exists res,
    exec basename_and_extname_regex (String a (b ++ "." ++ x)) = Some res
    /\ lookup "ext" (m_groups res) <> None.
Proof.
  intros Hne Hx Hall. unfold basename_and_extname_regex. rewrite exec_bol.
  unfold match_at. rewrite matcher_seq. cbn [matcher Nat.eqb].
  rewrite matcher_lazy_plus_chr.
  cbn [all_match] in Hall. apply andb_true_iff in Hall as [Ha Hall]. rewrite Ha.
  rewrite all_match_app in Hall. apply andb_true_iff in Hall as [Hb _].
  match goal with
  | |- exists res, lazy_star_chr Dot ?k 1 _ [] = Some res /\ _ => set (K := k)
  end.
  destruct (lazy_star_first Dot K (b ++ "." ++ x) (String.length b) 1 [])
    as (i & z & Hi & Hz & Hki).
  - rewrite str_length_app. lia.
  - rewrite take_app_length. exact Hb.
  - rewrite drop_app_length. unfold K.
    apply (tail_regex_matches _ x _ Hne Hx). discriminate.
  - exists z. split; [exact Hz|].
    rewrite drop_app_le in Hki by exact Hi. unfold K in Hki.
    apply tail_regex_ext in Hki; [exact Hki|].
    destruct (Js.drop i b); discriminate.
Qed.

End BasenameAndExtname.

(** X21 (parseBasenameAndExtname_FromFilename).  On a file name without line
    terminator, the extension is what stands from the last dot on, when that
    dot is neither the first nor the last code unit of the name, and the base
    name is what stands before; on every other such name the base name is the
    whole name and the extension is empty.  Whatever the name, the extension
    is empty or a dot followed by one or more code units other than the
    dot. *)
Theorem parseBasenameAndExtname_splits_at_last_dot :
  (forall b x : string,
      b <> "" -> x <> "" -> Js.contains "." x = false ->
      RegExpSem.all_match RegExp.Dot (b ++ "." ++ x) = true ->
      parseBasenameAndExtname_FromFilename (b ++ "." ++ x) = (b, "." ++ x))
  /\ (forall f : string,
         RegExpSem.all_match RegExp.Dot f = true ->
         (forall b x, b <> "" -> x <> "" -> Js.contains "." x = false -> f <> b ++ "." ++ x) ->
         parseBasenameAndExtname_FromFilename f = (f, ""))
  /\ (forall f : string,
         snd (parseBasenameAndExtname_FromFilename f) = ""
         \/ exists x, snd (parseBasenameAndExtname_FromFilename f) = "." ++ x
                      /\ x <> "" /\ Js.contains "." x = false).
Proof.
  split; [|split].
  - intros b x Hb Hne Hx Hall. destruct b as [|a b]; [contradiction|].
    change (String a b ++ "." ++ x) with (String a (b ++ "." ++ x)) in *.
    destruct (basename_regex_finds_ext a b x Hne Hx Hall) as (res & E & Hext).
    unfold parseBasenameAndExtname_FromFilename. cbv zeta. rewrite E.
    apply basename_regex_shape in E as (b0 & -> & _ & [[Hnone _]|(x0 & -> & Hf & _ & Hx0)]);
      [contradiction|].
    change (String a (b ++ "." ++ x)) with (String a b ++ "." ++ x) in Hf.
    destruct (last_dot_unique _ _ _ _ Hx Hx0 Hf) as [<- <-]. reflexivity.
  - intros f Hall Hno. unfold parseBasenameAndExtname_FromFilename. cbv zeta.
    destruct (RegExp.exec basename_and_extname_regex f) as [res|] eqn:E.
    + apply basename_regex_shape in E
        as (b0 & -> & Hb0 & [[-> <-]|(x0 & _ & Hf & Hx0 & Hd0)]); [reflexivity|].
      exfalso. exact (Hno b0 x0 Hb0 Hx0 Hd0 Hf).
    + destruct f as [|a t]; [reflexivity|exfalso].
      revert E. apply basename_regex_matches; [discriminate|assumption].
  - intros f. unfold parseBasenameAndExtname_FromFilename. cbv zeta.
    destruct (RegExp.exec basename_and_extname_regex f) as [res|] eqn:E;
      [|left; reflexivity].
    apply basename_regex_shape in E as (b0 & _ & _ & [[-> _]|(x0 & -> & _ & Hx0 & Hd0)]).
    + left. reflexivity.
    + right. exists x0. repeat split; assumption.
Qed.

Lemma parseBasenameAndExtname_splits_at_last_dot_witness :
  parseBasenameAndExtname_FromFilename (".file.tar" ++ "." ++ "gz")
  = (".file.tar", "." ++ "gz").
Proof.
  apply (proj1 parseBasenameAndExtname_splits_at_last_dot ".file.tar" "gz").
  - discriminate.
  - discriminate.
  - reflexivity.
  - reflexivity.
Defined.

(** ** resolveAsUrl and its base *)

Section ResolveBase.

Context {P : Url.Platform}.

Lemma pathToUnixPath_fixed (path : string) :
  pathToUnixPath (pathToUnixPath path) = pathToUnixPath path.
Proof. apply pathToUnixPath_no_backslash, pathToUnixPath_removes_backslash. Qed.

(** The base is read in the branch of relative paths only. *)
Lemma resolve_with_ignores_base (path : string) (u : Url.URL) :
  getUriScheme (pathToUnixPath path) <> relative ->
  resolve_with path (Some u) = resolve_with path None.
Proof.
  intros H. unfold resolve_with, resolveAsUrl_body. cbv zeta. cbn [bind].
  destruct (getUriScheme (pathToUnixPath path)); try reflexivity. contradiction.
Qed.

(** Without a base, a relative path reaches the URL constructor as it is,
    and is refused. *)
Lemma resolve_relative_no_base (path : string) :
  getUriScheme (pathToUnixPath path) = relative ->
  resolveAsUrl path None = Throw InvalidUrl.
Proof.
  intros H. rewrite resolveAsUrl_none. unfold resolve_with, resolveAsUrl_body.
  cbv zeta. cbn [bind]. rewrite H.
  apply relative_begins_with_dot in H as [rest ->].
  unfold new_URL. rewrite URL_new_dot. reflexivity.
Qed.

Lemma resolve_empty_path (base_url : option Url.URL) :
  resolve_with "" base_url = Throw InvalidUrl.
Proof. destruct base_url; reflexivity. Qed.

End ResolveBase.

(** X22 (resolveAsUrl).  The base counts for relative paths only: for every
    other path, a base that is a URL object, or a string that resolves, gives
    what no base gives.  A base string that does not resolve fails the call
    with its own error, whatever the path; so does, with the error of the URL
    constructor, a base string that is relative only once its backslashes
    are turned into slashes, which the check of the base scheme lets pass.
    The empty path is refused by the URL constructor, with or without a
    base. *)
Theorem resolveAsUrl_base_only_for_relative_paths {P : Url.Platform} :
  (forall (path : string) (u : Url.URL),
      getUriScheme (pathToUnixPath path) <> relative ->
      resolveAsUrl path (Some (inr u)) = resolveAsUrl path None)
  /\ (forall (path b : string) (u : Url.URL),
         getUriScheme b <> data -> getUriScheme b <> relative ->
         resolveAsUrl b None = Ok u ->
         getUriScheme (pathToUnixPath path) <> relative ->
         resolveAsUrl path (Some (inl b)) = resolveAsUrl path None)
  /\ (forall (path b : string) (e : error),
         getUriScheme b <> data -> getUriScheme b <> relative ->
         resolveAsUrl b None = Throw e ->
         resolveAsUrl path (Some (inl b)) = Throw e)
  /\ (forall path b : string,
         getUriScheme b <> data -> getUriScheme b <> relative ->
         getUriScheme (pathToUnixPath b) = relative ->
         resolveAsUrl path (Some (inl b)) = Throw InvalidUrl)
  /\ (forall u : Url.URL,
         resolveAsUrl "" (Some (inr u)) = Throw InvalidUrl
         /\ resolveAsUrl "" None = Throw InvalidUrl).
Proof.
  assert (Hguard : forall b,
             getUriScheme b <> data -> getUriScheme b <> relative ->
             scheme_eqb (getUriScheme b) data || scheme_eqb (getUriScheme b) relative = false).
  { intros b Hd Hr.
    destruct (scheme_eqb (getUriScheme b) data || scheme_eqb (getUriScheme b) relative)
      eqn:E; [|reflexivity].
    apply unsupported_base_check in E as [E|E]; contradiction. }
  split; [|split; [|split; [|split]]].
  - intros path u H. rewrite resolveAsUrl_object, resolveAsUrl_none.
    apply resolve_with_ignores_base. exact H.
  - intros path b u Hd Hr Hb H.
    rewrite resolveAsUrl_string, (Hguard b Hd Hr), Hb. cbn [bind].
    rewrite resolveAsUrl_none. apply resolve_with_ignores_base. exact H.
  - intros path b e Hd Hr Hb.
    rewrite resolveAsUrl_string, (Hguard b Hd Hr), Hb. reflexivity.
  - intros path b Hd Hr Hrel.
    rewrite resolveAsUrl_string, (Hguard b Hd Hr), (resolve_relative_no_base b Hrel).
    reflexivity.
  - intros u. rewrite resolveAsUrl_object, resolveAsUrl_none, !resolve_empty_path.
    split; reflexivity.
Qed.

Lemma resolveAsUrl_base_only_for_relative_paths_witness :
  resolveAsUrl (P := Url.refusing_platform) "npm:react/file.txt"
    (Some (inr (Url.mkURL "npm" "" "" None None (Url.Segments ["lib"; ""]) None None)))
  = resolveAsUrl (P := Url.refusing_platform) "npm:react/file.txt" None
  /\ resolveAsUrl (P := Url.refusing_platform) "npm:react/file.txt" (Some (inl ".\lib\"))
     = Throw InvalidUrl.
Proof.
  split.
  - apply (proj1 (resolveAsUrl_base_only_for_relative_paths (P := Url.refusing_platform))).
    vm_compute. discriminate.
  - apply (proj1 (proj2 (proj2 (proj2
             (resolveAsUrl_base_only_for_relative_paths (P := Url.refusing_platform)))))).
    + vm_compute. discriminate.
    + vm_compute. discriminate.
    + reflexivity.
Defined.

(** X23 (resolveAsUrl).  The backslashes of the path do not count: a path and
    its conversion by pathToUnixPath are resolved alike, whatever the
    base. *)
Theorem resolveAsUrl_converts_backslashes {P : Url.Platform}
    (path : string) (base : option (string + Url.URL)) :
  resolveAsUrl (pathToUnixPath path) base = resolveAsUrl path base.
Proof.
  unfold resolveAsUrl, resolveAsUrl_body. cbv zeta.
  rewrite pathToUnixPath_fixed. reflexivity.
Qed.

(** X24 (resolveAsUrl).  On a path of the npm or jsr scheme, without a base
    or with a base that is a URL object, resolveAsUrl never raises the error
    of the URL constructor: it returns a URL of the protocol of the package
    when parsePackageUrl accepts the path, and raises the error of
    parsePackageUrl when it does not. *)
Theorem resolveAsUrl_package_path_outcomes {P : Url.Platform}
    (path : string) (base_url : option Url.URL) :
  getUriScheme (pathToUnixPath path) = npm \/ getUriScheme (pathToUnixPath path) = jsr ->
  let base := match base_url with Some u => Some (inr u) | None => None end in
  (forall pk,
      parsePackageUrl (inl (pathToUnixPath path)) = Ok pk ->
      exists u, resolveAsUrl path base = Ok u /\ Url.protocol u = protocol pk)
  /\ (forall e,
         parsePackageUrl (inl (pathToUnixPath path)) = Throw e ->
         resolveAsUrl path base = Throw InvalidPackageUrl)
  /\ resolveAsUrl path base <> Throw InvalidUrl.
Proof.
  intros Hs. cbv zeta.
  assert (Hbase : resolveAsUrl path
                    (match base_url with Some u => Some (inr u) | None => None end)
                  = resolveAsUrl path None).
  { destruct base_url as [u|]; [|reflexivity].
    rewrite resolveAsUrl_object, resolveAsUrl_none.
    apply resolve_with_ignores_base. destruct Hs as [-> | ->]; discriminate. }
  rewrite Hbase.
  assert (Hok : forall pk,
             parsePackageUrl (inl (pathToUnixPath path)) = Ok pk ->
             exists u, resolveAsUrl path None = Ok u /\ Url.protocol u = protocol pk).
  { intros pk Hpk.
    destruct (resolveAsUrl_package_string path pk Hs Hpk) as (u & Hu & Hproto & _).
    exists u. split; assumption. }
  assert (Hthrow : forall e,
             parsePackageUrl (inl (pathToUnixPath path)) = Throw e ->
             resolveAsUrl path None = Throw InvalidPackageUrl).
  { intros e He. pose proof (parsePackageUrl_throws _ _ He) as ->.
    rewrite resolveAsUrl_none. unfold resolve_with, resolveAsUrl_body. cbv zeta. cbn [bind].
    destruct Hs as [-> | ->]; rewrite He; reflexivity. }
  split; [exact Hok|]. split; [exact Hthrow|].
  destruct (parsePackageUrl (inl (pathToUnixPath path))) as [pk|e] eqn:E.
  - destruct (Hok pk eq_refl) as (u & -> & _). discriminate.
  - rewrite (Hthrow e eq_refl). discriminate.
Qed.

Lemma resolveAsUrl_package_path_outcomes_witness :
  resolveAsUrl (P := Url.refusing_platform) "npm:@scope/" None = Throw InvalidPackageUrl.
Proof.
  apply (proj1 (proj2 (resolveAsUrl_package_path_outcomes (P := Url.refusing_platform)
                         "npm:@scope/" None (or_introl eq_refl)))
           InvalidPackageUrl).
  reflexivity.
Defined.


(** ** The common directory is a normalized path *)

Section CommonNormalized.

(** The segments of a normalized path. *)
Lemma normalized_segments (p : string) :
  exists k rest,
    Js.split sep_char (normalizeUnixPath p) = (repeat ".." k ++ rest)%list
    /\ Forall plain_segment rest.
Proof.
  unfold normalizeUnixPath.
  destruct (normalize_output_shape p) as (k & rest & E & Hp & Hn). rewrite E.
  destruct (repeat ".." k ++ rest)%list as [|x l] eqn:El.
  - exists 0, [""]. split; [reflexivity|].
    constructor; [split; discriminate|constructor].
  - exists k, rest. split; [|assumption].
    unfold sep. rewrite split_join; [symmetry; assumption|discriminate|].
    rewrite <- El. apply Forall_app; split; [apply repeat_dots_no_sep|assumption].
Qed.

(** A path of such segments is left as it is. *)
Lemma normalizeUnixPath_keeps (p : string) (k : nat) (rest : list string) :
  Js.split sep_char p = (repeat ".." k ++ rest)%list -> Forall plain_segment rest ->
  normalizeUnixPath p = p.
Proof.
  intros E Hp. rewrite normalizeUnixPath_fold, E, normalize_segments by exact Hp.
  rewrite <- E. apply join_split.
Qed.

(** The first segments of such a list have the same shape. *)
Lemma segments_prefix_shape (k : nat) :
  forall (l1 l2 rest : list string),
    (l1 ++ l2)%list = (repeat ".." k ++ rest)%list -> Forall plain_segment rest ->
    exists k' rest', l1 = (repeat ".." k' ++ rest')%list /\ Forall plain_segment rest'.
Proof.
  induction k as [|k IH]; intros l1 l2 rest E Hp.
  - simpl in E. subst rest. apply Forall_app in Hp as [Hp _].
    exists 0, l1. split; [reflexivity|exact Hp].
  - destruct l1 as [|x l1].
    + exists 0, []. split; [reflexivity|constructor].
    + simpl in E. injection E as -> E.
      destruct (IH l1 l2 rest E Hp) as (k' & rest' & -> & Hp').
      exists (S k'), rest'. split; [reflexivity|exact Hp'].
Qed.

Lemma no_dot_segment (k : nat) (rest l1 l2 : list string) :
  Forall plain_segment rest -> (repeat ".." k ++ rest)%list <> (l1 ++ "." :: l2)%list.
Proof.
  intros Hp E.
  assert (Hin : In "." (repeat ".." k ++ rest)%list).
  { rewrite E. apply in_or_app. right. left. reflexivity. }
  apply in_app_or in Hin as [Hin|Hin].
  - apply repeat_spec in Hin. discriminate.
  - rewrite Forall_forall in Hp. apply (proj1 (Hp _ Hin)). reflexivity.
Qed.

Lemma normalizePath_no_backslash (p : string) :
  Js.contains backslash (normalizePath p) = false.
Proof. apply normalizeUnixPath_no_backslash, pathToUnixPath_removes_backslash. Qed.

(** A directory prefix of a normalized path is a normalized path. *)
Lemma normalized_directory_prefix (p d r : string) :
  normalizePath p = d ++ r -> d = "" \/ Js.endsWithChar d "/" = true ->
  normalizePath d = d.
Proof.
  intros E Hd.
  assert (Hb : Js.contains backslash d = false).
  { pose proof (normalizePath_no_backslash p) as H. rewrite E, contains_app in H.
    apply orb_false_iff in H. apply H. }
  unfold normalizePath. rewrite (pathToUnixPath_no_backslash d Hb).
  destruct Hd as [-> | Hd]; [reflexivity|].
  apply endsWithChar_split in Hd as [c ->].
  destruct (normalized_segments (pathToUnixPath p)) as (k & rest & Hs & Hp).
  fold (normalizePath p) in Hs. rewrite E, str_app_assoc in Hs.
  change ("/" ++ r) with (String "/" r) in Hs. unfold sep_char in Hs.
  rewrite split_app in Hs.
  destruct (segments_prefix_shape k _ _ rest Hs Hp) as (k' & rest' & Hc & Hp').
  apply (normalizeUnixPath_keeps _ k' (rest' ++ [""])%list).
  - unfold sep_char. rewrite split_app, Hc, <- app_assoc. reflexivity.
  - apply Forall_app. split; [exact Hp'|].
    constructor; [split; discriminate|constructor].
Qed.

End CommonNormalized.

(** X25 (commonPath).  The common directory that commonPath returns is a
    normalized path: normalizePath leaves it as it is, and so it is the
    common directory of itself.  (commonPrefix is modelled from the
    specification.) *)
Theorem commonPath_is_normalized (paths : list string) :
  normalizePath (commonPath paths) = commonPath paths
  /\ commonPath [commonPath paths] = commonPath paths.
Proof.
  assert (Hn : normalizePath (commonPath paths) = commonPath paths).
  { destruct paths as [|p paths]; [reflexivity|].
    pose proof (commonNormalizedUnixPath_prefix (map normalizePath (p :: paths))
                  (normalizePath p) (or_introl eq_refl)) as Hpre.
    apply startsWith_split in Hpre as [r Hr].
    apply (normalized_directory_prefix p _ r Hr).
    apply commonNormalizedUnixPath_ends. }
  split; [exact Hn|].
  unfold commonPath at 1. cbn [map]. rewrite Hn.
  rewrite <- (str_app_nil_r (commonPath paths)) at 1.
  apply common_dir_of_one; [reflexivity|].
  apply (commonNormalizedUnixPath_ends (map normalizePath paths)).
Qed.

(** X26 (commonPathTransform).  No subpath that the callback is given starts
    with a dot-slash.  (commonPrefix is modelled from the specification.) *)
Theorem commonPathTransform_subpaths_without_dot_slash (paths : list string) :
  Forall (fun subpath => Js.startsWith subpath "./" = false)
    (commonPathTransform paths (fun info _ _ => snd info)).
Proof.
  unfold commonPathTransform, Js.map_indexed. cbv zeta.
  rewrite (map_from_const _ (fun info : string * string => snd info)) by reflexivity.
  rewrite !map_map. cbn [snd]. apply Forall_map. apply Forall_forall. intros p Hp.
  destruct (Js.startsWith _ "./") eqn:E; [exfalso|reflexivity].
  apply startsWith_split in E as [r Hr].
  pose proof (commonPath_glue paths p Hp) as Hg. unfold commonPath in Hg.
  rewrite Hr in Hg.
  destruct (normalized_segments (pathToUnixPath p)) as (k & rest & Hs & Hpl).
  fold (normalizePath p) in Hs. rewrite <- Hg in Hs. unfold sep_char in Hs.
  destruct (commonNormalizedUnixPath_ends (map normalizePath paths)) as [Hd|Hd].
  - rewrite Hd in Hs. change ("" ++ "./" ++ r) with ("." ++ String "/" r) in Hs.
    rewrite split_app in Hs. symmetry in Hs.
    exact (no_dot_segment k rest [] _ Hpl Hs).
  - apply endsWithChar_split in Hd as [c Hc]. rewrite Hc in Hs.
    rewrite str_app_assoc in Hs.
    change (String sep_char "" ++ "./" ++ r) with (String "/" ("." ++ String "/" r)) in Hs.
    rewrite !split_app in Hs. symmetry in Hs.
    exact (no_dot_segment k rest _ _ Hpl Hs).
Qed.

(** * The examples of the documentation

    The assertions of the doc comments, evaluated on the embedding. *)

Section DocumentedExamples.

Context {P : Url.Platform}.

Example doc_getUriScheme :
  map getUriScheme
    ["C:/Users/me/path/to/file.txt"; "~/path/to/file.txt"; "/usr/me/path/to/file.txt";
     "./path/to/file.txt"; "../path/to/file.txt"; "file:///c://users/me/path/to/file.txt";
     "jsr:@user/path/to/file"; "jsr:/@user/path/to/file"; "npm:lib/path/to/file";
     "npm:/@scope/lib/path/to/file"; "data:text/plain;charset=utf-8;base64,aGVsbG8=";
     "http://google.com/style.css"; "https://google.com/style.css"]
  = [local; local; local; relative; relative; file; jsr; jsr; npm; npm; data; http; https].
Proof. reflexivity. Qed.

Example doc_parsePackageUrl_1 :
  parsePackageUrl (inl "jsr:@scope/package@version/pathname/file.ts")
  = Ok (mkPackagePseudoUrl "jsr:/@scope/package@version/pathname/file.ts" "jsr:"
          (Some "scope") "package" (Some "version") "/pathname/file.ts"
          "@scope/package@version").
Proof. reflexivity. Qed.

Example doc_parsePackageUrl_2 :
  parsePackageUrl (inl "jsr:package@version/pathname/")
  = Ok (mkPackagePseudoUrl "jsr:/package@version/pathname/" "jsr:"
          None "package" (Some "version") "/pathname/" "package@version").
Proof. reflexivity. Qed.

Example doc_parsePackageUrl_3 :
  parsePackageUrl (inl "npm:///@scope/package@version")
  = Ok (mkPackagePseudoUrl "npm:/@scope/package@version/" "npm:"
          (Some "scope") "package" (Some "version") "/" "@scope/package@version").
Proof. reflexivity. Qed.

Example doc_parsePackageUrl_4 :
  parsePackageUrl (inl "npm:package")
  = Ok (mkPackagePseudoUrl "npm:/package/" "npm:" None "package" None "/" "package").
Proof. reflexivity. Qed.

Example doc_parsePackageUrl_throws :
  map (fun s => parsePackageUrl (inl s))
    ["npm:@scope/"; "npm:@scope//package"; "pnpm:@scope/package@version"]
  = [Throw InvalidPackageUrl; Throw InvalidPackageUrl; Throw InvalidPackageUrl].
Proof. reflexivity. Qed.

Example doc_trimStartSlashes :
  map trimStartSlashes
    ["///helloworld/nyaa.si//"; "file:///helloworld/nyaa.si//"; ".///../helloworld/nyaa.si//"]
  = ["helloworld/nyaa.si//"; "file:///helloworld/nyaa.si//"; ".///../helloworld/nyaa.si//"].
Proof. reflexivity. Qed.

Example doc_normalizeUnixPath :
  map normalizeUnixPath
    ["../helloworld/./temp/../././/hello.txt"; "./././hello/world/.././././//file.txt";
     "///hello/world/.././././//file.txt"; "file:///./././hello/world/.././././file.txt"]
  = ["../helloworld//hello.txt"; "hello///file.txt"; "///hello///file.txt";
     "file:///hello/file.txt"].
Proof. reflexivity. Qed.

Example doc_normalizePath :
  map normalizePath
    ["../helloworld/./temp/../././/hello.txt"; "./.\.\hello\world\.././.\.///file.txt";
     "file:///./././hello\world/..\././.\file.txt"]
  = ["../helloworld//hello.txt"; "hello///file.txt"; "file:///hello/file.txt"].
Proof. reflexivity. Qed.

Example doc_pathToUnixPath :
  map pathToUnixPath ["C:\Users/my name\file.txt"; "~/path/to/file.txt"]
  = ["C:/Users/my name/file.txt"; "~/path/to/file.txt"].
Proof. reflexivity. Qed.

Example doc_commonNormalizedUnixPath :
  map commonNormalizedUnixPath
    [ ["C:/Hello/World/This/Is/An/Example/Bla.cs"; "C:/Hello/World/This/Is/Not/An/Example/";
       "C:/Hello/Earth/Bla/Bla/Bla"];
      ["C:/Hello/World/This/Is/An/Example/Bla.cs"; "C:/Hello/World/This/is/an/example/bla.cs";
       "C:/Hello/World/This/Is/Not/An/Example/"];
      ["C:/Hello/World/Users/This/Is/An/Example/Bla.cs";
       "C:/Hello/World Users/This/Is/An/example/bla.cs";
       "C:/Hello/World-Users/This/Is/Not/An/Example/"];
      ["C:/Hello/World/Users/This/Is/An/Example/Bla.cs"; "C:/Hello/World/"; "C:/Hello/World"];
      ["C:/Hello/World/"; "/C:/Hello/World/"; "C:/Hello/World/"] ]
  = ["C:/Hello/"; "C:/Hello/World/This/"; "C:/Hello/"; "C:/Hello/"; ""].
Proof. reflexivity. Qed.

Example doc_commonPath :
  map commonPath
    [ ["C:/Hello/World/This/Is/An/Example/Bla.cs"; "C:\Hello\World\This\Is\Not/An/Example/";
       "C:/Hello/Earth/Bla/Bla/Bla"];
      ["C:/Hello/World/This/Used/to-be-an/example/../../../Is/An/Example/Bla.cs";
       "./C:/Hello/World/This/Is/an/example/bla.cs"; "C:/Hello/World/This/Is/Not/An/Example/"];
      ["\C:/Hello/World/Users/This/Is/An/Example/Bla.cs";
       "/C:\Hello\World Users\This\Is/An\example/bla.cs"; "/C:/Hello/World"] ]
  = ["C:/Hello/"; "C:/Hello/World/This/Is/"; "/C:/Hello/"].
Proof. reflexivity. Qed.

Example doc_parseNormalizedUnixFilename :
  map parseNormalizedUnixFilename
    ["/home/user/docs"; "/home/user/docs.md"; "/home/user/.bashrc"; "var/log.txt"; "log";
     "/home/user/.config/"; "var/log/"; ""; "/"; "///"]
  = ["docs"; "docs.md"; ".bashrc"; "log.txt"; "log"; ""; ""; ""; ""; ""].
Proof. reflexivity. Qed.

Example doc_parseBasenameAndExtname :
  map parseBasenameAndExtname_FromFilename
    ["docs"; "docs."; "docs.md"; ".bashrc"; "my file.tar.gz"; ""; "."; ".."; "...hello"]
  = [("docs", ""); ("docs.", ""); ("docs", ".md"); (".bashrc", ""); ("my file.tar", ".gz");
     ("", ""); (".", ""); ("..", ""); ("..", ".hello")].
Proof. reflexivity. Qed.

Example doc_parseFilepathInfo :
  map parseFilepathInfo
    ["/home\user/docs"; "home\user/docs/"; "/home/xyz/.././././user/.bashrc.";
     "C:\home\user/.file.tar.gz"; "/home/user///file.txt"]
  = [ mkFilepathInfo "/home/user/docs" "/home/user/" "user" "docs" "docs" "";
      mkFilepathInfo "home/user/docs/" "home/user/docs/" "docs" "" "" "";
      mkFilepathInfo "/home/user/.bashrc." "/home/user/" "user" ".bashrc." ".bashrc." "";
      mkFilepathInfo "C:/home/user/.file.tar.gz" "C:/home/user/" "user" ".file.tar.gz"
        ".file.tar" ".gz";
      mkFilepathInfo "/home/user///file.txt" "/home/user///" "" "file.txt" "file" ".txt" ].
Proof. reflexivity. Qed.

Example doc_resolveAsUrl_packages :
  resolveAsUrl "npm:react/file.txt" None = new_URL "npm:/react/file.txt" None
  /\ resolveAsUrl "npm:@facebook/react" None = new_URL "npm:/@facebook/react/" None
  /\ resolveAsUrl "./to/file.txt" (Some (inl "npm:react/"))
     = new_URL "npm:/react/to/file.txt" None
  /\ resolveAsUrl "jsr:@scope/my-lib/file.txt" None
     = new_URL "jsr:/@scope/my-lib/file.txt" None
  /\ resolveAsUrl "./to/file.txt" (Some (inl "jsr:///@scope/my-lib"))
     = new_URL "jsr:/@scope/my-lib/to/file.txt" None
  /\ resolveAsUrl "./to/file.txt" (Some (inl "jsr:///@scope/my-lib/assets"))
     = new_URL "jsr:/@scope/my-lib/to/file.txt" None.
Proof. repeat split. Qed.

Example doc_resolveAsUrl_throws :
  resolveAsUrl "./to/file.txt"
    (Some (inl "data:text/plain;charset=utf-8;base64,aGVsbG8=")) = Throw UnsupportedBaseScheme
  /\ resolveAsUrl "./to/file.txt" (Some (inl "./path/")) = Throw UnsupportedBaseScheme
  /\ resolveAsUrl "./to/file.txt" None = Throw InvalidUrl.
Proof. repeat split. Qed.

Example doc_trimEndSlashes :
  map trimEndSlashes
    ["///helloworld/nyaa.si//"; "file:///helloworld/nyaa.si//hello.txt";
     ".///../helloworld/nyaa.si//"]
  = ["///helloworld/nyaa.si"; "file:///helloworld/nyaa.si//hello.txt";
     ".///../helloworld/nyaa.si"].
Proof. reflexivity. Qed.

Example doc_trimSlashes :
  map trimSlashes
    ["///helloworld/nyaa.si//"; "file:///helloworld/nyaa.si//hello.txt";
     ".///../helloworld/nyaa.si//"]
  = ["helloworld/nyaa.si"; "file:///helloworld/nyaa.si//hello.txt";
     ".///../helloworld/nyaa.si"].
Proof. reflexivity. Qed.

Example doc_ensureStartSlash :
  map ensureStartSlash
    ["helloworld/nyaa.si"; "file:///helloworld/nyaa.si//hello.txt";
     ".///../helloworld/nyaa.si/"; "///../helloworld/nyaa.si/"]
  = ["/helloworld/nyaa.si"; "/file:///helloworld/nyaa.si//hello.txt";
     "/.///../helloworld/nyaa.si/"; "///../helloworld/nyaa.si/"].
Proof. reflexivity. Qed.

Example doc_ensureStartDotSlash :
  map ensureStartDotSlash
    ["helloworld/nyaa.si"; "file:///helloworld/nyaa.si//hello.txt";
     ".///../helloworld/nyaa.si/"; "///../helloworld/nyaa.si/"]
  = ["./helloworld/nyaa.si"; "./file:///helloworld/nyaa.si//hello.txt";
     ".///../helloworld/nyaa.si/"; ".///../helloworld/nyaa.si/"].
Proof. reflexivity. Qed.

Example doc_ensureEndSlash :
  map ensureEndSlash
    ["///helloworld/nyaa.si//"; "file:///helloworld/nyaa.si//hello.txt";
     ".///../helloworld/nyaa.si/"]
  = ["///helloworld/nyaa.si//"; "file:///helloworld/nyaa.si//hello.txt/";
     ".///../helloworld/nyaa.si/"].
Proof. reflexivity. Qed.

Example doc_trimDotSlashes :
  map trimDotSlashes
    ["///helloworld/nyaa.si//"; "file:///helloworld/nyaa.si//hello.txt";
     ".///../helloworld/nyaa.si//"; "//./././///././//../helloworld/nyaa.si//"]
  = ["helloworld/nyaa.si"; "file:///helloworld/nyaa.si//hello.txt";
     "../helloworld/nyaa.si"; "../helloworld/nyaa.si"].
Proof. reflexivity. Qed.

Example doc_joinSlash :
  map joinSlash
    [ ["///helloworld//"; "nyaa.si//"];
      ["file:///helloworld/"; "nyaa.si//"; "./hello.txt"];
      [".///../helloworld/nyaa.si"; "hello.txt"];
      ["//./././///././//../helloworld/nyaa.si//"; "///.////././.././hello.txt"] ]
  = ["helloworld/nyaa.si"; "file:///helloworld/nyaa.si/hello.txt";
     "../helloworld/nyaa.si/hello.txt"; "../helloworld/nyaa.si/.././hello.txt"].
Proof. reflexivity. Qed.

Example doc_pathsToCliArg :
  pathsToCliArg ";" ["./a/b/c.txt"; "C:\Android Studio\sdk\"; "build\libs\"]
  = quote "./a/b/c.txt;C:/Android Studio/sdk/;build/libs/"
  /\ pathsToCliArg ":" ["./a/b/c.txt"; "~/Android Studio/sdk/"; "build/libs/"]
     = quote "./a/b/c.txt:~/Android Studio/sdk/:build/libs/".
Proof. split; reflexivity. Qed.

Example doc_commonPathTransform :
  let subpath_map_fn := fun (info : string * string) (_ : nat) (_ : list (string * string)) =>
    snd info in
  commonPathTransform
    ["C:/Hello/World/This/Is/An/Example/Bla.cs";
     "C:\Hello\World\This\Is\Not/An/Example/";
     "C:/Hello/Earth/Bla/Bla/Bla"] subpath_map_fn
  = ["World/This/Is/An/Example/Bla.cs"; "World/This/Is/Not/An/Example/"; "Earth/Bla/Bla/Bla"]
  /\ commonPathTransform
       ["C:/Hello/World/This/Used/to-be-an/example/../../../Is/An/Example/Bla.cs";
        "./C:/Hello/World/This/Is/an/example/bla.cs";
        "C:/Hello/World/This/Is/Not/An/Example/"] subpath_map_fn
     = ["An/Example/Bla.cs"; "an/example/bla.cs"; "Not/An/Example/"]
  /\ commonPathTransform
       ["/C:/Hello///World/Users/This/Is/An/Example/Bla.cs";
        "/C:\Hello\World Users\This\Is/An\example/bla.cs";
        "/C:/./.\.\././Hello/World-Users/./././././This/Is/Not/An/Example/"] subpath_map_fn
     = ["//World/Users/This/Is/An/Example/Bla.cs"; "World Users/This/Is/An/example/bla.cs";
        "World-Users/This/Is/Not/An/Example/"].
Proof. repeat split. Qed.

Example doc_commonPathReplace :
  commonPathReplace
    ["C:/Hello/World/This/Is/An/Example/Bla.cs";
     "C:\Hello\World\This\Is\Not/An/Example/";
     "C:/Hello/Earth/Bla/Bla/Bla"] "D:/"
  = ["D:/World/This/Is/An/Example/Bla.cs"; "D:/World/This/Is/Not/An/Example/";
     "D:/Earth/Bla/Bla/Bla"]
  /\ commonPathReplace
       ["C:/Hello/World/This/Used/to-be-an/example/../../../Is/An/Example/Bla.cs";
        "./C:/Hello/World/This/Is/an/example/bla.cs";
        "C:/Hello/World/This/Is/Not/An/Example/"] "D:/temp"
     = ["D:/temp/An/Example/Bla.cs"; "D:/temp/an/example/bla.cs"; "D:/temp/Not/An/Example/"]
  /\ commonPathReplace
       ["/C:/Hello///World/Users/This/Is/An/Example/Bla.cs";
        "/C:\Hello\World Users\This\Is/An\example/bla.cs";
        "/C:/./.\.\././Hello/World-Users/./././././This/Is/Not/An/Example/"]
       "file:///./.\HELLO.\./../"
     = ["file:///./.\HELLO.\./..///World/Users/This/Is/An/Example/Bla.cs";
        "file:///./.\HELLO.\./../World Users/This/Is/An/example/bla.cs";
        "file:///./.\HELLO.\./../World-Users/This/Is/Not/An/Example/"].
Proof. repeat split. Qed.

End DocumentedExamples.
